(** * Automations: the chat assistant and the GA4 report generator

    A shallow embedding of the pure parts of the two Apps Script files of
    the repository, and the properties of them that the specification
    states:

    - [src/g4a-automation.js]: [parseGA4Response], [enrichMetrics],
      [calculatePeriodChanges];
    - the chat assistant script: [doPost], [processMessage],
      [extractDocumentId], [chunkText], [analyzeInChunks],
      [detectUserIntent].

    Further functions follow, with properties read off the code:

    - [src/g4a-automation.js]: [setupAutomation],
      [runScheduledFocusedReport], [formatDuration], [generatePieChart],
      [generateBarChart];
    - the chat assistant script: [isRelevantContent],
      [retrieveFromPinecone], the address and the requests of
      [upsertToPinecone] and [uploadDocumentToPinecone], [callGemini],
      [generateConversationalResponse], [processMessageWithComments].

    JavaScript strings are lists of characters; a character is an 8-bit
    code unit (the Latin-1 range of UTF-16).  Numbers are exact rationals
    extended with the two infinities and NaN: rounding and the sign of
    zero are not represented.  Objects are finite maps from property
    names to values, a missing property reading as [undefined]. *)

From Stdlib Require Import QArith Qround Lqa Ascii String DecimalString DecimalNat.
From stdpp Require Import gmap strings list fin_maps.

Set Warnings "-register-all".

Abbreviation str := (list ascii).
Coercion list_ascii_of_string : string >-> list.
Open Scope string_scope.
Open Scope nat_scope.
Open Scope list_scope.

(** ** The fragment of JavaScript the scripts rely on *)

Module JS.

(** *** Characters *)

Definition code (c : ascii) : N := N_of_ascii c.

Definition between (lo hi c : ascii) : bool :=
  ((code lo <=? code c) && (code c <=? code hi))%N.

Definition is_char (a c : ascii) : bool := Ascii.eqb a c.

(** WhiteSpace and LineTerminator code units below 256: what [trim]
    strips and what [\s] matches. *)
Definition isSpace (c : ascii) : bool :=
  between "009" "013" c || is_char " " c || is_char "160" c.

(** The characters [.] does not match. *)
Definition isLineTerminator (c : ascii) : bool :=
  is_char "010" c || is_char "013" c.

Definition isUpper (c : ascii) : bool :=
  between "A" "Z" c
  || (between "192" "222" c && negb (is_char "215" c)).

Definition lowerChar (c : ascii) : ascii :=
  if isUpper c then ascii_of_N (code c + 32) else c.

(** *** Strings *)

Definition toLowerCase (s : str) : str := map lowerChar s.

Fixpoint startsWith (p s : str) : bool :=
  match p, s with
  | [], _ => true
  | a :: p', b :: s' => Ascii.eqb a b && startsWith p' s'
  | _ :: _, [] => false
  end.

(** [s.includes(p)] *)
Fixpoint includes (p s : str) : bool :=
  startsWith p s ||
  match s with
  | [] => false
  | _ :: s' => includes p s'
  end.

Fixpoint trimStart (s : str) : str :=
  match s with
  | c :: s' => if isSpace c then trimStart s' else s
  | [] => []
  end.

Definition trimEnd (s : str) : str := rev (trimStart (rev s)).

Definition trim (s : str) : str := trimEnd (trimStart s).

(** [s.substring(a, b)] for non-negative integer arguments: both are
    clamped to the length and swapped when out of order. *)
Definition substring (a b : nat) (s : str) : str :=
  let a' := a `min` length s in
  let b' := b `min` length s in
  take ((a' `max` b') - (a' `min` b')) (drop (a' `min` b') s).

Definition nl : ascii := "010".

(** [s.split('\n\n')]: the pieces between the successive, leftmost,
    non-overlapping occurrences of two line feeds.  [acc] holds the
    piece being read, last character first. *)
Fixpoint splitParagraphs_from (acc s : str) : list str :=
  match s with
  | [] => [rev acc]
  | a :: t =>
      match t with
      | b :: s' =>
          if is_char nl a && is_char nl b
          then rev acc :: splitParagraphs_from [] s'
          else splitParagraphs_from (a :: acc) t
      | [] => splitParagraphs_from (a :: acc) t
      end
  end.

Definition splitParagraphs (s : str) : list str := splitParagraphs_from [] s.

Definition paragraphSep : str := [nl; nl].

(** [l.join('\n\n')] *)
Fixpoint joinParagraphs (l : list str) : str :=
  match l with
  | [] => []
  | [p] => p
  | p :: l' => p ++ paragraphSep ++ joinParagraphs l'
  end.

(** *** Regular expressions

    The constructs the scripts' patterns use.  Repetition is only ever
    applied to a single-character matcher in the sources, so [RStar]
    takes a character class. *)

Inductive regex : Type :=
| REmpty
| RLit (l : str)                          (* a literal run of characters *)
| RSet (p : ascii -> bool)                (* [.], [\s], [[...]] *)
| RSeq (r1 r2 : regex)
| RAlt (r1 r2 : regex)                    (* r1|r2 *)
| RStar (greedy : bool) (p : ascii -> bool) (* p* and p*? *)
| RGroup (i : nat) (r : regex)            (* the i-th capturing group *)
| RBol                                    (* ^ *)
| REol.                                   (* $ *)

Definition RPlus (greedy : bool) (p : ascii -> bool) : regex :=
  RSeq (RSet p) (RStar greedy p).

Definition ROpt (r : regex) : regex := RAlt r REmpty.

Definition dot (c : ascii) : bool := negb (isLineTerminator c).

(** Captures: group number and captured text, most recent first. *)
Definition captures := list (nat * str).

Definition orElse {A} (x y : option A) : option A :=
  match x with Some _ => x | None => y end.

Section Matcher.
Context {A : Type}.

(** Backtracking over a repetition of a class: the greedy form tries
    the longer match first, the lazy form the shorter one. *)
Fixpoint matchStar (greedy : bool) (p : ascii -> bool)
    (s : str) (c : captures) (k : str -> captures -> option A) : option A :=
  match s with
  | ch :: s' =>
      if p ch then
        if greedy
        then orElse (matchStar greedy p s' c k) (k s c)
        else orElse (k s c) (matchStar greedy p s' c k)
      else k s c
  | [] => k s c
  end.

(** [matchRe n r s c k]: match [r] at the front of [s], the rest of an
    input of length [n], then continue with [k]; the first success in
    priority order is the result, as in the language definition. *)
Fixpoint matchRe (n : nat) (r : regex) (s : str) (c : captures)
    (k : str -> captures -> option A) : option A :=
  match r with
  | REmpty => k s c
  | RLit l => if startsWith l s then k (drop (length l) s) c else None
  | RSet p =>
      match s with
      | ch :: s' => if p ch then k s' c else None
      | [] => None
      end
  | RSeq r1 r2 => matchRe n r1 s c (fun s' c' => matchRe n r2 s' c' k)
  | RAlt r1 r2 => orElse (matchRe n r1 s c k) (matchRe n r2 s c k)
  | RStar g p => matchStar g p s c k
  | RGroup i r' =>
      matchRe n r' s c
        (fun s' c' => k s' ((i, take (length s - length s') s) :: c'))
  | RBol => if length s =? n then k s c else None
  | REol => match s with [] => k s c | _ :: _ => None end
  end.
End Matcher.

(** The result of [s.match(r)]: the matched text and the captures. *)
Record matchResult := { matched : str; groups : captures }.

Definition accept (s : str) : str -> captures -> option matchResult :=
  fun s' c => Some {| matched := take (length s - length s') s; groups := c |}.

(** Try each start position from the left. *)
Fixpoint searchFrom (n : nat) (r : regex) (s : str) : option matchResult :=
  match matchRe n r s [] (accept s) with
  | Some m => Some m
  | None =>
      match s with
      | [] => None
      | _ :: s' => searchFrom n r s'
      end
  end.

(** [s.match(r)] for a pattern without the [g] flag; [None] is [null]. *)
Definition match_ (r : regex) (s : str) : option matchResult :=
  searchFrom (length s) r s.

(** [r.test(s)], and the truth value of [s.match(r)]. *)
Definition test (r : regex) (s : str) : bool :=
  match match_ r s with Some _ => true | None => false end.

(** [m[i]] for [i >= 1]; [None] is [undefined]. *)
Fixpoint group (i : nat) (c : captures) : option str :=
  match c with
  | [] => None
  | (j, t) :: c' => if i =? j then Some t else group i c'
  end.

(** *** Numbers *)

Inductive num : Type :=
| Fin (q : Q)
| Inf (negative : bool)
| NaN.

Definition isNegative (q : Q) : bool := negb (Qle_bool 0 q).

Definition isZero (q : Q) : bool := Qeq_bool q 0.

(** [a - b] *)
Definition num_sub (a b : num) : num :=
  match a, b with
  | NaN, _ | _, NaN => NaN
  | Fin x, Fin y => Fin (x - y)
  | Fin _, Inf s => Inf (negb s)
  | Inf s, Fin _ => Inf s
  | Inf s, Inf t => if Bool.eqb s t then NaN else Inf s
  end.

(** [a * b] *)
Definition num_mul (a b : num) : num :=
  match a, b with
  | NaN, _ | _, NaN => NaN
  | Fin x, Fin y => Fin (x * y)
  | Fin x, Inf s | Inf s, Fin x =>
      if isZero x then NaN else Inf (xorb (isNegative x) s)
  | Inf s, Inf t => Inf (xorb s t)
  end.

(** [a / b]: a division by zero gives an infinity, or NaN for [0 / 0]. *)
Definition num_div (a b : num) : num :=
  match a, b with
  | NaN, _ | _, NaN => NaN
  | Fin x, Fin y =>
      if isZero y
      then (if isZero x then NaN else Inf (isNegative x))
      else Fin (x / y)
  | Fin _, Inf _ => Fin 0
  | Inf s, Fin y => Inf (xorb s (isNegative y))
  | Inf _, Inf _ => NaN
  end.

(** [a > b] *)
Definition num_gt (a b : num) : bool :=
  match a, b with
  | NaN, _ | _, NaN => false
  | Fin x, Fin y => negb (Qle_bool x y)
  | Fin _, Inf s => s
  | Inf s, Fin _ => negb s
  | Inf s, Inf t => negb s && t
  end.

(** [a === b] on numbers *)
Definition num_eq (a b : num) : bool :=
  match a, b with
  | Fin x, Fin y => Qeq_bool x y
  | Inf s, Inf t => Bool.eqb s t
  | _, _ => false
  end.

(** Truthiness of a number: neither zero nor NaN. *)
Definition num_truthy (a : num) : bool :=
  match a with
  | Fin x => negb (isZero x)
  | Inf _ => true
  | NaN => false
  end.

(** [a || d] on numbers *)
Definition num_or (a d : num) : num := if num_truthy a then a else d.

(** *** Exceptions

    A computation returns a value or throws; the exception is carried
    as the text its [toString()] gives. *)

Inductive result (A : Type) : Type :=
| Ok (a : A)
| Throw (e : str).
Arguments Ok {A} a.
Arguments Throw {A} e.

#[export] Instance result_ret : MRet result := fun A a => Ok a.
#[export] Instance result_bind : MBind result := fun A B f m =>
  match m with
  | Ok a => f a
  | Throw e => Throw e
  end.
#[export] Instance result_fmap : FMap result := fun A B f m =>
  match m with
  | Ok a => Ok (f a)
  | Throw e => Throw e
  end.

(** [try { body } catch (error) { handler(error) }] *)
Definition tryCatch {A} (body : result A) (handler : str -> result A) : result A :=
  match body with
  | Ok a => Ok a
  | Throw e => handler e
  end.

(** *** Values

    The values that travel through the request handlers: those of
    JSON, and [undefined]. *)

Inductive json : Type :=
| VUndef
| VNull
| VBool (b : bool)
| VNum (n : num)
| VStr (s : str)
| VArr (l : list json)
| VObj (o : gmap str json).

Definition typeError (what : str) : str := "TypeError: " ++ what.

(** [v.k] for a property name [k] that no primitive and no array has
    (the names read this way are [postData], [contents], [message],
    [conversationHistory], [text]): reading a property of [undefined] or
    [null] throws. *)
Definition getProp (v : json) (k : str) : result json :=
  match v with
  | VUndef => Throw (typeError ("Cannot read properties of undefined (reading '" ++ k ++ "')"))
  | VNull => Throw (typeError ("Cannot read properties of null (reading '" ++ k ++ "')"))
  | VObj o => Ok (default VUndef (o !! k))
  | _ => Ok VUndef
  end.

(** The receiver [v] of a string method ([toLowerCase], [match], [trim],
    [substring]), written [receiver] in the call: anything but a string
    throws. *)
Definition asString (v : json) (receiver method : str) : result str :=
  match v with
  | VStr s => Ok s
  | VUndef => Throw (typeError ("Cannot read properties of undefined (reading '" ++ method ++ "')"))
  | VNull => Throw (typeError ("Cannot read properties of null (reading '" ++ method ++ "')"))
  | _ => Throw (typeError (receiver ++ "." ++ method ++ " is not a function"))
  end.

End JS.

(** ** The GA4 report script *)

Module GA4.
Import JS.

(** A property of a report row holds a number (a metric) or a string
    (a dimension). *)
Inductive cell : Type :=
| Num (n : num)
| Str (s : str).

(** A row object; a missing property reads as [undefined]. *)
Abbreviation row := (gmap str cell).

(** What an expression over the properties of a row evaluates to:
    [None] is [undefined]. *)
Abbreviation jsval := (option cell).

(** The conversions of the language that read a number out of a
    string. *)
Class Builtins := {
  parseFloat : str -> num;
  parseInt : str -> num;
  (* the conversion applied to a string operand of [-], [/], [*], [>] *)
  stringToNumber : str -> num
}.

Definition number (q : Q) : cell := Num (Fin q).

Definition truthy (v : jsval) : bool :=
  match v with
  | None => false
  | Some (Num n) => num_truthy n
  | Some (Str s) => match s with [] => false | _ :: _ => true end
  end.

(** [v || d] *)
Definition orDefault (v : jsval) (d : cell) : jsval :=
  if truthy v then v else Some d.

(** [a === b] *)
Definition strictEq (a b : jsval) : bool :=
  match a, b with
  | None, None => true
  | Some (Num x), Some (Num y) => num_eq x y
  | Some (Str s), Some (Str t) => bool_decide (s = t)
  | _, _ => false
  end.

Section Metrics.
Context `{Builtins}.

Definition toNumber (v : jsval) : num :=
  match v with
  | None => NaN
  | Some (Num n) => n
  | Some (Str s) => stringToNumber s
  end.

(** [a - b], [a / b], [a * b] and [a > b] with a number on one side at
    least: the operands are converted to numbers. *)
Definition sub (a b : jsval) : cell := Num (num_sub (toNumber a) (toNumber b)).
Definition div (a b : jsval) : cell := Num (num_div (toNumber a) (toNumber b)).
Definition mul (a b : jsval) : cell := Num (num_mul (toNumber a) (toNumber b)).
Definition gt (a b : jsval) : bool := num_gt (toNumber a) (toNumber b).

(** *** parseGA4Response *)

Record header := { name : str }.
Record dataValue := { value : str }.
Record reportRow := {
  dimensionValues : option (list dataValue);
  metricValues : option (list dataValue)
}.
Record response := {
  rows : option (list reportRow);
  dimensionHeaders : option (list header);
  metricHeaders : option (list header)
}.

(** [values[index].value]: reading [value] of a missing element throws. *)
Definition valueAt (values : list dataValue) (index : nat) : result str :=
  match values !! index with
  | Some v => Ok (value v)
  | None => Throw (typeError "Cannot read properties of undefined (reading 'value')")
  end.

(** [headers.forEach((header, index) => { result[header.name] = f(header, values[index].value) })] *)
Fixpoint forEachHeader (f : header -> str -> cell) (values : list dataValue)
    (index : nat) (headers : list header) (result_ : row) : result row :=
  match headers with
  | [] => Ok result_
  | header :: headers' =>
      v ← valueAt values index;
      forEachHeader f values (S index) headers'
        (<[ name header := f header v ]> result_)
  end.

Definition isFloatMetric (header : header) : bool :=
  includes "Rate" (name header) || includes "Duration" (name header)
  || includes "Per" (name header).

(** The number stored for a metric. *)
Definition metricCell (header : header) (v : str) : cell :=
  if isFloatMetric header
  then Num (num_or (parseFloat v) (Fin 0))
  else Num (num_or (parseInt v) (Fin 0)).

(** The callback of [response.rows.map]. *)
Definition parseRow (resp : response) (r : reportRow) : result row :=
  withDimensions ←
    match dimensionValues r, dimensionHeaders resp with
    | Some values, Some headers =>
        forEachHeader (fun _ v => Str v) values 0 headers ∅
    | _, _ => Ok ∅
    end;
  match metricValues r, metricHeaders resp with
  | Some values, Some headers =>
      forEachHeader metricCell values 0 headers withDimensions
  | _, _ => Ok withDimensions
  end.

(** [parseGA4Response(response)] *)
Definition parseGA4Response (resp : response) : result (list row) :=
  match rows resp with
  | None | Some [] => Ok []
  | Some rs => mapM (parseRow resp) rs
  end.

(** *** enrichMetrics *)

(** The object literal of [enrichMetrics]: the properties of the row,
    then the two computed ones. *)
Definition enrichRow (r : row) : row :=
  <[ ("avgEngagementPerSession" : str) :=
       if gt (r !! ("sessions" : str)) (Some (number 0))
       then div (orDefault (r !! ("userEngagementDuration" : str)) (number 0))
                (r !! ("sessions" : str))
       else number 0 ]>
  (<[ ("returningUsers" : str) :=
        sub (orDefault (r !! ("totalUsers" : str)) (number 0))
            (orDefault (r !! ("newUsers" : str)) (number 0)) ]>
   r).

(** [enrichMetrics(data)] *)
Definition enrichMetrics (data : list row) : list row := map enrichRow data.

(** *** calculatePeriodChanges *)

(** [calculateChange(curr, prev)] *)
Definition calculateChange (curr prev : jsval) : cell :=
  if strictEq prev (Some (number 0))
  then (if gt curr (Some (number 0)) then number 100 else number 0)
  else mul (Some (div (Some (sub curr prev)) prev)) (Some (number 100)).

Definition channelKey : str := "sessionDefaultChannelGrouping".

(** [previous.find(p => p.sessionDefaultChannelGrouping === channelName) || {}] *)
Definition findPrevious (previous : list row) (channelName : option cell) : row :=
  default ∅
    (List.find (fun p => strictEq (p !! channelKey) channelName) previous).

(** The object [calculatePeriodChanges] builds for a row: the
    properties of the enriched row, [changes] apart, and the
    [changes] object that replaces any property of that name. *)
Record changedRow := { fields : row; changes : row }.

Definition changeOf (currentRow previousRow : row) (metric : str) : cell :=
  calculateChange (orDefault (currentRow !! metric) (number 0))
                  (orDefault (previousRow !! metric) (number 0)).

(** [(r.userEngagementDuration || 0) / (r.sessions || 1)] *)
Definition perSession (r : row) : cell :=
  div (orDefault (r !! ("userEngagementDuration" : str)) (number 0))
      (orDefault (r !! ("sessions" : str)) (number 1)).

Definition changesOf (currentRow previousRow : row) : row :=
  list_to_map
    [ ("sessions" : str, changeOf currentRow previousRow "sessions");
      ("newUsers" : str, changeOf currentRow previousRow "newUsers");
      ("totalUsers" : str, changeOf currentRow previousRow "totalUsers");
      ("averageSessionDuration" : str,
         changeOf currentRow previousRow "averageSessionDuration");
      ("avgEngagementPerSession" : str,
         calculateChange (Some (perSession currentRow)) (Some (perSession previousRow)));
      ("eventsPerSession" : str, changeOf currentRow previousRow "eventsPerSession");
      ("bounceRate" : str, changeOf currentRow previousRow "bounceRate") ].

(** [calculatePeriodChanges(current, previous)] *)
Definition calculatePeriodChanges (current previous : list row) : list changedRow :=
  map (fun currentRow =>
         let channelName := currentRow !! channelKey in
         let previousRow := findPrevious previous channelName in
         {| fields := delete ("changes" : str) (enrichRow currentRow);
            changes := changesOf currentRow previousRow |})
      current.

End Metrics.

End GA4.

(** ** The chat assistant script *)

Module Chat.
Import JS.

(** [[a-zA-Z0-9-_]] *)
Definition idChar (c : ascii) : bool :=
  between "a" "z" c || between "A" "Z" c || between "0" "9" c
  || is_char "-" c || is_char "_" c.

(** [/\/document\/d\/([a-zA-Z0-9-_]+)/] *)
Definition docPathPattern : regex :=
  RSeq (RLit "/document/d/") (RGroup 1 (RPlus true idChar)).

(** [/^([a-zA-Z0-9-_]+)$/] *)
Definition bareIdPattern : regex :=
  RSeq RBol (RSeq (RGroup 1 (RPlus true idChar)) REol).

(** The loop of [extractDocumentId] over its patterns: the first
    capture of the first pattern that matches. *)
Fixpoint firstCapture (patterns : list regex) (url : str) : option str :=
  match patterns with
  | [] => None
  | pattern :: patterns' =>
      match match_ pattern url with
      | Some m => group 1 (groups m)
      | None => firstCapture patterns' url
      end
  end.

(** [extractDocumentId(url)]; [None] is [null]. *)
Definition extractDocumentId (url : str) : option str :=
  firstCapture [docPathPattern; bareIdPattern] url.

(** *** Request handling *)

Definition obj (fields : list (str * json)) : json := VObj (list_to_map fields).

Definition reviewKeywords : list str :=
  [ "review" : str; "analyze" : str; "check" : str; "feedback" : str;
    "docs.google.com" : str; "document/d/" : str; "look at this doc" : str;
    "can you review" : str ].

(** [isDocumentReviewRequest(message)] *)
Definition isDocumentReviewRequest (message : json) : result bool :=
  lower ← toLowerCase <$> asString message "message" "toLowerCase";
  mret (existsb (fun keyword => includes keyword lower) reviewKeywords).

(** [formatErrorMessage(docId, error)] *)
Definition formatErrorMessage (docId error : str) : str :=
  "DOCUMENT UNAVAILABLE: " ++ docId ++ [nl] ++
  "REASON: " ++ error ++ [nl] ++
  "ACTION REQUIRED: Please grant access to this document or share it publicly. I cannot analyze content I cannot read.".

(** What [readGoogleDoc] returns: one of its two object literals. *)
Inductive docContent : Type :=
| DocRead (title text documentId : str)     (* success: true *)
| DocFailed (error : str).                  (* success: false *)

(** The services behind the handlers: the platform's document, drive
    and HTTP calls, each of which may throw. *)
Class Services := {
  (* JSON.parse on the request body *)
  JSON_parse : json -> result json;
  (* DocumentApp.openById(id), then its name and body text *)
  openDocument : str -> result (str * str);
  (* the embedding endpoint *)
  getEmbedding : str -> result json;
  (* the vector database query *)
  queryPinecone : json -> nat -> result (list json);
  (* CHAT_CONFIG.RULES_FOLDER_ID; [None] when unset *)
  RULES_FOLDER_ID : option str;
  (* the scan of the rules folder for documents relevant to a query *)
  scanRulesFolder : str -> json -> result (list json);
  (* the listing of the rules folder *)
  listRulesFolder : str -> result (list json);
  (* prompt building and the call of the language model *)
  generateConversationalResponse : json -> json -> json -> result json;
  analyzeDocumentWithRules : docContent -> list json -> list json -> json -> result json
}.

Section Handlers.
Context `{Services}.

(** [readGoogleDoc(docId)] *)
Definition readGoogleDoc (docId : str) : docContent :=
  match openDocument docId with
  | Ok (title, text) => DocRead title text docId
  | Throw error => DocFailed error
  end.

(** [retrieveFromPinecone(text, topK)]: a failure is logged and
    replaced by the empty list. *)
Definition retrieveFromPinecone (text : json) (topK : nat) : list json :=
  match
    (query ← substring 0 1000 <$> asString text "text" "substring";
     queryVector ← getEmbedding query;
     queryPinecone queryVector topK)
  with
  | Ok rules => rules
  | Throw _ => []
  end.

(** [searchRulesInDrive(query)] *)
Definition searchRulesInDrive (query : json) : list json :=
  match RULES_FOLDER_ID with
  | None => []
  | Some folder =>
      match scanRulesFolder folder query with
      | Ok results => results
      | Throw _ => []
      end
  end.

(** [listRuleDocuments()] *)
Definition listRuleDocuments : list json :=
  match RULES_FOLDER_ID with
  | None => []
  | Some folder =>
      match listRulesFolder folder with
      | Ok docs => docs
      | Throw _ => []
      end
  end.

(** [gatherContext(query)]: the three lookups never throw, so the
    [catch] blocks around them are not reached. *)
Definition gatherContext (query : json) : json :=
  obj [ ("pineconeRules" : str, VArr (retrieveFromPinecone query 5));
        ("driveRules" : str, VArr (searchRulesInDrive query));
        ("relevantDocs" : str, VArr listRuleDocuments) ].

(** The [try] block of [handleConversationalQuery]. *)
Definition handleConversationalQuery_body (userMessage conversationHistory : json)
    : result json :=
  let context := gatherContext userMessage in
  response ← generateConversationalResponse userMessage context conversationHistory;
  mret (obj [ ("success" : str, VBool true);
              ("message" : str, response);
              ("context" : str, context) ]).

(** [handleConversationalQuery(userMessage, conversationHistory)] *)
Definition handleConversationalQuery (userMessage conversationHistory : json)
    : result json :=
  tryCatch
    (handleConversationalQuery_body userMessage conversationHistory)
    (fun error =>
       mret (obj [ ("success" : str, VBool false);
                   ("message" : str, VStr ("Error processing your question: " ++ error)) ])).

Definition count (l : list json) : json :=
  VNum (Fin (inject_Z (Z.of_nat (length l)))).

(** The [try] block of [reviewDocument]. *)
Definition reviewDocument_body (docId : str) (conversationHistory : json) : result json :=
  match readGoogleDoc docId with
  | DocFailed error =>
      mret (obj [ ("success" : str, VBool false);
                  ("message" : str, VStr (formatErrorMessage docId error)) ])
  | DocRead title text _ as docContent =>
      let pineconeRules := retrieveFromPinecone (VStr text) 10 in
      let driveRules := searchRulesInDrive (VStr text) in
      analysis ← analyzeDocumentWithRules docContent pineconeRules driveRules
                   conversationHistory;
      mret (obj [ ("success" : str, VBool true);
                  ("message" : str, analysis);
                  ("documentTitle" : str, VStr title);
                  ("rulesUsed" : str,
                    obj [ ("pineconeCount" : str, count pineconeRules);
                          ("driveDocsCount" : str, count driveRules) ]) ])
  end.

(** [reviewDocument(docId, conversationHistory)] *)
Definition reviewDocument (docId : str) (conversationHistory : json) : result json :=
  tryCatch
    (reviewDocument_body docId conversationHistory)
    (fun error =>
       mret (obj [ ("success" : str, VBool false);
                   ("message" : str, VStr ("Error: " ++ error)) ])).

(** The [try] block of [processMessage]. *)
Definition processMessage_body (userMessage conversationHistory : json)
    : result json :=
  isDocReview ← isDocumentReviewRequest userMessage;
  docId ← (if isDocReview : bool
           then extractDocumentId <$> asString userMessage "url" "match"
           else mret None);
  match docId with
  | Some (c :: id) => reviewDocument (c :: id) conversationHistory
  | Some [] | None => handleConversationalQuery userMessage conversationHistory
  end.

(** The default [conversationHistory = []] of a parameter: it stands in
    for [undefined]. *)
Definition orEmptyArray (conversationHistory : json) : json :=
  match conversationHistory with VUndef => VArr [] | h => h end.

(** [processMessage(userMessage, conversationHistory = [])] *)
Definition processMessage (userMessage conversationHistory : json) : result json :=
  let conversationHistory := orEmptyArray conversationHistory in
  tryCatch
    (processMessage_body userMessage conversationHistory)
    (fun error =>
       mret (obj [ ("success" : str, VBool false);
                   ("message" : str, VStr ("Error: " ++ error)) ])).



End Handlers.

(** *** Splitting a document for upload *)

Definition nonEmpty (s : str) : bool :=
  match s with [] => false | _ :: _ => true end.

(** The variables of [chunkText]. *)
Record chunkState := { chunks : list str; currentChunk : str }.

(** The body of [paragraphs.forEach] in [chunkText]. *)
Definition chunkStep (maxLength : nat) (st : chunkState) (para : str) : chunkState :=
  if (maxLength <? length (currentChunk st ++ para)) && nonEmpty (currentChunk st)
  then {| chunks := chunks st ++ [trim (currentChunk st)];
          currentChunk := para |}
  else {| chunks := chunks st;
          currentChunk :=
            currentChunk st
            ++ (if nonEmpty (currentChunk st) then paragraphSep else [])
            ++ para |}.

Definition chunkFinish (st : chunkState) : list str :=
  if nonEmpty (currentChunk st)
  then chunks st ++ [trim (currentChunk st)]
  else chunks st.

(** [chunkText(text, maxLength)] *)
Definition chunkText (text : str) (maxLength : nat) : list str :=
  let paragraphs := splitParagraphs text in
  chunkFinish
    (fold_left (chunkStep maxLength) paragraphs
       {| chunks := []; currentChunk := [] |}).

(** *** Analysing a long document in chunks *)

(** [analyzeForHighlighting] hands a document over to [analyzeInChunks]
    when [docLength > 15000]. *)
Definition longDocumentLength : nat := 150 * 100.

Definition chunkSize : nat := 100 * 100.   (* 10000 characters per chunk *)
Definition chunkOverlap : nat := 500.

(** The loop [for (i = 0; i < text.length; i += chunkSize - 500)]: at
    most [fuel] windows, from position [i] on. *)
Fixpoint windowsFrom (fuel i : nat) (text : str) : list str :=
  match fuel with
  | 0 => []
  | S fuel' =>
      if i <? length text
      then substring i ((i + chunkSize) `min` length text) text
           :: windowsFrom fuel' (i + (chunkSize - chunkOverlap)) text
      else []
  end.

(** The windows of [analyzeInChunks]: the position advances by 9500 at
    each turn, so the loop ends within [length text] turns. *)
Definition splitIntoChunks (text : str) : list str :=
  windowsFrom (length text) 0 text.

(** [allIssues] and [seenTexts] *)
Record dedupState := { allIssues : list json; seenTexts : gset str }.

(** [issue.text.trim()] *)
Definition issueKey (issue : json) : result str :=
  text ← getProp issue "text";
  trim <$> asString text "issue.text" "trim".

(** [result.issues.forEach(issue => ...)]: an issue whose text cannot be
    read throws, which ends the loop; what was added before stays. *)
Fixpoint addIssues (issues : list json) (st : dedupState) : dedupState :=
  match issues with
  | [] => st
  | issue :: rest =>
      match issueKey issue with
      | Throw _ => st
      | Ok textKey =>
          if decide (textKey ∈ seenTexts st)
          then addIssues rest st
          else addIssues rest
                 {| allIssues := allIssues st ++ [issue];
                    seenTexts := {[ textKey ]} ∪ seenTexts st |}
      end
  end.

Section Analysis.
(** The reply of the language model for one chunk, reduced to the
    [issues] array of the JSON object found in it: [Throw] when the
    call or the parsing fails, [None] when the reply holds no JSON
    object. *)
Variable reviewChunk : nat -> str -> result (option (list json)).

(** The body of [chunks.forEach] in [analyzeInChunks]. *)
Definition analyzeChunk (st : dedupState) (indexed : nat * str) : dedupState :=
  match reviewChunk indexed.1 indexed.2 with
  | Ok (Some issues) => addIssues issues st
  | Ok None | Throw _ => st
  end.

Definition analyzeChunks (chunks : list str) (st : dedupState) : dedupState :=
  fold_left analyzeChunk (imap (fun i chunk => (i, chunk)) chunks) st.

(** [analyzeInChunks(docContent, allRules, rulesContext)]: the
    [issues] of its result. *)
Definition analyzeInChunks (text : str) : list json :=
  allIssues
    (analyzeChunks (splitIntoChunks text)
       {| allIssues := []; seenTexts := ∅ |}).
End Analysis.

(** *** Intent detection *)

Fixpoint alts (rs : list regex) : regex :=
  match rs with
  | [] => REmpty
  | [r] => r
  | r :: rs' => RAlt r (alts rs')
  end.

Fixpoint seqs (rs : list regex) : regex :=
  match rs with
  | [] => REmpty
  | [r] => r
  | r :: rs' => RSeq r (seqs rs')
  end.

(** [.*] *)
Definition anything : regex := RStar true dot.

(** [a.*b] *)
Definition thenLater (a b : string) : regex := seqs [RLit a; anything; RLit b].

(** The double and the single quote. *)
Definition isQuote (c : ascii) : bool := is_char "034" c || is_char "'" c.

(** [/extract|scan|check.*new|update.*docs|newly added|get.*new.*documents/] *)
Definition extractPattern : regex :=
  alts [ RLit "extract"; RLit "scan"; thenLater "check" "new";
         thenLater "update" "docs"; RLit "newly added";
         seqs [RLit "get"; anything; RLit "new"; anything; RLit "documents"] ].

(** [/analyze.*comment|review.*comment|check.*comment|add.*comment|highlight.*issue/] *)
Definition commentPattern : regex :=
  alts [ thenLater "analyze" "comment"; thenLater "review" "comment";
         thenLater "check" "comment"; thenLater "add" "comment";
         thenLater "highlight" "issue" ].

(** [/review|analyze|check|feedback|docs\.google\.com/] *)
Definition reviewPattern : regex :=
  alts [ RLit "review"; RLit "analyze"; RLit "check"; RLit "feedback";
         RLit "docs.google.com" ].

(** [/https:\/\/docs\.google\.com\/document\/d\/([a-zA-Z0-9-_]+)/] *)
Definition docUrlPattern : regex :=
  RSeq (RLit "https://docs.google.com/document/d/") (RGroup 1 (RPlus true idChar)).

(** [/sync|upload.*pinecone|index|embed/] *)
Definition syncPattern : regex :=
  alts [ RLit "sync"; thenLater "upload" "pinecone"; RLit "index"; RLit "embed" ].

(** [/(?:document|doc|file).*[q]([^q]+)[q]|about\s+(.+?)\s+document/],
    where [q] stands for the two quote characters. *)
Definition docNamePattern : regex :=
  RAlt
    (seqs [ alts [RLit "document"; RLit "doc"; RLit "file"]; anything;
            RSet isQuote;
            RGroup 1 (RPlus true (fun c => negb (isQuote c)));
            RSet isQuote ])
    (seqs [ RLit "about"; RPlus true isSpace;
            RGroup 2 (RPlus false dot);
            RPlus true isSpace; RLit "document" ]).

(** [/tabs?|sections?|structure|outline/] *)
Definition tabsPattern : regex :=
  alts [ RSeq (RLit "tab") (ROpt (RLit "s")); RSeq (RLit "section") (ROpt (RLit "s"));
         RLit "structure"; RLit "outline" ].

(** [/how many|list|show|find|search|documents?|comments?|revisions?/] *)
Definition queryPattern : regex :=
  alts [ RLit "how many"; RLit "list"; RLit "show"; RLit "find"; RLit "search";
         RSeq (RLit "document") (ROpt (RLit "s"));
         RSeq (RLit "comment") (ROpt (RLit "s"));
         RSeq (RLit "revision") (ROpt (RLit "s")) ].

(** The objects [detectUserIntent] returns, by their [type]. *)
Inductive intent : Type :=
| extract_new_docs
| analyze_with_comments (docId : str)
| analyze_with_comments_prompt
| review_document (docId : str)
| sync_to_pinecone
| query_specific_doc (docName : option str)
| analyze_tabs
| query_documents
| general_chat.

(** [docMatch[1]]: the group takes part in every match of [docUrlPattern]. *)
Definition docIdOf (m : matchResult) : str := default [] (group 1 (groups m)).

(** [a || b] on captured texts: [undefined] and the empty string are falsy. *)
Definition firstTruthy (a b : option str) : option str :=
  match a with
  | Some (_ :: _) => a
  | _ => b
  end.

(** [detectUserIntent(message)] *)
Definition detectUserIntent (message : str) : intent :=
  let lower := toLowerCase message in
  if test extractPattern lower then extract_new_docs
  else if test commentPattern lower then
    match match_ docUrlPattern message with
    | Some docMatch => analyze_with_comments (docIdOf docMatch)
    | None => analyze_with_comments_prompt
    end
  else
    match (if test reviewPattern lower then match_ docUrlPattern message else None) with
    | Some docMatch => review_document (docIdOf docMatch)
    | None =>
        if test syncPattern lower then sync_to_pinecone
        else
          match match_ docNamePattern lower with
          | Some docNameMatch =>
              query_specific_doc
                (firstTruthy (group 1 (groups docNameMatch))
                             (group 2 (groups docNameMatch)))
          | None =>
              if test tabsPattern lower then analyze_tabs
              else if test queryPattern lower then query_documents
              else general_chat
          end
    end.

End Chat.

(** ** Vocabulary of the statements *)

Import JS GA4 Chat.

Definition docPathLit : str := "/document/d/".

Definition docUrlLit : str := "https://docs.google.com/document/d/".

(** [lit], then a character of the class of document ids, at position [i]
    of [url]. *)
Definition idAfter (lit url : str) (i : nat) : bool :=
  let s := drop i url in
  startsWith lit s &&
  match drop (length lit) s with
  | ch :: _ => idChar ch
  | [] => false
  end.

(** The shape the two patterns for a document id in a link share. *)
Definition idAfterPattern (lit : str) : regex :=
  RSeq (RLit lit) (RGroup 1 (RPlus true idChar)).

Definition docPathAt : str -> nat -> bool := idAfter docPathLit.

(** A run of the class ends where [rest] starts. *)
Definition endsRun (rest : str) : bool :=
  match rest with
  | [] => true
  | ch :: _ => negb (idChar ch)
  end.

Definition allId (s : str) : bool := forallb idChar s.

(** The characters of the class at the front of [s], and what follows
    them. *)
Fixpoint idRun (s : str) : str :=
  match s with
  | c :: s' => if idChar c then c :: idRun s' else []
  | [] => []
  end.

Fixpoint afterRun (s : str) : str :=
  match s with
  | c :: s' => if idChar c then afterRun s' else s
  | [] => []
  end.

(** [message] holds a link to a document whose id is [id]: the leftmost
    occurrence of the link prefix that an id follows, and the whole run of
    id characters after it. *)
Definition docUrlIn (message id : str) : Prop :=
  exists pre rest,
    message = pre ++ docUrlLit ++ id ++ rest /\
    id <> [] /\ allId id = true /\ endsRun rest = true /\
    (forall i, i < length pre -> idAfter docUrlLit message i = false).

(** The text without its white space. *)
Definition removeSpaces (s : str) : str :=
  List.filter (fun c => negb (isSpace c)) s.

(** What [chunkText] guarantees of a chunk: it is a paragraph of the text,
    trimmed, or the trimmed result of appending a paragraph to a chunk
    under the length check. *)
Definition chunkWithin (maxLength : nat) (paragraphs : list str) (c : str) : Prop :=
  (exists p, In p paragraphs /\ c = trim p /\ length c <= length p)
  \/ (exists prev para,
        In para paragraphs /\
        c = trim (prev ++ paragraphSep ++ para) /\
        length prev + length para <= maxLength).

(** What holds of the variables of [chunkText] between two paragraphs. *)
Definition chunkInv (maxLength : nat) (paragraphs : list str) (st : chunkState) : Prop :=
  Forall (chunkWithin maxLength paragraphs) (chunks st)
  /\ (currentChunk st = []
      \/ In (currentChunk st) paragraphs
      \/ exists prev para,
           In para paragraphs /\
           currentChunk st = prev ++ paragraphSep ++ para /\
           length prev + length para <= maxLength).

(** A paragraph that trimming leaves as it is: not empty, with no white
    space at either end. *)
Definition cleanParagraph (p : str) : bool :=
  match p with [] => false | c :: _ => negb (isSpace c) end
  && match rev p with [] => false | c :: _ => negb (isSpace c) end.

(** The variables of [chunkText] after the paragraphs [seen], when these
    are clean: nothing yet, or chunks that join to the paragraphs seen. *)
Definition chunkExact (seen : list str) (st : chunkState) : Prop :=
  (seen = [] /\ chunks st = [] /\ currentChunk st = [])
  \/ (seen <> [] /\ cleanParagraph (currentChunk st) = true /\
      joinParagraphs (chunks st ++ [currentChunk st]) = joinParagraphs seen).

(** The distance between the starts of two successive windows. *)
Definition windowStep : nat := chunkSize - chunkOverlap.

(** The window that starts at position [i]. *)
Definition windowAt (text : str) (i : nat) : str :=
  take (chunkSize `min` (length text - i)) (drop i text).

(** The text of an issue: the string that its [text] property holds. *)
Definition textOf (issue : json) : option str :=
  match issue with
  | VObj o => match o !! ("text" : str) with
              | Some (VStr s) => Some s
              | _ => None
              end
  | _ => None
  end.

(** The text of an issue without the white space around it. *)
Definition trimmedText (issue : json) : option str := trim <$> textOf issue.

(** The issues of a reply that the loop over them gets to: those before
    the first issue that has no text. *)
Fixpoint readIssues (issues : list json) : list json :=
  match issues with
  | [] => []
  | issue :: rest =>
      match textOf issue with
      | Some _ => issue :: readIssues rest
      | None => []
      end
  end.

(** The first issue of each trimmed text, in the order of the list. *)
Fixpoint firstByText (l : list json) : list json :=
  match l with
  | [] => []
  | x :: r => x :: filter (fun y => trimmedText y <> trimmedText x) (firstByText r)
  end.

(** The issues met in the replies for numbered chunks, in order. *)
Definition issuesIn (reviewChunk : nat -> str -> result (option (list json)))
    (indexed : list (nat * str)) : list json :=
  concat (map (fun ic : nat * str =>
                 match reviewChunk ic.1 ic.2 with
                 | Ok (Some issues) => readIssues issues
                 | Ok None | Throw _ => []
                 end) indexed).

(** The issues [analyzeInChunks] goes through, chunk after chunk. *)
Definition issuesMet (reviewChunk : nat -> str -> result (option (list json)))
    (chunks : list str) : list json :=
  issuesIn reviewChunk (imap (fun i chunk => (i, chunk)) chunks).

(** [allIssues] and [seenTexts] after the issues [past]. *)
Definition dedupInv (past : list json) (st : dedupState) : Prop :=
  allIssues st = firstByText past
  /\ (forall k, k ∈ seenTexts st <-> Some k ∈ trimmedText <$> past).

(** The state [analyzeInChunks] starts from. *)
Definition noIssues : dedupState := {| allIssues := []; seenTexts := ∅ |}.

(** A reply of two chunks that overlap, and of a third that fails. *)
Definition sampleIssue (text note : string) : json :=
  obj [ ("text" : str, VStr text); ("issue" : str, VStr note) ].

Definition sampleReview (i : nat) (chunk : str) : result (option (list json)) :=
  match i with
  | 0 => Ok (Some [sampleIssue "very unique" "wordy"; sampleIssue "in order to" "wordy"])
  | 1 => Ok (Some [sampleIssue " in order to " "again"; sampleIssue "utilize" "plain word";
                   VNull; sampleIssue "never read" "lost"])
  | _ => Throw "Error: Failed to get response from Gemini: quota"
  end.

(** The answer of a handler that failed. *)
Definition failureResponse (message : str) : json :=
  obj [ ("success" : str, VBool false); ("message" : str, VStr message) ].

(** An object with a [success] and a [message] property. *)
Definition isResponse (v : json) : Prop :=
  exists o, v = VObj o /\ is_Some (o !! ("success" : str)) /\ is_Some (o !! ("message" : str)).

(** A handler that returns, and returns a response. *)
Definition answers (r : result json) : Prop :=
  exists v, r = Ok v /\ isResponse v.

(** Services of which the embedding endpoint is down, all the others
    answering. *)
Definition embeddingDown : Services := {|
  JSON_parse := fun body => Ok body;
  openDocument := fun _ => Ok ("Title" : str, "Text of the document." : str);
  getEmbedding := fun _ => Throw "Error: Failed to generate embedding: Embedding API error (503): unavailable";
  queryPinecone := fun _ _ => Ok [];
  RULES_FOLDER_ID := None;
  scanRulesFolder := fun _ _ => Ok [];
  listRulesFolder := fun _ => Ok [];
  generateConversationalResponse := fun _ _ _ => Ok (VStr "Hello!");
  analyzeDocumentWithRules := fun _ _ _ _ => Ok (VStr "No issues found.")
|}.

(** *** A reference instance of the conversions

    Enough of [parseInt], [parseFloat] and of the conversion of strings to
    numbers to run the definitions on the decimal literals of a report:
    digits, with a fraction for the two that read one.  The statements
    below hold for every instance. *)

Definition digitValue (c : ascii) : option Z :=
  if between "0" "9" c then Some (Z.of_N (code c) - 48)%Z else None.

(** The digits at the front of [s]: their value, their number, and what
    follows them. *)
Fixpoint readDigits (s : str) (acc : Z) (n : nat) : Z * nat * str :=
  match s with
  | c :: s' =>
      match digitValue c with
      | Some d => readDigits s' (10 * acc + d)%Z (S n)
      | None => (acc, n, s)
      end
  | [] => (acc, n, [])
  end.

Definition decimalInt (s : str) : num :=
  let '(v, n, _) := readDigits s 0%Z 0 in
  if n =? 0 then NaN else Fin (inject_Z v).

Definition decimalFloat (s : str) : num :=
  let '(v, n, rest) := readDigits s 0%Z 0 in
  match rest with
  | "."%char :: fraction =>
      let '(f, m, _) := readDigits fraction 0%Z 0 in
      if n + m =? 0 then NaN
      else Fin (inject_Z v + inject_Z f / inject_Z (10 ^ Z.of_nat m))
  | _ => if n =? 0 then NaN else Fin (inject_Z v)
  end.

Definition decimalNumber (s : str) : num :=
  match s with
  | [] => Fin 0
  | _ => match readDigits s 0%Z 0 with
         | (v, _, []) => Fin (inject_Z v)
         | _ => NaN
         end
  end.

Definition decimal : Builtins := {|
  parseFloat := decimalFloat;
  parseInt := decimalInt;
  stringToNumber := decimalNumber
|}.

(** A property that holds a finite number, or is missing. *)
Definition numberOrMissing (r : row) (k : str) : Prop :=
  r !! k = None \/ exists q, r !! k = Some (number q).

(** The metrics [enrichMetrics] and [calculatePeriodChanges] read. *)
Definition metricNames : list str :=
  [ "sessions" : str; "newUsers" : str; "totalUsers" : str;
    "averageSessionDuration" : str; "userEngagementDuration" : str;
    "eventsPerSession" : str; "bounceRate" : str ].

(** A row whose metrics are finite numbers. *)
Definition metricRow (r : row) : Prop :=
  Forall (numberOrMissing r) metricNames.

(** A property that holds a whole number, or is missing. *)
Definition wholeOrMissing (r : row) (k : str) : Prop :=
  r !! k = None \/ exists z : Z, r !! k = Some (number (inject_Z z)).

(** A row as [parseGA4Response] builds them: the metrics are finite
    numbers and [sessions], which it reads with [parseInt], is whole. *)
Definition parsedRow (r : row) : Prop :=
  metricRow r /\ wholeOrMissing r "sessions".

(** The properties of a [changes] object, and those of them that compare
    one metric of the two rows. *)
Definition changeNames : list str :=
  [ "sessions" : str; "newUsers" : str; "totalUsers" : str;
    "averageSessionDuration" : str; "avgEngagementPerSession" : str;
    "eventsPerSession" : str; "bounceRate" : str ].

Definition directChanges : list str :=
  [ "sessions" : str; "newUsers" : str; "totalUsers" : str;
    "averageSessionDuration" : str; "eventsPerSession" : str;
    "bounceRate" : str ].

(** [p.sessionDefaultChannelGrouping === c.sessionDefaultChannelGrouping] *)
Definition sameChannel (p c : row) : Prop :=
  strictEq (p !! channelKey) (c !! channelKey) = true.

(** The row of the previous period that a row is compared with: the
    first one of the same channel, or the empty object when there is
    none. *)
Definition previousRowOf (previous : list row) (currentRow previousRow : row) : Prop :=
  (exists i, previous !! i = Some previousRow
             /\ sameChannel previousRow currentRow
             /\ forall j q, j < i -> previous !! j = Some q -> ~ sameChannel q currentRow)
  \/ (previousRow = ∅ /\ forall q, q ∈ previous -> ~ sameChannel q currentRow).

(** A number that is not NaN. *)
Definition isNumber (v : cell) : Prop :=
  exists n, v = Num n /\ n <> NaN.

(** The number a metric of a row stands for, 0 when it is missing. *)
Definition metric (r : row) (k : str) : Q :=
  match r !! k with
  | Some (Num (Fin q)) => q
  | _ => 0
  end.

Definition returningUsersKey : str := "returningUsers".
Definition avgEngagementKey : str := "avgEngagementPerSession".

(** The shape [parseGA4Response] expects of a response: a row that has
    values has one for each header. *)
Definition wellShaped (resp : response) : Prop :=
  forall r, r ∈ default [] (rows resp) ->
    (forall values headers,
       dimensionValues r = Some values -> dimensionHeaders resp = Some headers ->
       length headers <= length values)
    /\ (forall values headers,
          metricValues r = Some values -> metricHeaders resp = Some headers ->
          length headers <= length values).

(** A report of one row, whose last metric is not a number. *)
Definition sampleResponse : response := {|
  rows := Some [ {| dimensionValues := Some [ {| value := "Direct" |} ];
                    metricValues := Some [ {| value := "42" |};
                                           {| value := "0.25" |};
                                           {| value := "n/a" |} ] |} ];
  dimensionHeaders := Some [ {| name := "sessionDefaultChannelGrouping" |} ];
  metricHeaders := Some [ {| name := "sessions" |};
                          {| name := "bounceRate" |};
                          {| name := "newUsers" |} ]
|}.

(** ** More of the language: splitting and replacing with a pattern *)

Module Text.

(** [s.split(/\s+/)]: the pieces between the maximal runs of white
    space; a run at either end leaves an empty piece there.  [acc] holds
    the piece being read, last character first, and [inRun] tells that
    the last character read was white space. *)
Fixpoint splitSpaces_from (inRun : bool) (acc s : str) : list str :=
  match s with
  | [] => [rev acc]
  | c :: s' =>
      if isSpace c
      then (if inRun
            then splitSpaces_from true acc s'
            else rev acc :: splitSpaces_from true [] s')
      else splitSpaces_from false (c :: acc) s'
  end.

Definition splitSpaces (s : str) : list str := splitSpaces_from false [] s.

(** [s.replace(r, replacement)] for a pattern without the [g] flag and a
    replacement text without [$]: the leftmost match is replaced, and a
    string without a match is returned as it is. *)
Fixpoint replaceFrom (n : nat) (r : regex) (replacement s : str) : str :=
  match matchRe n r s [] (accept s) with
  | Some m => replacement ++ drop (length (matched m)) s
  | None =>
      match s with
      | [] => []
      | ch :: s' => ch :: replaceFrom n r replacement s'
      end
  end.

Definition replace (r : regex) (replacement s : str) : str :=
  replaceFrom (length s) r replacement s.

(** [`${n}`] for a natural number: its decimal digits. *)
Definition showNat (n : nat) : str :=
  list_ascii_of_string (NilEmpty.string_of_uint (Nat.to_uint n)).

Definition isDigit (c : ascii) : bool := between "0" "9" c.

End Text.

(** ** More of the chat assistant *)

Module Assistant.
Import Text.

(** *** isRelevantContent *)

(** [isRelevantContent(content, query)] on two strings *)
Definition isRelevantContent (content query : str) : bool :=
  let queryTerms := splitSpaces (toLowerCase query) in
  let contentLower := toLowerCase content in
  let matches := List.filter (fun term => includes term contentLower) queryTerms in
  2 `min` length queryTerms <=? length matches.

(** *** The address of the vector database *)

(** [/^https?:\/\//] *)
Definition protocolPattern : regex :=
  RSeq RBol (RSeq (RLit "http") (RSeq (ROpt (RLit "s")) (RLit "://"))).

(** The address [queryPinecone] and [upsertToPinecone] build from
    [CHAT_CONFIG.PINECONE_HOST]: [`https://${host}${path}`], where [host]
    went through [host.replace(/^https?:\/\//, '')], and [path] is
    [/query] or [/vectors/upsert]. *)
Definition pineconeUrl (host path : str) : str :=
  let host := replace protocolPattern "" host in
  "https://" ++ host ++ path.

(** *** processMessageWithComments *)

(** The review that writes comments into the document. *)
Class Highlighting := {
  reviewDocumentWithHighlighting : str -> json -> result json
}.

Section WithComments.
Context `{Services} `{Highlighting}.

(** The [try] block of [processMessageWithComments]. *)
Definition processMessageWithComments_body (userMessage conversationHistory : json)
    (addComments : bool) : result json :=
  isDocReview ← isDocumentReviewRequest userMessage;
  docId ← (if isDocReview : bool
           then extractDocumentId <$> asString userMessage "url" "match"
           else mret None);
  match docId with
  | Some (c :: id) =>
      if addComments
      then reviewDocumentWithHighlighting (c :: id) conversationHistory
      else reviewDocument (c :: id) conversationHistory
  | Some [] | None => handleConversationalQuery userMessage conversationHistory
  end.

(** [processMessageWithComments(userMessage, conversationHistory = [],
    addComments = false)]; [addComments] is the truth value of the
    argument. *)
Definition processMessageWithComments (userMessage conversationHistory : json)
    (addComments : bool) : result json :=
  let conversationHistory := orEmptyArray conversationHistory in
  tryCatch
    (processMessageWithComments_body userMessage conversationHistory addComments)
    (fun error =>
       mret (obj [ ("success" : str, VBool false);
                   ("message" : str, VStr ("Error: " ++ error)) ])).

End WithComments.

(** A review with comments that is out of order. *)
Definition noHighlighting : Highlighting := {|
  reviewDocumentWithHighlighting := fun _ _ => Throw "Error: Service unavailable"
|}.

(** *** The object in the answer of the language model *)

(** [/\{[\s\S]*\}/] *)
Definition jsonObjectPattern : regex :=
  RSeq (RLit "{") (RSeq (RStar true (fun _ => true)) (RLit "}")).

(** [clean.match(/\{[\s\S]*\}/)], and [match[0]] when there is a
    match: the text [analyzeForHighlighting] and [analyzeInChunks] hand
    to [JSON.parse]. *)
Definition jsonObjectIn (clean : str) : option str :=
  matched <$> match_ jsonObjectPattern clean.

End Assistant.

(** ** Uploading the rules to the vector database *)

Module Upload.
Import Text Assistant.

(** The [metadata] of a vector. *)
Record chunkMetadata := {
  text : str;
  source : str;
  documentId : str;
  chunkIndex : nat
}.

Record vector := { id : str; values : json; metadata : chunkMetadata }.

(** A call of [UrlFetchApp.fetch] by [upsertToPinecone]: the address,
    the [Api-Key] header and the payload. *)
Record upsertRequest := {
  url : str;
  apiKey : option str;
  vectors : list vector;
  namespace : str
}.

(** The vector database, behind [UrlFetchApp.fetch]; the script
    properties are [None] when unset. *)
Class Database := {
  PINECONE_HOST : option str;
  PINECONE_API_KEY : option str;
  (* the response code and the content text, or an exception *)
  fetch : upsertRequest -> result (nat * str)
}.

(** A computation that calls [fetch]: the calls made, in order, and the
    outcome. *)
Definition traced (A : Type) : Type := list upsertRequest * result A.

Definition traced_ret {A} (a : A) : traced A := ([], Ok a).

Definition traced_bind {A B} (m : traced A) (f : A -> traced B) : traced B :=
  match m with
  | (calls, Ok a) => let (calls', r) := f a in (calls ++ calls', r)
  | (calls, Throw e) => (calls, Throw e)
  end.

(** A computation that makes no call. *)
Definition quiet {A} (r : result A) : traced A := ([], r).

(** [l.forEach((x, index) => f(x, index))], from [index] on: an
    exception ends the loop. *)
Fixpoint forEachFrom {A} (f : A -> nat -> traced unit) (index : nat) (l : list A)
    : traced unit :=
  match l with
  | [] => traced_ret tt
  | x :: l' => traced_bind (f x index) (fun _ => forEachFrom f (S index) l')
  end.

(** [`${docId}_chunk_${index}`] *)
Definition vectorId (docId : str) (index : nat) : str :=
  docId ++ "_chunk_" ++ showNat index.

Section Upload.
Context `{Services} `{Database}.

(** [upsertToPinecone(id, vector, metadata, namespace)]: the [catch]
    block throws the error again. *)
Definition upsertToPinecone (id : str) (vector : json) (metadata : chunkMetadata)
    (namespace : str) : traced json :=
  match PINECONE_HOST with
  | None => quiet (Throw (typeError "Cannot read properties of null (reading 'replace')"))
  | Some host =>
      let request :=
        {| url := pineconeUrl host "/vectors/upsert";
           apiKey := PINECONE_API_KEY;
           vectors := [ {| id := id; values := vector; metadata := metadata |} ];
           namespace := namespace |} in
      ([request],
       match fetch request with
       | Ok (responseCode, contentText) =>
           if responseCode =? 200
           then JSON_parse (VStr contentText)
           else Throw ("Error: Pinecone upsert failed with code " ++ showNat responseCode)
       | Throw error => Throw error
       end)
  end.

(** The callback of [chunks.forEach] in [uploadDocumentToPinecone]. *)
Definition uploadChunk (docId title namespace : str) (chunk : str) (index : nat)
    : traced unit :=
  traced_bind (quiet (getEmbedding chunk)) (fun embedding =>
  traced_bind
    (upsertToPinecone (vectorId docId index) embedding
       {| text := chunk; source := title; documentId := docId; chunkIndex := index |}
       namespace)
    (fun _ => traced_ret tt)).

(** [uploadDocumentToPinecone(docId, namespace)] *)
Definition uploadDocumentToPinecone (docId namespace : str) : traced unit :=
  match readGoogleDoc docId with
  | DocFailed error => quiet (Throw ("Error: Failed to read document: " ++ error))
  | DocRead title text _ =>
      let chunks := chunkText text 500 in
      forEachFrom (uploadChunk docId title namespace) 0 chunks
  end.

End Upload.

(** Services that all answer, and a database that takes what it is
    sent. *)
Definition allUp : Services := {|
  JSON_parse := fun v => Ok (obj [ ("upsertedCount" : str, VNum (Fin 1)) ]);
  openDocument := fun _ =>
    Ok ("Style" : str, "Use the Oxford comma." ++ paragraphSep ++ "Avoid jargon." : str);
  getEmbedding := fun _ => Ok (VArr [VNum (Fin 0)]);
  queryPinecone := fun _ _ => Ok [];
  RULES_FOLDER_ID := None;
  scanRulesFolder := fun _ _ => Ok [];
  listRulesFolder := fun _ => Ok [];
  generateConversationalResponse := fun _ _ _ => Ok (VStr "Hello!");
  analyzeDocumentWithRules := fun _ _ _ _ => Ok (VStr "No issue.")
|}.

Definition accepting : Database := {|
  PINECONE_HOST := Some ("rules-1a2b.svc.pinecone.io" : str);
  PINECONE_API_KEY := Some ("key" : str);
  fetch := fun _ => Ok (200, "{}" : str)
|}.

(** A document of two paragraphs of 300 characters, which make two
    chunks, and a database that refuses the second chunk of a
    document. *)
Definition twoChunks : Services := {|
  JSON_parse := fun v => Ok (obj [ ("upsertedCount" : str, VNum (Fin 1)) ]);
  openDocument := fun _ =>
    Ok ("Style" : str,
        replicate 300 "a"%char ++ paragraphSep ++ replicate 300 "b"%char);
  getEmbedding := fun _ => Ok (VArr [VNum (Fin 0)]);
  queryPinecone := fun _ _ => Ok [];
  RULES_FOLDER_ID := None;
  scanRulesFolder := fun _ _ => Ok [];
  listRulesFolder := fun _ => Ok [];
  generateConversationalResponse := fun _ _ _ => Ok (VStr "Hello!");
  analyzeDocumentWithRules := fun _ _ _ _ => Ok (VStr "No issue.")
|}.

Definition refusingSecond : Database := {|
  PINECONE_HOST := Some ("rules-1a2b.svc.pinecone.io" : str);
  PINECONE_API_KEY := Some ("key" : str);
  fetch := fun request =>
    if bool_decide (chunkIndex ∘ metadata <$> vectors request = [1])
    then Ok (503, "unavailable" : str)
    else Ok (200, "{}" : str)
|}.

End Upload.

(** ** Calling the language model *)

Module Gemini.
Import Text.

(** An exception: [error.toString()] is made of the name and the
    message of the error, [error.message] is the message alone. *)
Record exn := { errorName : str; errorMessage : str }.

Definition toString (e : exn) : str :=
  match errorName e, errorMessage e with
  | name, [] => name
  | [], message => message
  | name, message => name ++ ": " ++ message
  end.

(** [new Error(message)] *)
Definition Error (message : str) : exn :=
  {| errorName := "Error"; errorMessage := message |}.

Definition TypeError (message : str) : exn :=
  {| errorName := "TypeError"; errorMessage := message |}.

Inductive outcome (A : Type) : Type :=
| Returned (a : A)
| Thrown (e : exn).
Arguments Returned {A} a.
Arguments Thrown {A} e.

#[global] Instance outcome_ret : MRet outcome := fun A a => Returned a.
#[global] Instance outcome_bind : MBind outcome := fun A B f m =>
  match m with
  | Returned a => f a
  | Thrown e => Thrown e
  end.

(** Truthiness of a value. *)
Definition jsTruthy (v : json) : bool :=
  match v with
  | VUndef | VNull => false
  | VBool b => b
  | VNum n => num_truthy n
  | VStr s => nonEmpty s
  | VArr _ | VObj _ => true
  end.

(** [v.k] for a property name [k] that no primitive and no array has:
    reading a property of [undefined] or [null] throws. *)
Definition prop (v : json) (k : str) : outcome json :=
  match v with
  | VUndef =>
      Thrown (TypeError ("Cannot read properties of undefined (reading '" ++ k ++ "')"))
  | VNull =>
      Thrown (TypeError ("Cannot read properties of null (reading '" ++ k ++ "')"))
  | VObj o => Returned (default VUndef (o !! k))
  | _ => Returned VUndef
  end.

(** [v[0]] on a value that is neither [undefined] nor [null]: the first
    element of an array, the first character of a string, the property
    [0] of an object. *)
Definition first (v : json) : json :=
  match v with
  | VArr l => default VUndef (l !! 0)
  | VStr (c :: _) => VStr [c]
  | VObj o => default VUndef (o !! ("0" : str))
  | _ => VUndef
  end.

(** [a && b], where [b] is evaluated only when [a] is truthy. *)
Definition andThen (a : json) (b : json -> outcome json) : outcome json :=
  if jsTruthy a then b a else Returned a.

(** The endpoint of the model, behind [UrlFetchApp.fetch], and the
    conversions of the language the function relies on. *)
Class Api := {
  (* the response code and the content text for a list of messages *)
  generateContent : json -> outcome (nat * str);
  JSON_parse : str -> outcome json;
  (* a value in a template literal, or added to a string *)
  valueToString : json -> str;
  (* a value compared with a number *)
  valueToNumber : json -> num
}.

Section CallGemini.
Context `{Api}.

(** [result.candidates && result.candidates[0] && ... &&
    result.candidates[0].content.parts[0].text] *)
Definition candidateText (result : json) : outcome json :=
  candidates ← prop result "candidates";
  andThen candidates (fun candidates =>
  andThen (first candidates) (fun candidate =>
  content ← prop candidate "content";
  andThen content (fun content =>
  parts ← prop content "parts";
  andThen parts (fun parts =>
  andThen (first parts) (fun part =>
  prop part "text"))))).

(** The [try] block of [callGemini]. *)
Definition callGemini_body (messages : json) : outcome json :=
  response ← generateContent messages;
  let '(responseCode, responseText) := response in
  if negb (responseCode =? 200)
  then Thrown (Error ("Gemini API error (" ++ showNat responseCode ++ "): " ++ responseText))
  else
    result ← JSON_parse responseText;
    promptFeedback ← prop result "promptFeedback";
    blocked ← andThen promptFeedback (fun promptFeedback =>
                prop promptFeedback "blockReason");
    if jsTruthy blocked
    then Thrown (Error ("Content blocked: " ++ valueToString blocked))
    else
      text ← candidateText result;
      if jsTruthy text
      then Returned text
      else Thrown (Error "Unexpected response structure from Gemini").

(** [callGemini(messages)] *)
Definition callGemini (messages : json) : outcome json :=
  match callGemini_body messages with
  | Returned text => Returned text
  | Thrown error =>
      Thrown (Error ("Failed to get response from Gemini: " ++ errorMessage error))
  end.

(** *** generateConversationalResponse *)

Definition systemPrompt : str :=
  "You are an AI writing assistant with expertise in content guidelines, style rules, and best practices." ++
  [nl] ++ [nl] ++ "You have access to:" ++ [nl] ++
  "1. Writing rules stored in Pinecone vector database" ++ [nl] ++
  "2. Writing rule documents from Google Drive folder" ++ [nl] ++
  "3. Conversation history for context" ++ [nl] ++ [nl] ++ "Your capabilities:" ++
  [nl] ++ "- Answer questions about writing guidelines and style rules" ++ [nl] ++
  "- Provide examples and explanations from the rule documents" ++ [nl] ++
  "- Review and analyze Google Docs when requested" ++ [nl] ++
  "- Have natural conversations about writing best practices" ++ [nl] ++
  "- Reference specific rules and cite sources" ++ [nl] ++ [nl] ++ "When answering:" ++
  [nl] ++ "- Be conversational, helpful, and detailed" ++ [nl] ++
  "- Cite specific rules when relevant" ++ [nl] ++ "- Provide examples when helpful" ++
  [nl] ++ "- If you don't have information, say so honestly" ++ [nl] ++
  "- Offer to review documents if the user shares a link".

(** [v.length > 0] on a truthy value. *)
Definition lengthPositive (v : json) : bool :=
  match v with
  | VArr l => match l with [] => false | _ :: _ => true end
  | VStr s => nonEmpty s
  | VObj o => num_gt (valueToNumber (default VUndef (o !! ("length" : str)))) (Fin 0)
  | _ => false
  end.

(** The elements a loop [if (v && v.length > 0) { v.forEach(...) }]
    goes through; [callee] is the method that a value other than an array
    lacks. *)
Definition elements (v : json) (callee : str) : outcome (list json) :=
  if jsTruthy v && lengthPositive v
  then match v with
       | VArr l => Returned l
       | _ => Thrown (TypeError (callee ++ " is not a function"))
       end
  else Returned [].

(** The text a loop adds to [contextText]: what [f] gives for each
    element and its index, in order. *)
Fixpoint forEachText (f : json -> nat -> outcome str) (index : nat) (l : list json)
    : outcome str :=
  match l with
  | [] => Returned []
  | x :: l' =>
      here ← f x index;
      later ← forEachText f (S index) l';
      Returned (here ++ later)
  end.

(** [content.substring(0, 500)] *)
Definition excerpt (content : json) : outcome str :=
  match content with
  | VStr s => Returned (substring 0 500 s)
  | VUndef =>
      Thrown (TypeError "Cannot read properties of undefined (reading 'substring')")
  | VNull => Thrown (TypeError "Cannot read properties of null (reading 'substring')")
  | _ => Thrown (TypeError "doc.content.substring is not a function")
  end.

(** One of the three sections of [contextText]: nothing for a list
    that is missing or empty. *)
Definition section_ (v : json) (callee heading : str)
    (f : json -> nat -> outcome str) : outcome str :=
  l ← elements v callee;
  match l with
  | [] => Returned []
  | _ :: _ => body ← forEachText f 0 l; Returned (heading ++ body)
  end.

(** [contextText], as [generateConversationalResponse] builds it. *)
Definition contextTextOf (context : json) : outcome str :=
  pineconeRules ← prop context "pineconeRules";
  fromPinecone ←
    section_ pineconeRules "context.pineconeRules.forEach"
      ([nl] ++ "**From Knowledge Base (Pinecone):**" ++ [nl])
      (fun rule i =>
         content ← prop rule "content";
         Returned (showNat (i + 1) ++ ". " ++ valueToString content ++ [nl]));
  driveRules ← prop context "driveRules";
  fromDrive ←
    section_ driveRules "context.driveRules.forEach"
      ([nl] ++ "**From Writing Rules Documents:**" ++ [nl])
      (fun doc _ =>
         title ← prop doc "title";
         content ← prop doc "content";
         text ← excerpt content;
         Returned ([nl] ++ "Document: " ++ ["034"%char] ++ valueToString title
                   ++ ["034"%char] ++ [nl]
                   ++ "Content excerpt: " ++ text ++ "..." ++ [nl]));
  relevantDocs ← prop context "relevantDocs";
  available ←
    section_ relevantDocs "context.relevantDocs.forEach"
      ([nl] ++ "**Available Rule Documents:**" ++ [nl])
      (fun doc _ =>
         name ← prop doc "name";
         Returned ("- " ++ valueToString name ++ [nl]));
  Returned ([nl] ++ [nl] ++ "**AVAILABLE CONTEXT:**" ++ [nl]
            ++ fromPinecone ++ fromDrive ++ available).

(** [{ role: role, parts: [{ text: text }] }] *)
Definition message (role : str) (text : json) : json :=
  obj [ ("role" : str, VStr role);
        ("parts" : str, VArr [ obj [ ("text" : str, text) ] ]) ].

(** The message sent for an entry of the history. *)
Definition historyMessage (msg : json) : outcome json :=
  role ← prop msg "role";
  content ← prop msg "content";
  Returned (message (match role with
                     | VStr r => if bool_decide (r = ("user" : str)) then "user" else "model"
                     | _ => "model"
                     end)
                    content).

(** [conversationHistory.slice(-10)] on an array *)
Definition lastTen (l : list json) : list json := drop (length l - 10) l.

(** The entries of the history that are sent. *)
Definition historyOf (conversationHistory : json) : outcome (list json) :=
  if jsTruthy conversationHistory && lengthPositive conversationHistory
  then match conversationHistory with
       | VArr l => mapM historyMessage (lastTen l)
       | VStr _ =>
           Thrown (TypeError "conversationHistory.slice(...).forEach is not a function")
       | _ => Thrown (TypeError "conversationHistory.slice is not a function")
       end
  else Returned [].

(** The [messages] of [generateConversationalResponse]. *)
Definition conversationMessages (userMessage context conversationHistory : json)
    : outcome (list json) :=
  contextText ← contextTextOf context;
  let userPrompt := valueToString userMessage ++ contextText in
  history ← historyOf conversationHistory;
  Returned ([message "user" (VStr systemPrompt)] ++ history
            ++ [message "user" (VStr userPrompt)]).

(** [generateConversationalResponse(userMessage, context,
    conversationHistory)] *)
Definition generateConversationalResponse (userMessage context conversationHistory : json)
    : outcome json :=
  messages ← conversationMessages userMessage context conversationHistory;
  callGemini (VArr messages).

End CallGemini.

(** An endpoint that answers with an empty list of candidates. *)
Definition noCandidate : Api := {|
  generateContent := fun _ => Returned (200, "{}" : str);
  JSON_parse := fun _ => Returned (obj [ ("candidates" : str, VArr []) ]);
  valueToString := fun _ => [];
  valueToNumber := fun _ => NaN
|}.

(** An endpoint that answers. *)
Definition answering : Api := {|
  generateContent := fun _ => Returned (200, "{}" : str);
  JSON_parse := fun _ =>
    Returned
      (obj [ ("candidates" : str,
              VArr [ obj [ ("content" : str,
                           obj [ ("parts" : str,
                                  VArr [ obj [ ("text" : str, VStr "Hello!") ] ]) ]) ] ]) ]);
  valueToString := fun v => match v with VStr s => s | _ => [] end;
  valueToNumber := fun _ => NaN
|}.

(** An endpoint whose answer bears a block reason, beside a candidate. *)
Definition blocking : Api := {|
  generateContent := fun _ => Returned (200, "{}" : str);
  JSON_parse := fun _ =>
    Returned
      (obj [ ("promptFeedback" : str, obj [ ("blockReason" : str, VStr "SAFETY") ]);
             ("candidates" : str,
              VArr [ obj [ ("content" : str,
                           obj [ ("parts" : str,
                                  VArr [ obj [ ("text" : str, VStr "Hello!") ] ]) ]) ] ]) ]);
  valueToString := fun v => match v with VStr s => s | _ => [] end;
  valueToNumber := fun _ => NaN
|}.

End Gemini.

(** ** More of the GA4 report script *)

Module Report.
Import Text.

(** *** Scheduling *)

(** When a trigger fires: every so many days at an hour, as the
    triggers of [setupAutomation] do, or in some other way. *)
Inductive schedule : Type :=
| EveryDays (days atHour : nat)
| OtherSchedule (description : str).

Record trigger := { handlerFunction : str; when : schedule }.

(** What [setupAutomation] reads and writes of the project: its
    triggers, and the script properties. *)
Record project := {
  projectTriggers : list trigger;
  scriptProperties : gmap str str
}.

Definition scheduledHandler : str := "runScheduledFocusedReport".

(** [CONFIG.REPORT_DAYS] *)
Definition REPORT_DAYS : nat := 30.

(** [setupAutomation(frequencyDays = 7, reportDays = CONFIG.REPORT_DAYS)]
    on natural numbers; [None] is an argument left out.  The triggers of
    the scheduled handler are deleted, a new one is created, and the two
    properties are set; the calls of the platform are taken to succeed. *)
Definition setupAutomation (frequencyDays reportDays : option nat) (p : project)
    : project :=
  let frequencyDays := default 7 frequencyDays in
  let reportDays := default REPORT_DAYS reportDays in
  let kept :=
    List.filter
      (fun t => negb (bool_decide (handlerFunction t = scheduledHandler)))
      (projectTriggers p) in
  {| projectTriggers :=
       kept ++ [ {| handlerFunction := scheduledHandler;
                    when := EveryDays frequencyDays 9 |} ];
     scriptProperties :=
       <[ ("SCHEDULED_FREQUENCY" : str) := showNat frequencyDays ]>
         (<[ ("SCHEDULED_REPORT_DAYS" : str) := showNat reportDays ]>
            (scriptProperties p)) |}.

(** The argument of [parseInt] in [runScheduledFocusedReport]:
    [getProperty('SCHEDULED_REPORT_DAYS') || CONFIG.REPORT_DAYS], as the
    text [parseInt] reads. *)
Definition storedReportDays (p : project) : str :=
  match scriptProperties p !! ("SCHEDULED_REPORT_DAYS" : str) with
  | Some (c :: s) => c :: s
  | _ => showNat REPORT_DAYS
  end.

(** The number of days [runScheduledFocusedReport] hands to
    [runFocusedReport]. *)
Definition scheduledReportDays `{Builtins} (p : project) : num :=
  parseInt (storedReportDays p).

(** *** Durations *)

(** [Math.floor(a)] *)
Definition num_floor (a : num) : num :=
  match a with
  | Fin q => Fin (inject_Z (Qfloor q))
  | _ => a
  end.

(** The integer part of a quotient: it is rounded towards zero. *)
Definition Qtruncate (q : Q) : Z :=
  if isNegative q then Qceiling q else Qfloor q.

(** [a % b]: the remainder has the sign of [a]. *)
Definition num_rem (a b : num) : num :=
  match a, b with
  | NaN, _ | _, NaN => NaN
  | Inf _, _ => NaN
  | Fin x, Inf _ => Fin x
  | Fin x, Fin y =>
      if isZero y then NaN
      else Fin (x - y * inject_Z (Qtruncate (x / y)))
  end.

(** The conversion of a number to a string, in template literals. *)
Class Formatting := { numberToString : num -> str }.

Section Durations.
Context `{Builtins} `{Formatting}.

Definition floor (a : cell) : num := num_floor (toNumber (Some a)).

Definition rem (a b : jsval) : cell := Num (num_rem (toNumber a) (toNumber b)).

(** [formatDuration(seconds)], a function local to
    [sendFocusedEmailReport] *)
Definition formatDuration (seconds : jsval) : str :=
  let minutes := floor (div seconds (Some (number 60))) in
  let remainingSeconds := floor (rem seconds (Some (number 60))) in
  numberToString minutes ++ "m " ++ numberToString remainingSeconds ++ "s".

End Durations.

(** *** Charts *)

(** [a + b] on numbers *)
Definition num_add (a b : num) : num :=
  match a, b with
  | NaN, _ | _, NaN => NaN
  | Fin x, Fin y => Fin (x + y)
  | Fin _, Inf s | Inf s, Fin _ => Inf s
  | Inf s, Inf t => if Bool.eqb s t then Inf s else NaN
  end.

(** [Math.max(a, b)] *)
Definition num_max (a b : num) : num :=
  match a, b with
  | NaN, _ | _, NaN => NaN
  | Fin x, Fin y => if Qle_bool x y then Fin y else Fin x
  | Inf false, _ | _, Inf false => Inf false
  | Inf true, c | c, Inf true => c
  end.

(** What the charts need of the language and are not defined here:
    the first of [Object.keys(item)], [n.toFixed(1)], and the
    trigonometry. *)
Class Drawing := {
  firstKey : row -> option str;
  toFixed1 : num -> str;
  cos : num -> num;
  sin : num -> num;
  PI : num
}.

Definition quote : str := ["034"%char].

Record segment := {
  path : str;
  color : str;
  label : jsval;
  value : jsval;
  percent : str
}.

Section Charts.
Context `{Builtins} `{Formatting} `{Drawing}.

(** A value in a template literal. *)
Definition toText (v : jsval) : str :=
  match v with
  | None => "undefined"
  | Some (Str s) => s
  | Some (Num n) => numberToString n
  end.

(** [a + b]: a concatenation when an operand is a string. *)
Definition add (a b : jsval) : cell :=
  match a, b with
  | Some (Str _), _ | _, Some (Str _) => Str (toText a ++ toText b)
  | _, _ => Num (num_add (toNumber a) (toNumber b))
  end.

(** The message both charts give for no data. *)
Definition noData (title : str) : str :=
  "<div style=" ++ quote ++ "text-align: center; padding: 40px; color: #666;" ++
  quote ++ ">No " ++ title ++ " data available</div>".

(** [item[Object.keys(item)[0]] || 'Unknown'] *)
Definition labelOf (item : row) : jsval :=
  orDefault (item !! default ("undefined" : str) (firstKey item)) (Str "Unknown").

(** **** generatePieChart *)

Definition colors : list str :=
  [ "#1a73e8" : str; "#34a853" : str; "#fbbc05" : str; "#ea4335" : str;
    "#9aa0a6" : str ].

(** [totalSessions || data.reduce((sum, item) => sum + item.sessions, 0)] *)
Definition total (data : list row) (totalSessions : jsval) : jsval :=
  if truthy totalSessions then totalSessions
  else Some (fold_left (fun sum item => add (Some sum) (item !! ("sessions" : str)))
                       data (number 0)).

(** [(item.sessions / total) * 100] *)
Definition percentOf (total : jsval) (item : row) : num :=
  num_mul (num_div (toNumber (item !! ("sessions" : str))) (toNumber total)) (Fin 100).

(** [percent > 50 ? 1 : 0] *)
Definition largeArcFlag (percent : num) : num :=
  if num_gt percent (Fin 50) then Fin 1 else Fin 0.

(** [50 + 40 * Math.cos((angle - 90) * Math.PI / 180)], and the same
    with [Math.sin]. *)
Definition corner (angle : num) : num * num :=
  let turn := num_div (num_mul (num_sub angle (Fin 90)) PI) (Fin 180) in
  (num_add (Fin 50) (num_mul (Fin 40) (cos turn)),
   num_add (Fin 50) (num_mul (Fin 40) (sin turn))).

(** The callback of [data.map] that builds the segments, with the
    variable [cumulativePercent] it updates. *)
Definition segmentOf (total : jsval) (cumulativePercent : num) (index : nat) (item : row)
    : segment * num :=
  let percent := percentOf total item in
  let startAngle := num_mul cumulativePercent (Fin (36 # 10)) in
  let cumulativePercent := num_add cumulativePercent percent in
  let endAngle := num_mul cumulativePercent (Fin (36 # 10)) in
  let '(x1, y1) := corner startAngle in
  let '(x2, y2) := corner endAngle in
  let pathData :=
    "M 50 50" ++ " " ++
    ("L " ++ numberToString x1 ++ " " ++ numberToString y1) ++ " " ++
    ("A 40 40 0 " ++ numberToString (largeArcFlag percent) ++ " 1 " ++
       numberToString x2 ++ " " ++ numberToString y2) ++ " " ++
    "Z" in
  ({| path := pathData;
      color := default [] (colors !! (index mod length colors));
      label := labelOf item;
      value := item !! ("sessions" : str);
      percent := toFixed1 percent |},
   cumulativePercent).

Fixpoint segmentsFrom (total : jsval) (cumulativePercent : num) (index : nat)
    (data : list row) : list segment :=
  match data with
  | [] => []
  | item :: data' =>
      let '(segment, cumulativePercent) := segmentOf total cumulativePercent index item in
      segment :: segmentsFrom total cumulativePercent (S index) data'
  end.

Definition svgSegment (segment : segment) : str :=
  "<path d=" ++ quote ++ path segment ++ quote ++ " fill=" ++ quote ++
  color segment ++ quote ++ " stroke=" ++ quote ++ "white" ++ quote ++
  " stroke-width=" ++ quote ++ "1" ++ quote ++ "/>".

Definition legendEntry (segment : segment) : str :=
  "<div style=" ++ quote ++ "display: flex; align-items: center; margin: 5px 0;" ++
  quote ++ ">" ++ [nl] ++ "      <div style=" ++ quote ++
  "width: 12px; height: 12px; background: " ++ color segment ++
  "; margin-right: 8px; border-radius: 2px;" ++ quote ++ "></div>" ++ [nl] ++
  "      <span style=" ++ quote ++ "font-size: 12px;" ++ quote ++ ">" ++
  toText (label segment) ++ ": " ++ toText (value segment) ++ " (" ++
  percent segment ++ "%)</span>" ++ [nl] ++ "    </div>".

(** [generatePieChart(data, title, totalSessions = null)]; [None]
    stands for [null] and [undefined]. *)
Definition generatePieChart (data : option (list row)) (title : str)
    (totalSessions : jsval) : str :=
  match data with
  | None | Some [] => noData title
  | Some data =>
      let total := total data totalSessions in
      let segments := segmentsFrom total (Fin 0) 0 data in
      let svgSegments := concat (svgSegment <$> segments) in
      let legend := concat (legendEntry <$> segments) in
      [nl] ++ "    <div style=" ++ quote ++
      "display: flex; align-items: center; justify-content: center; gap: 30px;" ++
      quote ++ ">" ++ [nl] ++ "      <svg width=" ++ quote ++ "120" ++ quote ++
      " height=" ++ quote ++ "120" ++ quote ++ " viewBox=" ++ quote ++ "0 0 100 100" ++
      quote ++ ">" ++ [nl] ++ "        " ++ svgSegments ++ [nl] ++ "      </svg>" ++
      [nl] ++ "      <div style=" ++ quote ++ "font-size: 14px;" ++ quote ++ ">" ++
      [nl] ++ "        " ++ legend ++ [nl] ++ "      </div>" ++ [nl] ++ "    </div>" ++
      [nl] ++ "  "
  end.

(** **** generateBarChart *)

(** [Math.max(...data.map(item => item.sessions))] *)
Definition maxValue (data : list row) : num :=
  foldr num_max (Inf true) ((fun item => toNumber (item !! ("sessions" : str))) <$> data).

(** [(item.sessions / maxValue) * 100] *)
Definition percentage (maxValue : num) (item : row) : num :=
  num_mul (num_div (toNumber (item !! ("sessions" : str))) maxValue) (Fin 100).

(** The callback of [data.map] that builds the bars. *)
Definition bar (maxValue : num) (item : row) : str :=
  let percentage := percentage maxValue item in
  let label := labelOf item in
  [nl] ++ "      <div style=" ++ quote ++
  "display: flex; align-items: center; margin-bottom: 10px;" ++ quote ++ ">" ++
  [nl] ++ "        <div style=" ++ quote ++
  "width: 80px; font-size: 12px; text-align: right; padding-right: 10px;" ++ quote ++
  ">" ++ toText label ++ ":</div>" ++ [nl] ++ "        <div style=" ++ quote ++
  "flex: 1; background: #f0f0f0; height: 24px; border-radius: 4px; position: relative;" ++
  quote ++ ">" ++ [nl] ++ "          <div style=" ++ quote ++
  "background: #1a73e8; height: 100%; width: " ++ numberToString percentage ++
  "%; border-radius: 4px; display: flex; align-items: center; justify-content: flex-end; padding-right: 5px;" ++
  quote ++ ">" ++ [nl] ++ "            <span style=" ++ quote ++
  "color: white; font-size: 11px; font-weight: bold;" ++ quote ++ ">" ++
  toText (item !! ("sessions" : str)) ++ "</span>" ++ [nl] ++ "          </div>" ++
  [nl] ++ "        </div>" ++ [nl] ++ "      </div>" ++ [nl] ++ "    ".

(** [generateBarChart(data, title)] *)
Definition generateBarChart (data : option (list row)) (title : str) : str :=
  match data with
  | None | Some [] => noData title
  | Some data =>
      let maxValue := maxValue data in
      let bars := concat (bar maxValue <$> data) in
      "<div style=" ++ quote ++ "max-width: 400px;" ++ quote ++ ">" ++ bars ++ "</div>"
  end.

End Charts.

(** The conversion for whole numbers of moderate size, which are
    written with their decimal digits. *)
Definition wholeNumbers : Formatting := {|
  numberToString := fun n =>
    match n with
    | Fin q => (if isNegative q then "-" else "") ++ showNat (Z.to_nat (Z.abs (Qfloor q)))
    | Inf false => "Infinity"
    | Inf true => "-Infinity"
    | NaN => "NaN"
    end
|}.

End Report.

(** ** More vocabulary *)

Import Text Assistant.

(** The names a row gets from a list of headers: none when the row or
    the response lacks the list. *)
Definition namesOf (values : option (list dataValue)) (headers : option (list header))
    : gset str :=
  match values, headers with
  | Some _, Some headers => list_to_set (name <$> headers)
  | _, _ => ∅
  end.

(** The sum of a list of rationals. *)
Definition Qsum (l : list Q) : Q := foldr Qplus 0%Q l.

(** A share above one half. *)
Definition isLarge (p : Q) : bool := num_gt (Fin p) (Fin 50).

(** Rows whose sessions are the numbers [qs], none of them negative. *)
Definition sessionsOf (data : list row) (qs : list Q) : Prop :=
  Forall2 (fun (item : row) q =>
             item !! ("sessions" : str) = Some (number q) /\ (0 <= q)%Q)
          data qs.

(** The error of reading [value] of a missing element of the values of a
    row. *)
Definition noValue : str :=
  typeError "Cannot read properties of undefined (reading 'value')".

(** ** The definitions at work *)

Example toLowerCase_run : toLowerCase "Check THIS Doc" = ("check this doc" : str).
Proof. reflexivity. Qed.

Example trim_run : trim ("  two words " ++ [nl]) = ("two words" : str).
Proof. reflexivity. Qed.

Example splitParagraphs_run :
  splitParagraphs ("a" ++ [nl; nl; nl] ++ "b" ++ [nl; nl])
  = ["a" : str; [nl] ++ "b"; [] ].
Proof. reflexivity. Qed.

Example match_backtracks :
  match_ docNamePattern "the doc 'tone' says"
  = Some {| matched := "doc 'tone'"; groups := [(1, "tone" : str)] |}.
Proof. reflexivity. Qed.

Example match_lazy :
  match_ docNamePattern "about  style guide   document please"
  = Some {| matched := "about  style guide   document"; groups := [(2, "style guide" : str)] |}.
Proof. reflexivity. Qed.

Example extractDocumentId_url :
  extractDocumentId "https://docs.google.com/document/d/1Ab-c_9/edit" = Some ("1Ab-c_9" : str).
Proof. reflexivity. Qed.

Example extractDocumentId_bare : extractDocumentId "1Ab-c_9" = Some ("1Ab-c_9" : str).
Proof. reflexivity. Qed.

Example extractDocumentId_null : extractDocumentId "not an id" = None.
Proof. reflexivity. Qed.

Example detectUserIntent_comments :
  detectUserIntent "Please add comments to https://docs.google.com/document/d/abc-1/edit"
  = analyze_with_comments "abc-1".
Proof. vm_compute. reflexivity. Qed.

Example detectUserIntent_comments_prompt :
  detectUserIntent "please add comments" = analyze_with_comments_prompt.
Proof. vm_compute. reflexivity. Qed.

Example detectUserIntent_review :
  detectUserIntent "Can you REVIEW https://docs.google.com/document/d/XYZ_9"
  = review_document "XYZ_9".
Proof. vm_compute. reflexivity. Qed.

Example detectUserIntent_review_without_link :
  detectUserIntent "review" = general_chat.
Proof. vm_compute. reflexivity. Qed.

Example detectUserIntent_doc_name :
  detectUserIntent "what does the doc 'Tone' say" = query_specific_doc (Some ("tone" : str)).
Proof. vm_compute. reflexivity. Qed.

Example detectUserIntent_chat : detectUserIntent "hello there" = general_chat.
Proof. vm_compute. reflexivity. Qed.

Example chunkText_run :
  chunkText (" a" ++ [nl; nl; nl; nl] ++ "b ") 1 = ["a" : str; "b" : str].
Proof. vm_compute. reflexivity. Qed.

Example enrichMetrics_run :
  (fun r : row => (r !! ("totalUsers" : str), r !! ("returningUsers" : str),
                   r !! ("avgEngagementPerSession" : str)))
    <$> @enrichMetrics decimal
          [ {[ ("sessions" : str) := number 4; ("totalUsers" : str) := number 10;
               ("newUsers" : str) := number 3;
               ("userEngagementDuration" : str) := number 6 ]};
            {[ ("totalUsers" : str) := number 2 ]} ]
  = [ (Some (number 10), Some (number (10 - 3)), Some (number (6 / 4)));
      (Some (number 2), Some (number (2 - 0)), Some (number 0)) ].
Proof. vm_compute. reflexivity. Qed.

Example calculatePeriodChanges_run :
  let current : row := {[ channelKey := Str "Direct"; ("sessions" : str) := number 30 ]} in
  let previous : row := {[ channelKey := Str "Direct"; ("sessions" : str) := number 20 ]} in
  (fun out => changes out !! ("sessions" : str))
    <$> @calculatePeriodChanges decimal [current] [ ∅; previous ]
  = [ Some (number ((30 - 20) / 20 * 100)) ].
Proof. vm_compute. reflexivity. Qed.

(** ** Facts about the matcher *)

Section RegexFacts.
Context {A : Type}.
Implicit Types (k : str -> captures -> option A) (s p : str).

Lemma startsWith_app p s : startsWith p (p ++ s) = true.
Proof.
  induction p as [|a p IH]; simpl; [done|].
  rewrite Ascii.eqb_refl. exact IH.
Qed.

Lemma startsWith_inv p s : startsWith p s = true -> s = p ++ drop (length p) s.
Proof.
  revert s. induction p as [|a p IH]; intros [|b s]; simpl; try done.
  intros [Hab Hp]%andb_prop. apply Ascii.eqb_eq in Hab as ->.
  f_equal. by apply IH.
Qed.

Lemma matchStar_greedy_run f run rest c k :
  Forall (fun ch => f ch = true) run ->
  match rest with [] => True | ch :: _ => f ch = false end ->
  is_Some (k rest c) ->
  matchStar true f (run ++ rest) c k = k rest c.
Proof.
  intros Hrun Hrest [x Hx]. induction Hrun as [|ch run Hch _ IH]; simpl.
  - destruct rest as [|ch rest]; simpl; [done|]. by rewrite Hrest.
  - rewrite Hch, IH, Hx. done.
Qed.

Lemma matchStar_greedy_all f s c k :
  Forall (fun ch => f ch = true) s ->
  is_Some (k [] c) ->
  matchStar true f s c k = k [] c.
Proof.
  intros Hs Hk. rewrite <- (app_nil_r s) at 1.
  by apply matchStar_greedy_run.
Qed.

Lemma matchStar_fail g f s c k :
  (forall pre post, s = pre ++ post -> Forall (fun ch => f ch = true) pre -> k post c = None) ->
  matchStar g f s c k = None.
Proof.
  induction s as [|ch s IH]; intros Hk; simpl.
  - by apply (Hk [] []).
  - assert (k (ch :: s) c = None) as Hhere by (by apply (Hk [] (ch :: s))).
    destruct (f ch) eqn:Hch; [|done].
    rewrite IH, Hhere; [by destruct g|].
    intros pre post -> Hpre. apply (Hk (ch :: pre) post); [done|]. by constructor.
Qed.
End RegexFacts.

Lemma searchFrom_eq n r s :
  searchFrom n r s =
  match matchRe n r s [] (accept s) with
  | Some m => Some m
  | None => match s with [] => None | _ :: s' => searchFrom n r s' end
  end.
Proof. by destruct s. Qed.

Lemma searchFrom_skip n r pre s :
  (forall i, i < length pre ->
     matchRe n r (drop i (pre ++ s)) [] (accept (drop i (pre ++ s))) = None) ->
  searchFrom n r (pre ++ s) = searchFrom n r s.
Proof.
  induction pre as [|a pre IH]; intros Hnone; [done|].
  pose proof (Hnone 0 ltac:(simpl; lia)) as H0.
  change (drop 0 ((a :: pre) ++ s)) with (a :: (pre ++ s)) in H0.
  change ((a :: pre) ++ s) with (a :: (pre ++ s)).
  rewrite searchFrom_eq, H0.
  apply IH. intros i Hi. apply (Hnone (S i)). simpl; lia.
Qed.

Lemma searchFrom_none n r s :
  (forall i, i <= length s -> matchRe n r (drop i s) [] (accept (drop i s)) = None) ->
  searchFrom n r s = None.
Proof.
  induction s as [|a s IH]; intros Hnone.
  - pose proof (Hnone 0 ltac:(done)) as H0.
    change (drop 0 (@nil ascii)) with (@nil ascii) in H0.
    by rewrite searchFrom_eq, H0.
  - pose proof (Hnone 0 ltac:(simpl; lia)) as H0.
    change (drop 0 (a :: s)) with (a :: s) in H0.
    rewrite searchFrom_eq, H0.
    apply IH. intros i Hi. apply (Hnone (S i)). simpl; lia.
Qed.

Lemma allId_Forall s : allId s = true -> Forall (fun ch => idChar ch = true) s.
Proof.
  induction s as [|c s IH]; simpl; [constructor|].
  intros [Hc Hs]%andb_prop. constructor; auto.
Qed.

Lemma Forall_allId s : Forall (fun ch => idChar ch = true) s -> allId s = true.
Proof. induction 1 as [|c s Hc _ IH]; simpl; [done|]. by rewrite Hc, IH. Qed.

Lemma endsRun_inv rest :
  endsRun rest = true -> match rest with [] => True | ch :: _ => idChar ch = false end.
Proof. destruct rest; [done|]. simpl. by intros ->%negb_true_iff. Qed.

Lemma take_consumed (pre rest : str) :
  take (length (pre ++ rest) - length rest) (pre ++ rest) = pre.
Proof.
  rewrite length_app.
  replace (length pre + length rest - length rest) with (length pre) by lia.
  apply take_app_length.
Qed.

(** The first pattern at one position. *)
Lemma idAfter_here n lit ch run rest :
  idChar ch = true -> allId run = true -> endsRun rest = true ->
  let s := lit ++ ch :: run ++ rest in
  matchRe n (idAfterPattern lit) s [] (accept s)
  = Some {| matched := lit ++ ch :: run; groups := [(1, ch :: run)] |}.
Proof.
  intros Hch Hrun Hrest s. subst s.
  unfold idAfterPattern, RPlus.
  cbn [matchRe].
  rewrite startsWith_app, drop_app_length.
  rewrite Hch.
  rewrite matchStar_greedy_run; [| by apply allId_Forall | by apply endsRun_inv | by eexists].
  unfold accept. do 2 f_equal.
  - replace (lit ++ ch :: run ++ rest)
      with ((lit ++ ch :: run) ++ rest) by (by rewrite <- app_assoc).
    apply take_consumed.
  - change (ch :: run ++ rest) with ((ch :: run) ++ rest).
    by rewrite take_consumed.
Qed.

Lemma idAfter_not_here {A} n lit s c (k : str -> captures -> option A) :
  idAfter lit s 0 = false -> matchRe n (idAfterPattern lit) s c k = None.
Proof.
  unfold idAfter. change (drop 0 s) with s. cbv zeta.
  intros Hno. unfold idAfterPattern, RPlus. cbn [matchRe].
  destruct (startsWith lit s) eqn:Hs; [|done].
  destruct (drop (length lit) s) as [|ch rest] eqn:Hd; [done|].
  simpl in Hno. by rewrite Hno.
Qed.

Lemma idAfter_drop lit url i : idAfter lit (drop i url) 0 = idAfter lit url i.
Proof. done. Qed.

Lemma docPathAt_allId url i : allId url = true -> docPathAt url i = false.
Proof.
  intros Hall%allId_Forall. unfold docPathAt, idAfter. cbv zeta.
  destruct (drop i url) as [|c s] eqn:Hd; [done|].
  assert (idChar c = true) as Hc.
  { apply (Forall_drop _ i) in Hall. rewrite Hd in Hall. by inversion Hall. }
  change docPathLit with ("/"%char :: list_ascii_of_string "document/d/").
  cbn [startsWith]. destruct (Ascii.eqb "/" c) eqn:Heq; [|done].
  apply Ascii.eqb_eq in Heq as <-. done.
Qed.

(** The leftmost occurrence of the literal that an id follows is the one
    matched, and the capture is the whole run of the class after it. *)
Lemma idAfter_match lit url pre ch run rest :
  url = pre ++ lit ++ ch :: run ++ rest ->
  idChar ch = true -> allId run = true -> endsRun rest = true ->
  (forall i, i < length pre -> idAfter lit url i = false) ->
  match_ (idAfterPattern lit) url
  = Some {| matched := lit ++ ch :: run; groups := [(1, ch :: run)] |}.
Proof.
  intros -> Hch Hrun Hrest Hfirst. unfold match_.
  rewrite searchFrom_skip.
  - rewrite searchFrom_eq. by rewrite idAfter_here.
  - intros i Hi. apply idAfter_not_here. rewrite idAfter_drop. by apply Hfirst.
Qed.

Lemma idAfter_no_match lit url :
  (forall i, idAfter lit url i = false) -> match_ (idAfterPattern lit) url = None.
Proof.
  intros Hno. apply searchFrom_none. intros i _.
  apply idAfter_not_here. by rewrite idAfter_drop.
Qed.

Lemma bareId_match url :
  url <> [] -> allId url = true ->
  match_ bareIdPattern url = Some {| matched := url; groups := [(1, url)] |}.
Proof.
  intros Hne Hall. destruct url as [|ch s]; [done|].
  apply allId_Forall in Hall. inversion Hall as [|? ? Hch Hs]; subst.
  unfold match_. rewrite searchFrom_eq.
  unfold bareIdPattern, RPlus. cbn [matchRe].
  rewrite Nat.eqb_refl, Hch.
  rewrite matchStar_greedy_all; [|done|by eexists].
  unfold accept.
  replace (length (ch :: s) - length (@nil ascii)) with (length (ch :: s)) by (simpl; lia).
  by rewrite firstn_all.
Qed.

Lemma bareId_no_match url :
  ~ (url <> [] /\ allId url = true) -> match_ bareIdPattern url = None.
Proof.
  intros Hnot. apply searchFrom_none. intros i Hi.
  unfold bareIdPattern, RPlus. cbn [matchRe].
  destruct (length (drop i url) =? length url) eqn:Hlen; [|done].
  apply Nat.eqb_eq in Hlen. rewrite length_drop in Hlen.
  assert (drop i url = url) as ->.
  { destruct url; [by rewrite drop_nil|]. simpl in *.
    replace i with 0 by lia. done. }
  destruct url as [|ch s]; [done|].
  destruct (idChar ch) eqn:Hch; [|done].
  apply matchStar_fail. intros pre post -> Hpre.
  destruct post as [|c post]; [|done].
  exfalso. apply Hnot. split; [done|].
  apply Forall_allId. constructor; [done|]. by rewrite app_nil_r.
Qed.

Lemma idRun_afterRun s : idRun s ++ afterRun s = s.
Proof.
  induction s as [|c s IH]; [done|]. simpl.
  destruct (idChar c); [|done]. simpl. by rewrite IH.
Qed.

Lemma allId_idRun s : allId (idRun s) = true.
Proof.
  induction s as [|c s IH]; [done|]. simpl.
  destruct (idChar c) eqn:Hc; [|done]. simpl. by rewrite Hc, IH.
Qed.

Lemma endsRun_afterRun s : endsRun (afterRun s) = true.
Proof.
  induction s as [|c s IH]; [done|]. simpl.
  destruct (idChar c) eqn:Hc; [done|]. simpl. by rewrite Hc.
Qed.

(** The least position at which a test succeeds. *)
Lemma leftmost_true (f : nat -> bool) (n : nat) :
  f n = true ->
  exists m, m <= n /\ f m = true /\ forall i, i < m -> f i = false.
Proof.
  revert f. induction n as [|n IH]; intros f Hn.
  - exists 0. split; [lia|]. split; [done|]. intros; lia.
  - destruct (f 0) eqn:H0.
    + exists 0. split; [lia|]. split; [done|]. intros; lia.
    + destruct (IH (fun i => f (S i)) Hn) as (m & Hm & Hfm & Hbefore).
      exists (S m). split; [lia|]. split; [done|].
      intros [|i] Hi; [done|]. apply Hbefore. lia.
Qed.

(** An occurrence splits the input around the literal and the run. *)
Lemma idAfter_split lit url m :
  idAfter lit url m = true ->
  exists ch run rest,
    url = take m url ++ lit ++ ch :: run ++ rest
    /\ length (take m url) = m
    /\ idChar ch = true /\ allId run = true /\ endsRun rest = true.
Proof.
  unfold idAfter. cbv zeta. intros [Hlit Hnext]%andb_prop.
  apply startsWith_inv in Hlit.
  destruct (drop (length lit) (drop m url)) as [|ch t] eqn:Htail; [done|].
  exists ch, (idRun t), (afterRun t).
  rewrite idRun_afterRun, <- Hlit, take_drop.
  split; [done|]. split; [|by rewrite allId_idRun, endsRun_afterRun].
  rewrite length_take. apply Nat.min_l.
  destruct (decide (m <= length url)) as [|Hlong]; [done|].
  rewrite (drop_ge url m) in Htail by lia. by rewrite drop_nil in Htail.
Qed.

(** C7.  When the input holds [/document/d/] followed by
    characters of the class of ids, [extractDocumentId] returns the whole
    run of such characters after the leftmost such occurrence.  When the
    input is not empty and made of characters of the class only, it
    returns the input.  In every other case, the empty input among them,
    it returns [null].  The last part shows that an input with an
    occurrence falls under the first case. *)
Theorem extractDocumentId_spec (url : str) :
  (forall pre ch run rest,
     url = pre ++ docPathLit ++ ch :: run ++ rest ->
     idChar ch = true -> allId run = true -> endsRun rest = true ->
     (forall i, i < length pre -> docPathAt url i = false) ->
     extractDocumentId url = Some (ch :: run))
  /\ (url <> [] -> allId url = true -> extractDocumentId url = Some url)
  /\ ((forall i, docPathAt url i = false) ->
      ~ (url <> [] /\ allId url = true) ->
      extractDocumentId url = None)
  /\ (forall n, docPathAt url n = true ->
        exists pre ch run rest,
          url = pre ++ docPathLit ++ ch :: run ++ rest
          /\ idChar ch = true /\ allId run = true /\ endsRun rest = true
          /\ (forall i, i < length pre -> docPathAt url i = false)).
Proof.
  unfold extractDocumentId, firstCapture. split; [|split; [|split]].
  - intros pre ch run rest Hurl Hch Hrun Hrest Hfirst.
    change docPathPattern with (idAfterPattern docPathLit).
    rewrite (idAfter_match docPathLit url pre ch run rest) by done.
    cbn. done.
  - intros Hne Hall.
    change docPathPattern with (idAfterPattern docPathLit).
    rewrite idAfter_no_match by (intros i; by apply docPathAt_allId).
    rewrite bareId_match by done. cbn. done.
  - intros Hno Hbare.
    change docPathPattern with (idAfterPattern docPathLit).
    by rewrite idAfter_no_match, bareId_no_match.
  - intros n Hn.
    destruct (leftmost_true (docPathAt url) n Hn) as (m & _ & Hm & Hbefore).
    destruct (idAfter_split docPathLit url m Hm)
      as (ch & run & rest & Hurl & Hlen & Hch & Hrun & Hrest).
    exists (take m url), ch, run, rest. repeat split; try done.
    intros i Hi. apply Hbefore. lia.
Qed.

(** The empty string, which the second pattern does not match, gives
    [null]; [processMessage] does not pass it, as it calls
    [extractDocumentId] on a message that holds a review keyword. *)
Lemma extractDocumentId_empty_input :
  allId [] = true /\ extractDocumentId [] = None.
Proof. split; reflexivity. Qed.

Lemma isDocumentReviewRequest_nonempty (message : str) :
  isDocumentReviewRequest (VStr message) = Ok true -> message <> [].
Proof. intros Hreview ->. discriminate Hreview. Qed.

Lemma extractDocumentId_spec_witness :
  extractDocumentId "https://docs.google.com/document/d/1Ab-c_9/edit" = Some ("1Ab-c_9" : str)
  /\ extractDocumentId "1Ab-c_9" = Some ("1Ab-c_9" : str)
  /\ extractDocumentId "not an id" = None.
Proof.
  split; [|split].
  - apply (proj1 (extractDocumentId_spec _) ("https://docs.google.com" : str)
             "1"%char ("Ab-c_9" : str) ("/edit" : str)); try reflexivity.
    intros i Hi. do 23 (destruct i as [|i]; [reflexivity|]). simpl in Hi. lia.
  - apply (proj1 (proj2 (extractDocumentId_spec _))); [discriminate | reflexivity].
  - apply (proj1 (proj2 (proj2 (extractDocumentId_spec _)))).
    + intros i. do 10 (destruct i as [|i]; [reflexivity|]). reflexivity.
    + intros [_ H]. discriminate H.
Defined.

(** ** Intent detection *)

Lemma docUrlIn_match message id :
  docUrlIn message id ->
  exists m, match_ docUrlPattern message = Some m /\ docIdOf m = id.
Proof.
  intros (pre & rest & Hmsg & Hne & Hid & Hrest & Hfirst).
  destruct id as [|ch run]; [done|].
  apply andb_prop in Hid as [Hch Hrun].
  eexists. split.
  - change docUrlPattern with (idAfterPattern docUrlLit).
    by apply (idAfter_match docUrlLit message pre ch run rest).
  - done.
Qed.

(** C8.  [detectUserIntent] tries its patterns in a fixed order
    and answers at the first that applies.  The extraction pattern comes
    first: a message whose lower-case form matches it is classified
    [extract_new_docs], whatever else it matches or holds.  A message
    that does not match it, whose lower-case form
    matches the comment pattern and which holds a link to a document, is
    classified [analyze_with_comments] with the id of that document.  A
    message that matches neither of these two patterns, whose lower-case
    form matches the review pattern and which holds a link to a document,
    is classified [review_document] with that id.  A message whose
    lower-case form matches none of the seven patterns of the function is
    classified [general_chat]. *)
Theorem detectUserIntent_precedence (message : str) :
  let lower := toLowerCase message in
  (test extractPattern lower = true ->
   detectUserIntent message = extract_new_docs)
  /\ (forall id,
        test extractPattern lower = false ->
        test commentPattern lower = true ->
        docUrlIn message id ->
        detectUserIntent message = analyze_with_comments id)
  /\ (forall id,
        test extractPattern lower = false ->
        test commentPattern lower = false ->
        test reviewPattern lower = true ->
        docUrlIn message id ->
        detectUserIntent message = review_document id)
  /\ (test extractPattern lower = false ->
      test commentPattern lower = false ->
      test reviewPattern lower = false ->
      test syncPattern lower = false ->
      test docNamePattern lower = false ->
      test tabsPattern lower = false ->
      test queryPattern lower = false ->
      detectUserIntent message = general_chat).
Proof.
  intros lower. unfold detectUserIntent. fold lower. split; [|split; [|split]].
  - by intros ->.
  - intros id -> -> (m & -> & <-)%docUrlIn_match. done.
  - intros id -> -> -> (m & -> & <-)%docUrlIn_match. done.
  - intros -> -> -> -> Hname -> ->.
    unfold test in Hname. by destruct (match_ docNamePattern lower).
Qed.

Lemma detectUserIntent_precedence_witness :
  detectUserIntent "Scan the folder and review https://docs.google.com/document/d/abc-1"
    = extract_new_docs
  /\ detectUserIntent "Please add comments to https://docs.google.com/document/d/abc-1/edit"
    = analyze_with_comments "abc-1"
  /\ detectUserIntent "Can you REVIEW https://docs.google.com/document/d/XYZ_9"
       = review_document "XYZ_9"
  /\ detectUserIntent "hello there" = general_chat.
Proof.
  split; [|split; [|split]].
  - apply (proj1 (detectUserIntent_precedence _)). reflexivity.
  - apply (proj1 (proj2 (detectUserIntent_precedence _))); try reflexivity.
    exists ("Please add comments to " : str), ("/edit" : str).
    repeat split; try reflexivity; [discriminate|].
    intros i Hi. do 23 (destruct i as [|i]; [reflexivity|]). simpl in Hi. lia.
  - apply (proj1 (proj2 (proj2 (detectUserIntent_precedence _)))); try reflexivity.
    exists ("Can you REVIEW " : str), ([] : str).
    repeat split; try reflexivity; [discriminate|].
    intros i Hi. do 15 (destruct i as [|i]; [reflexivity|]). simpl in Hi. lia.
  - apply (proj2 (proj2 (proj2 (detectUserIntent_precedence _)))); reflexivity.
Defined.

(** The extraction pattern is tried before the comment pattern: a message
    that matches both, and holds a link to a document, is not classified
    [analyze_with_comments]. *)
Lemma detectUserIntent_extract_first :
  let message : str := "scan and add comment https://docs.google.com/document/d/abc" in
  test commentPattern (toLowerCase message) = true
  /\ docUrlIn message "abc"
  /\ detectUserIntent message = extract_new_docs
  /\ detectUserIntent message <> analyze_with_comments "abc".
Proof.
  cbv zeta. split; [reflexivity|]. split; [|split; [reflexivity|discriminate]].
  exists ("scan and add comment " : str), ([] : str).
  repeat split; try reflexivity; [discriminate|].
  intros i Hi. do 21 (destruct i as [|i]; [reflexivity|]). simpl in Hi. lia.
Qed.

(** ** chunkText *)

Lemma length_trimStart s : length (trimStart s) <= length s.
Proof.
  induction s as [|c s IH]; simpl; [done|].
  destruct (isSpace c); simpl; lia.
Qed.

Lemma length_trim s : length (trim s) <= length s.
Proof.
  unfold trim, trimEnd. rewrite length_rev.
  etrans; [apply length_trimStart|]. rewrite length_rev. apply length_trimStart.
Qed.

Lemma chunkInv_close maxLength paragraphs st :
  chunkInv maxLength paragraphs st ->
  nonEmpty (currentChunk st) = true ->
  Forall (chunkWithin maxLength paragraphs) (chunks st ++ [trim (currentChunk st)]).
Proof.
  intros [Hchunks Hcur] Hne. apply Forall_app. split; [done|].
  constructor; [|constructor].
  destruct Hcur as [Hnil | [Hin | (prev & para & Hin & Heq & Hlen)]].
  - by rewrite Hnil in Hne.
  - left. exists (currentChunk st). split; [done|]. split; [done|]. apply length_trim.
  - right. exists prev, para. by rewrite Heq.
Qed.

Lemma chunkStep_inv maxLength paragraphs st para :
  In para paragraphs ->
  chunkInv maxLength paragraphs st ->
  chunkInv maxLength paragraphs (chunkStep maxLength st para).
Proof.
  intros Hin Hinv. unfold chunkStep.
  destruct (nonEmpty (currentChunk st)) eqn:Hne.
  - destruct (maxLength <? length (currentChunk st ++ para)) eqn:Hlong; simpl.
    + split; [by apply chunkInv_close | by right; left].
    + split; [apply Hinv|]. right; right. exists (currentChunk st), para.
      apply Nat.ltb_ge in Hlong. rewrite length_app in Hlong. done.
  - rewrite andb_false_r. simpl. split; [apply Hinv|].
    destruct (currentChunk st); [|done]. by right; left.
Qed.

Lemma chunkFold_inv maxLength paragraphs l st :
  (forall p, In p l -> In p paragraphs) ->
  chunkInv maxLength paragraphs st ->
  chunkInv maxLength paragraphs (fold_left (chunkStep maxLength) l st).
Proof.
  revert st. induction l as [|p l IH]; intros st Hsub Hinv; [done|].
  simpl. apply IH; [by intros q Hq; apply Hsub; right|].
  apply chunkStep_inv; [by apply Hsub; left | done].
Qed.

(** C2.  Every chunk [chunkText] returns is, up to trimming,
    either one paragraph of the text, kept whole whatever its length, or
    a chunk to which a paragraph was appended because their two lengths
    added up to [maxLength] at most. *)
Theorem chunkText_chunks (text : str) (maxLength : nat) :
  Forall (chunkWithin maxLength (splitParagraphs text)) (chunkText text maxLength).
Proof.
  unfold chunkText, chunkFinish.
  pose proof (chunkFold_inv maxLength (splitParagraphs text) (splitParagraphs text)
                {| chunks := []; currentChunk := [] |}) as Hinv.
  destruct (nonEmpty _) eqn:Hne.
  - apply chunkInv_close; [|done]. apply Hinv; [done|]. split; [constructor | by left].
  - apply Hinv; [done|]. split; [constructor | by left].
Qed.

(** A paragraph longer than [maxLength] is returned as a chunk of its
    own. *)
Lemma chunkText_long_paragraph :
  0 < 5 /\ chunkText "aaaaaaaaaa" 5 = ["aaaaaaaaaa" : str]
  /\ ~ Forall (fun c => length c <= 5) (chunkText "aaaaaaaaaa" 5).
Proof.
  split; [lia|]. split; [reflexivity|].
  intros H. apply Forall_inv in H. simpl in H. lia.
Qed.

(** The length check leaves the separator out. *)
Example chunkText_separator :
  chunkText ("ab" ++ paragraphSep ++ "cde") 5 = ["ab" ++ paragraphSep ++ "cde"].
Proof. reflexivity. Qed.

(** ** chunkText and the content of the text *)

Lemma removeSpaces_app s t : removeSpaces (s ++ t) = removeSpaces s ++ removeSpaces t.
Proof. apply List.filter_app. Qed.

Lemma removeSpaces_trimStart s : removeSpaces (trimStart s) = removeSpaces s.
Proof.
  induction s as [|c s IH]; [done|]. simpl.
  destruct (isSpace c) eqn:Hc; simpl; [done|]. by rewrite Hc.
Qed.

Lemma removeSpaces_trim s : removeSpaces (trim s) = removeSpaces s.
Proof.
  unfold trim, trimEnd, removeSpaces.
  rewrite List.filter_rev. fold (removeSpaces (trimStart (rev (trimStart s)))).
  rewrite removeSpaces_trimStart. unfold removeSpaces.
  rewrite List.filter_rev, rev_involutive. apply removeSpaces_trimStart.
Qed.

Lemma removeSpaces_join l :
  removeSpaces (joinParagraphs l) = concat (map removeSpaces l).
Proof.
  induction l as [|p l IH]; [done|].
  destruct l as [|q l].
  - simpl. by rewrite app_nil_r.
  - change (joinParagraphs (p :: q :: l))
      with (p ++ paragraphSep ++ joinParagraphs (q :: l)).
    rewrite !removeSpaces_app, IH. done.
Qed.

Lemma splitParagraphs_from_eq acc s :
  splitParagraphs_from acc s =
  match s with
  | [] => [rev acc]
  | a :: t =>
      match t with
      | b :: s' =>
          if is_char nl a && is_char nl b
          then rev acc :: splitParagraphs_from [] s'
          else splitParagraphs_from (a :: acc) t
      | [] => splitParagraphs_from (a :: acc) t
      end
  end.
Proof. by destruct s. Qed.

Lemma splitParagraphs_from_nonempty acc s : splitParagraphs_from acc s <> [].
Proof.
  revert acc. induction s as [|a t IH]; intros acc; [done|].
  rewrite splitParagraphs_from_eq.
  destruct t as [|b s']; [apply IH|].
  destruct (is_char nl a && is_char nl b); [done | apply IH].
Qed.

Lemma joinParagraphs_cons p l :
  l <> [] -> joinParagraphs (p :: l) = p ++ paragraphSep ++ joinParagraphs l.
Proof. by destruct l. Qed.

(** Joining the pieces of a split gives the text back. *)
Lemma join_split_from n acc s :
  length s <= n -> joinParagraphs (splitParagraphs_from acc s) = rev acc ++ s.
Proof.
  revert acc s. induction n as [|n IH]; intros acc s Hlen.
  - destruct s; [|simpl in Hlen; lia]. simpl. by rewrite app_nil_r.
  - rewrite splitParagraphs_from_eq.
    destruct s as [|a t]; [simpl; by rewrite app_nil_r|].
    simpl in Hlen.
    assert (joinParagraphs (splitParagraphs_from (a :: acc) t) = rev acc ++ a :: t) as Hnext.
    { rewrite IH by lia. simpl. by rewrite <- app_assoc. }
    destruct t as [|b s']; [done|].
    destruct (is_char nl a && is_char nl b) eqn:Hsep; [|done].
    apply andb_prop in Hsep as [Ha Hb].
    apply Ascii.eqb_eq in Ha as <-. apply Ascii.eqb_eq in Hb as <-.
    rewrite joinParagraphs_cons by apply splitParagraphs_from_nonempty.
    rewrite IH by (simpl in Hlen; lia). done.
Qed.

Lemma join_split text : joinParagraphs (splitParagraphs text) = text.
Proof. apply (join_split_from (length text) [] text). done. Qed.

Lemma chunkStep_content maxLength st para :
  let st' := chunkStep maxLength st para in
  concat (map removeSpaces (chunks st')) ++ removeSpaces (currentChunk st')
  = (concat (map removeSpaces (chunks st)) ++ removeSpaces (currentChunk st))
    ++ removeSpaces para.
Proof.
  unfold chunkStep.
  destruct ((maxLength <? length (currentChunk st ++ para)) && nonEmpty (currentChunk st));
    simpl.
  - rewrite map_app, concat_app. simpl.
    by rewrite removeSpaces_trim, app_nil_r.
  - rewrite !removeSpaces_app, <- app_assoc. do 2 f_equal.
    by destruct (nonEmpty (currentChunk st)).
Qed.

Lemma chunkFold_content maxLength l st :
  let st' := fold_left (chunkStep maxLength) l st in
  concat (map removeSpaces (chunks st')) ++ removeSpaces (currentChunk st')
  = (concat (map removeSpaces (chunks st)) ++ removeSpaces (currentChunk st))
    ++ concat (map removeSpaces l).
Proof.
  revert st. induction l as [|p l IH]; intros st; simpl.
  - by rewrite app_nil_r.
  - rewrite IH, chunkStep_content, <- !app_assoc. done.
Qed.

Lemma trimStart_clean p : cleanParagraph p = true -> trimStart p = p.
Proof.
  unfold cleanParagraph. destruct p as [|c p]; [done|].
  intros [Hc _]%andb_prop. simpl. by apply negb_true_iff in Hc as ->.
Qed.

Lemma trim_clean p : cleanParagraph p = true -> trim p = p.
Proof.
  intros Hp. unfold trim, trimEnd. rewrite (trimStart_clean p Hp).
  unfold cleanParagraph in Hp. apply andb_prop in Hp as [_ Hlast].
  destruct (rev p) as [|c q] eqn:Hrev; [done|].
  simpl. apply negb_true_iff in Hlast as ->.
  by rewrite <- Hrev, rev_involutive.
Qed.

Lemma clean_nonEmpty p : cleanParagraph p = true -> nonEmpty p = true.
Proof. by destruct p. Qed.

Lemma clean_join a b :
  cleanParagraph a = true -> cleanParagraph b = true ->
  cleanParagraph (a ++ paragraphSep ++ b) = true.
Proof.
  unfold cleanParagraph. intros [Ha _]%andb_prop [_ Hb]%andb_prop.
  apply andb_true_intro. split.
  - by destruct a.
  - rewrite !rev_app_distr. by destruct (rev b).
Qed.

Lemma joinParagraphs_snoc l x :
  l <> [] -> joinParagraphs (l ++ [x]) = joinParagraphs l ++ paragraphSep ++ x.
Proof.
  induction l as [|p l IH]; [done|]. intros _.
  destruct l as [|q l]; [done|].
  change ((p :: q :: l) ++ [x]) with (p :: ((q :: l) ++ [x])).
  rewrite joinParagraphs_cons by done.
  rewrite IH by done.
  rewrite (joinParagraphs_cons p (q :: l)) by done.
  by rewrite <- !app_assoc.
Qed.

Lemma joinParagraphs_extend l x y :
  joinParagraphs (l ++ [x ++ paragraphSep ++ y])
  = joinParagraphs (l ++ [x]) ++ paragraphSep ++ y.
Proof.
  destruct l as [|p l]; [done|].
  rewrite !joinParagraphs_snoc by done. by rewrite <- !app_assoc.
Qed.

Lemma chunkStep_exact maxLength seen st para :
  cleanParagraph para = true ->
  chunkExact seen st ->
  chunkExact (seen ++ [para]) (chunkStep maxLength st para).
Proof.
  intros Hpara [(Hnil & Hchunks & Hcur) | (Hseen & Hclean & Hjoin)]; right;
    (split; [by destruct seen|]); unfold chunkStep.
  - rewrite Hnil, Hcur, Hchunks, andb_false_r. done.
  - rewrite (clean_nonEmpty _ Hclean), andb_true_r.
    destruct (maxLength <? _); cbn [andb chunks currentChunk].
    + split; [done|]. rewrite (trim_clean _ Hclean).
      rewrite joinParagraphs_snoc by (by destruct (chunks st)).
      rewrite Hjoin. by rewrite joinParagraphs_snoc.
    + split; [by apply clean_join|].
      rewrite joinParagraphs_extend, Hjoin. by rewrite joinParagraphs_snoc.
Qed.

Lemma chunkFold_exact maxLength l seen st :
  forallb cleanParagraph l = true ->
  chunkExact seen st ->
  chunkExact (seen ++ l) (fold_left (chunkStep maxLength) l st).
Proof.
  revert seen st. induction l as [|p l IH]; intros seen st Hl Hst.
  - by rewrite app_nil_r.
  - simpl in Hl. apply andb_prop in Hl as [Hp Hl]. simpl.
    replace (seen ++ p :: l) with ((seen ++ [p]) ++ l) by (by rewrite <- app_assoc).
    apply IH; [done|]. by apply chunkStep_exact.
Qed.

(** C3.  Joined by the paragraph separator, the chunks of a text
    hold the characters of the text that are not white space, all of
    them and in the same order.  When every paragraph of the text is not
    empty and neither starts nor ends with white space, the chunks join
    to the text itself. *)
Theorem chunkText_content (text : str) (maxLength : nat) :
  removeSpaces (joinParagraphs (chunkText text maxLength)) = removeSpaces text
  /\ (forallb cleanParagraph (splitParagraphs text) = true ->
      joinParagraphs (chunkText text maxLength) = text).
Proof.
  split.
  - rewrite <- (join_split text) at 2. rewrite !removeSpaces_join.
    unfold chunkText, chunkFinish.
    pose proof (chunkFold_content maxLength (splitParagraphs text)
                  {| chunks := []; currentChunk := [] |}) as Hfold.
    simpl in Hfold. rewrite <- Hfold.
    destruct (nonEmpty _) eqn:Hne.
    + rewrite map_app, concat_app. simpl. by rewrite removeSpaces_trim, app_nil_r.
    + destruct (currentChunk _); [|done]. simpl. by rewrite app_nil_r.
  - intros Hclean. unfold chunkText, chunkFinish.
    destruct (chunkFold_exact maxLength (splitParagraphs text) []
                {| chunks := []; currentChunk := [] |} Hclean)
      as [(Hnil & _) | (_ & Hcur & Hjoin)]; [by left | |].
    + by apply splitParagraphs_from_nonempty in Hnil.
    + rewrite (clean_nonEmpty _ Hcur), (trim_clean _ Hcur), Hjoin.
      apply join_split.
Qed.

Lemma chunkText_content_witness :
  let text : str := "ab" ++ paragraphSep ++ "cde" ++ paragraphSep ++ "f" in
  joinParagraphs (chunkText text 5) = text.
Proof.
  cbv zeta. apply (proj2 (chunkText_content _ 5)). reflexivity.
Defined.

(** Trimming loses the white space at the ends of a chunk. *)
Lemma chunkText_trims :
  0 < 5 /\ joinParagraphs (chunkText " a" 5) <> (" a" : str).
Proof. split; [lia | discriminate]. Qed.

(** ** The windows of analyzeInChunks *)

Lemma windowStep_pos : 0 < windowStep.
Proof. unfold windowStep, chunkSize, chunkOverlap. lia. Qed.

Lemma windowStep_overlap : windowStep + chunkOverlap = chunkSize.
Proof. unfold windowStep, chunkSize, chunkOverlap. lia. Qed.

Example window_constants :
  (Z.of_nat chunkSize = 10000 /\ Z.of_nat windowStep = 9500 /\ Z.of_nat chunkOverlap = 500
   /\ Z.of_nat longDocumentLength = 15000)%Z.
Proof. repeat split; reflexivity. Qed.

Lemma windowsFrom_S fuel i text :
  windowsFrom (S fuel) i text =
  if i <? length text
  then substring i ((i + chunkSize) `min` length text) text
       :: windowsFrom fuel (i + windowStep) text
  else [].
Proof. reflexivity. Qed.

#[local] Opaque windowStep chunkSize chunkOverlap.

Lemma substring_window i text :
  i < length text ->
  substring i ((i + chunkSize) `min` length text) text = windowAt text i.
Proof.
  intros Hi. unfold substring, windowAt. cbv zeta.
  replace (i `min` length text) with i by lia.
  replace (((i + chunkSize) `min` length text) `min` length text)
    with ((i + chunkSize) `min` length text) by lia.
  replace (i `min` ((i + chunkSize) `min` length text)) with i by lia.
  f_equal. lia.
Qed.

Lemma windowsFrom_lookup fuel i k text :
  k < fuel -> i + k * windowStep < length text ->
  windowsFrom fuel i text !! k = Some (windowAt text (i + k * windowStep)).
Proof.
  revert i k. induction fuel as [|fuel IH]; intros i k Hk Hlen; [lia|].
  rewrite windowsFrom_S.
  assert (i < length text) as Hi by lia.
  apply Nat.ltb_lt in Hi as Hi'. rewrite Hi'.
  rewrite lookup_cons. destruct k as [|k].
  - rewrite substring_window by done.
    by replace (i + 0 * windowStep) with i by lia.
  - rewrite IH by lia.
    by replace (i + windowStep + k * windowStep) with (i + S k * windowStep) by lia.
Qed.

Lemma windowsFrom_lookup_ge fuel i k text :
  length text <= i + k * windowStep ->
  windowsFrom fuel i text !! k = None.
Proof.
  revert i k. induction fuel as [|fuel IH]; intros i k Hlen; [done|].
  rewrite windowsFrom_S.
  destruct (i <? length text) eqn:Hi; [|done].
  apply Nat.ltb_lt in Hi.
  rewrite lookup_cons. destruct k as [|k]; [lia|]. apply IH. lia.
Qed.

(** The loop runs to its end within the fuel [splitIntoChunks] gives it. *)
Lemma splitIntoChunks_lookup text k :
  splitIntoChunks text !! k =
  if decide (k * windowStep < length text)
  then Some (windowAt text (k * windowStep))
  else None.
Proof.
  unfold splitIntoChunks. pose proof windowStep_pos.
  case_decide.
  - rewrite windowsFrom_lookup; [done| nia |done].
  - apply windowsFrom_lookup_ge. lia.
Qed.

Lemma length_windowAt text i :
  length (windowAt text i) = chunkSize `min` (length text - i).
Proof. unfold windowAt. rewrite length_take, length_drop. lia. Qed.

(** C4.  For a document of more than 15000 characters, the windows of
    [analyzeInChunks] are those that start at the multiples of 9500 below
    the length of the text, each as long as 10000 or the rest of the text
    allows; every position of the text lies in a window; and two
    successive windows of full size share the 500 characters that end the
    first one and start the second. *)
Theorem splitIntoChunks_windows (text : str) :
  longDocumentLength < length text ->
  let ws := splitIntoChunks text in
  (forall k,
     ws !! k =
     if decide (k * windowStep < length text)
     then Some (take (chunkSize `min` (length text - k * windowStep))
                     (drop (k * windowStep) text))
     else None)
  /\ (forall p, p < length text ->
        exists k w, ws !! k = Some w /\
                    k * windowStep <= p < k * windowStep + length w)
  /\ (forall k w w',
        ws !! k = Some w -> ws !! (S k) = Some w' ->
        length w = chunkSize -> length w' = chunkSize ->
        drop windowStep w = take chunkOverlap w'
        /\ (k * windowStep + length w) - S k * windowStep = chunkOverlap).
Proof.
  intros _ ws. subst ws.
  pose proof windowStep_pos as Hpos. pose proof windowStep_overlap as Hover.
  split; [|split].
  - intros k. apply splitIntoChunks_lookup.
  - intros p Hp. exists (p / windowStep), (windowAt text (p / windowStep * windowStep)).
    pose proof (Nat.div_mod_eq p windowStep) as Hdiv.
    pose proof (Nat.mod_upper_bound p windowStep ltac:(lia)) as Hmod.
    rewrite splitIntoChunks_lookup, length_windowAt.
    case_decide; [|lia]. split; [done|]. lia.
  - intros k w w'. rewrite !splitIntoChunks_lookup.
    do 2 (case_decide; [|done]). intros Ew Ew' Hw Hw'.
    assert (w = windowAt text (k * windowStep)) as -> by congruence.
    assert (w' = windowAt text (S k * windowStep)) as -> by congruence.
    clear Ew Ew'.
    rewrite length_windowAt in Hw, Hw'. split; [|rewrite length_windowAt; lia].
    unfold windowAt.
    replace (chunkSize `min` (length text - k * windowStep)) with chunkSize by lia.
    replace (chunkSize `min` (length text - S k * windowStep)) with chunkSize by lia.
    rewrite skipn_firstn_comm, drop_drop, take_take.
    replace (chunkSize - windowStep) with chunkOverlap by lia.
    replace (chunkOverlap `min` chunkSize) with chunkOverlap by lia.
    do 2 f_equal. lia.
Qed.

#[local] Transparent windowStep chunkSize chunkOverlap.

Lemma splitIntoChunks_windows_witness :
  let text : str := repeat "a"%char (200 * 100) in
  length (splitIntoChunks text) = 3
  /\ splitIntoChunks text !! 2 = Some (repeat "a"%char (10 * 100)).
Proof.
  cbv zeta.
  assert (longDocumentLength < length (repeat "a"%char (200 * 100))) as Hlong.
  { apply Nat.ltb_lt. vm_compute. reflexivity. }
  pose proof (splitIntoChunks_windows _ Hlong) as (Hlookup & _ & _).
  split.
  - vm_compute. reflexivity.
  - rewrite Hlookup. vm_compute. reflexivity.
Defined.
(** ** The issues of analyzeInChunks *)

(** [issue.text.trim()] returns for an issue that has a text, and throws
    for any other. *)
Lemma issueKey_textOf (issue : json) :
  match textOf issue with
  | Some s => issueKey issue = Ok (trim s)
  | None => exists error, issueKey issue = Throw error
  end.
Proof.
  unfold issueKey, textOf, getProp. destruct issue as [| | | | | |o]; simpl; try by eexists.
  destruct (o !! _) as [[| | | |s| |]|]; simpl; try by eexists.
Qed.

Lemma firstByText_snoc l x :
  firstByText (l ++ [x]) =
  firstByText l ++ (if decide (trimmedText x ∈ trimmedText <$> l) then [] else [x]).
Proof.
  induction l as [|y l IH]; [done|].
  change ((y :: l) ++ [x]) with (y :: (l ++ [x])). cbn [firstByText].
  rewrite IH, filter_app. cbn [app]. do 2 f_equal.
  rewrite fmap_cons.
  destruct (decide (trimmedText x = trimmedText y)) as [Heq|Hne].
  - rewrite (decide_True (P := trimmedText x ∈ trimmedText y :: (trimmedText <$> l)))
      by (rewrite Heq; left).
    case_decide; [done|]. by rewrite filter_cons_False, filter_nil by naive_solver.
  - case_decide as Hin.
    + by rewrite decide_True by (by right).
    + rewrite decide_False by (intros [?|?]%elem_of_cons; done).
      by rewrite filter_cons_True, filter_nil.
Qed.

Lemma firstByText_texts l t :
  t ∈ trimmedText <$> firstByText l <-> t ∈ trimmedText <$> l.
Proof.
  induction l as [|x l IH]; [done|]. cbn [firstByText]. rewrite !fmap_cons.
  rewrite !elem_of_cons, <- IH, !list_elem_of_fmap.
  split.
  - intros [Hk | (y & -> & [_ Hy]%list_elem_of_filter)]; [by left|]. right. by exists y.
  - intros [Hk | (y & -> & Hy)]; [by left|].
    destruct (decide (trimmedText y = trimmedText x)) as [?|Hne]; [by left|]. right.
    exists y. split; [done|]. by apply list_elem_of_filter.
Qed.

Lemma NoDup_filter_texts (P : json -> Prop) `{forall x, Decision (P x)} l :
  NoDup (trimmedText <$> l) -> NoDup (trimmedText <$> filter P l).
Proof.
  induction l as [|x l IH]; [done|]. rewrite fmap_cons.
  intros [Hx Hnd]%NoDup_cons.
  destruct (decide (P x)).
  - rewrite filter_cons_True by done. rewrite fmap_cons. apply NoDup_cons.
    split; [|by apply IH]. intros (y & Hy & [_ Hin]%list_elem_of_filter)%list_elem_of_fmap.
    apply Hx, list_elem_of_fmap. by exists y.
  - rewrite filter_cons_False by done. by apply IH.
Qed.

Lemma NoDup_firstByText l : NoDup (trimmedText <$> firstByText l).
Proof.
  induction l as [|x l IH]; [constructor|]. cbn [firstByText]. rewrite fmap_cons.
  apply NoDup_cons. split; [|by apply NoDup_filter_texts].
  by intros (y & Hy & [Hne _]%list_elem_of_filter)%list_elem_of_fmap.
Qed.

(** An issue that is kept is the first of the list with its text. *)
Lemma firstByText_first l x :
  x ∈ firstByText l ->
  exists i, l !! i = Some x
            /\ forall j y, j < i -> l !! j = Some y -> trimmedText y <> trimmedText x.
Proof.
  induction l as [|y l IH]; [by intros ?%elem_of_nil|]. cbn [firstByText].
  intros [-> | [Hne Hin]%list_elem_of_filter]%elem_of_cons.
  - exists 0. split; [done|]. intros; lia.
  - destruct (IH Hin) as (i & Hi & Hfirst). exists (S i). split; [done|].
    intros [|j] z Hj Hz.
    + injection Hz as <-. by intros ?.
    + apply (Hfirst j); [lia | done].
Qed.

(** What is kept of a list stays when the list goes on. *)
Lemma firstByText_app l l' : firstByText l `prefix_of` firstByText (l ++ l').
Proof.
  induction l as [|x l IH]; [by apply prefix_nil|].
  change ((x :: l) ++ l') with (x :: (l ++ l')). cbn [firstByText].
  destruct IH as [k ->]. rewrite filter_app. apply prefix_cons, prefix_app_r. done.
Qed.

Lemma readIssues_elem issues x :
  x ∈ readIssues issues <->
  exists n, issues !! n = Some x
            /\ forall m y, m <= n -> issues !! m = Some y -> is_Some (textOf y).
Proof.
  induction issues as [|issue rest IH]; cbn [readIssues].
  - split; [by intros ?%elem_of_nil | by intros (n & Hn & _)].
  - destruct (textOf issue) as [s|] eqn:Htext.
    + rewrite elem_of_cons, IH. split.
      * intros [-> | (n & Hn & Hbefore)].
        -- exists 0. split; [done|]. intros m y Hm Hy.
           replace m with 0 in Hy by lia. injection Hy as <-. by eexists.
        -- exists (S n). split; [done|]. intros [|m] y Hm Hy.
           ++ injection Hy as <-. by eexists.
           ++ apply (Hbefore m); [lia|done].
      * intros ([|n] & Hn & Hbefore).
        -- left. by injection Hn as <-.
        -- right. exists n. split; [done|]. intros m y Hm Hy.
           apply (Hbefore (S m)); [lia|done].
    + split; [by intros ?%elem_of_nil|]. intros (n & Hn & Hbefore).
      destruct (Hbefore 0 issue) as [s Hs]; [lia|done|congruence].
Qed.

Lemma issuesIn_elem reviewChunk indexed x :
  x ∈ issuesIn reviewChunk indexed <->
  exists ic issues, ic ∈ indexed /\ reviewChunk ic.1 ic.2 = Ok (Some issues)
                    /\ x ∈ readIssues issues.
Proof.
  unfold issuesIn. induction indexed as [|ic indexed IH]; cbn [map concat].
  - split; [by intros ?%elem_of_nil|]. by intros (ic & issues & ?%elem_of_nil & _).
  - rewrite elem_of_app, IH. split.
    + intros [Hx | (ic' & issues & Hic & Hreply & Hx)].
      * destruct (reviewChunk ic.1 ic.2) as [[issues|]|] eqn:Hreply;
          try by apply elem_of_nil in Hx.
        exists ic, issues. split; [by left|done].
      * exists ic', issues. split; [by right|done].
    + intros (ic' & issues & [-> | Hic]%elem_of_cons & Hreply & Hx).
      * left. by rewrite Hreply.
      * right. by exists ic', issues.
Qed.

Lemma issuesIn_app reviewChunk indexed indexed' :
  issuesIn reviewChunk (indexed ++ indexed')
  = issuesIn reviewChunk indexed ++ issuesIn reviewChunk indexed'.
Proof. unfold issuesIn. by rewrite map_app, concat_app. Qed.

Lemma addIssues_inv issues past st :
  dedupInv past st -> dedupInv (past ++ readIssues issues) (addIssues issues st).
Proof.
  revert past st. induction issues as [|issue rest IH]; intros past st Hinv.
  - simpl. by rewrite app_nil_r.
  - cbn [addIssues readIssues]. pose proof (issueKey_textOf issue) as Hkey.
    destruct (textOf issue) as [s|] eqn:Htext.
    2: { destruct Hkey as [error ->]. by rewrite app_nil_r. }
    rewrite Hkey.
    assert (trimmedText issue = Some (trim s)) as Htrim.
    { unfold trimmedText. by rewrite Htext. }
    replace (past ++ issue :: readIssues rest)
      with ((past ++ [issue]) ++ readIssues rest) by (by rewrite <- app_assoc).
    destruct Hinv as [Hall Hseen].
    case_decide as Hin; apply IH.
    + split.
      * rewrite firstByText_snoc, Htrim.
        rewrite decide_True by (by apply Hseen). by rewrite app_nil_r.
      * intros k. rewrite fmap_app, elem_of_app, Hseen.
        change (trimmedText <$> [issue]) with [trimmedText issue].
        rewrite list_elem_of_singleton, Htrim.
        split; [by left|]. intros [?| [= ->]]; [done|]. by apply Hseen.
    + split.
      * cbn [allIssues]. rewrite firstByText_snoc, Htrim.
        rewrite decide_False by (intros ?; by apply Hin, Hseen).
        by rewrite Hall.
      * intros k. cbn [seenTexts]. rewrite fmap_app, elem_of_app, elem_of_union,
          elem_of_singleton, Hseen.
        change (trimmedText <$> [issue]) with [trimmedText issue].
        rewrite list_elem_of_singleton, Htrim.
        split.
        -- intros [-> | ?]; [by right | by left].
        -- intros [? | [= ->]]; [by right | by left].
Qed.

Lemma analyzeChunks_inv reviewChunk indexed past st :
  dedupInv past st ->
  dedupInv (past ++ issuesIn reviewChunk indexed)
           (fold_left (analyzeChunk reviewChunk) indexed st).
Proof.
  revert past st. induction indexed as [|ic indexed IH]; intros past st Hinv.
  - unfold issuesIn. simpl. by rewrite app_nil_r.
  - unfold issuesIn. cbn [map concat fold_left]. rewrite app_assoc.
    apply IH. unfold analyzeChunk.
    destruct (reviewChunk ic.1 ic.2) as [[issues|]|]; rewrite ?app_nil_r; [|done..].
    by apply addIssues_inv.
Qed.

Lemma analyzeChunks_met reviewChunk chunks :
  dedupInv (issuesMet reviewChunk chunks) (analyzeChunks reviewChunk chunks noIssues).
Proof.
  apply (analyzeChunks_inv reviewChunk _ [] noIssues).
  split; [done|]. intros k. simpl. set_solver.
Qed.

(** C5.  Whatever the replies for the chunks are, [analyzeInChunks] goes
    through the issues of each reply up to the first one that has no text,
    and the issues it has gathered after any number of chunks are the
    first occurrences, in order, of the issues gone through, one for each
    text without the white space around it: no two of them have the same
    trimmed text, every issue gone through has the trimmed text of one of
    them, each is the first issue gone through with its trimmed text, and
    what was gathered after some chunks is still there, in its place,
    after the others.  So it is of the result of [analyzeInChunks], on
    the windows of the text. *)
Theorem analyzeChunks_dedup
    (reviewChunk : nat -> str -> result (option (list json))) (chunks : list str) :
  let st := analyzeChunks reviewChunk chunks {| allIssues := []; seenTexts := ∅ |} in
  let met := issuesMet reviewChunk chunks in
  (forall x,
     x ∈ met <->
     exists i chunk issues n,
       chunks !! i = Some chunk /\ reviewChunk i chunk = Ok (Some issues)
       /\ issues !! n = Some x
       /\ forall m y, m <= n -> issues !! m = Some y -> exists s, textOf y = Some s)
  /\ allIssues st = firstByText met
  /\ (forall i j a b,
        allIssues st !! i = Some a -> allIssues st !! j = Some b ->
        trim <$> textOf a = trim <$> textOf b -> i = j)
  /\ (forall a, a ∈ allIssues st ->
        exists s, textOf a = Some s /\ trim s ∈ seenTexts st)
  /\ (forall x, x ∈ met ->
        exists a, a ∈ allIssues st /\ trim <$> textOf a = trim <$> textOf x)
  /\ (forall a, a ∈ allIssues st ->
        exists i, met !! i = Some a
                  /\ forall j y, j < i -> met !! j = Some y ->
                                 trim <$> textOf y <> trim <$> textOf a)
  /\ (forall n,
        allIssues (analyzeChunks reviewChunk (take n chunks)
                     {| allIssues := []; seenTexts := ∅ |})
        `prefix_of` allIssues st)
  /\ (forall text,
        analyzeInChunks reviewChunk text
        = firstByText (issuesMet reviewChunk (splitIntoChunks text))).
Proof.
  intros st met.
  assert (dedupInv met st) as [Hall Hseen] by apply analyzeChunks_met.
  assert (forall x,
     x ∈ met <->
     exists i chunk issues n,
       chunks !! i = Some chunk /\ reviewChunk i chunk = Ok (Some issues)
       /\ issues !! n = Some x
       /\ forall m y, m <= n -> issues !! m = Some y -> exists s, textOf y = Some s)
    as Hmet.
  { intros x. unfold met, issuesMet. rewrite issuesIn_elem. split.
    - intros ([i chunk] & issues & (i' & chunk' & [= -> ->] & Hi)%elem_of_lookup_imap
              & Hreply & (n & Hn & Hbefore)%readIssues_elem).
      by exists i', chunk', issues, n.
    - intros (i & chunk & issues & n & Hi & Hreply & Hn & Hbefore).
      exists (i, chunk), issues. split; [|split; [done|]].
      + apply elem_of_lookup_imap. by exists i, chunk.
      + apply readIssues_elem. by exists n. }
  split; [done|]. split; [done|].
  split; [|split; [|split; [|split; [|split]]]].
  - intros i j a b Hi Hj Htext. rewrite Hall in Hi, Hj.
    apply (NoDup_lookup (trimmedText <$> firstByText met) i j (trimmedText a)).
    + apply NoDup_firstByText.
    + by rewrite list_lookup_fmap, Hi.
    + rewrite list_lookup_fmap, Hj. simpl. unfold trimmedText. by rewrite Htext.
  - intros a Ha. rewrite Hall in Ha.
    apply firstByText_first in Ha as (i & Hi & _).
    assert (a ∈ met) as Hin by (by apply list_elem_of_lookup; exists i).
    apply Hmet in Hin as (i' & chunk & issues & n & _ & _ & Hn & Hbefore).
    destruct (Hbefore n a) as [s Hs]; [lia|done|].
    exists s. split; [done|]. apply Hseen, list_elem_of_fmap.
    exists a. split; [|by apply list_elem_of_lookup; exists i].
    unfold trimmedText. by rewrite Hs.
  - intros x Hx.
    assert (trimmedText x ∈ trimmedText <$> firstByText met) as Hkept.
    { apply firstByText_texts, list_elem_of_fmap. by exists x. }
    apply list_elem_of_fmap in Hkept as (a & Heq & Ha).
    exists a. by rewrite Hall.
  - intros a Ha. rewrite Hall in Ha. by apply firstByText_first.
  - intros n. rewrite Hall. fold noIssues.
    rewrite (proj1 (analyzeChunks_met reviewChunk (take n chunks))). unfold met, issuesMet.
    rewrite <- (take_drop n chunks) at 2. rewrite imap_app, issuesIn_app.
    apply firstByText_app.
  - intros text. apply (analyzeChunks_met reviewChunk (splitIntoChunks text)).
Qed.

(** Two chunks whose replies overlap: the issue met again, with spaces
    around its text, is dropped; the malformed one ends its reply. *)
Lemma analyzeChunks_dedup_witness :
  allIssues (analyzeChunks sampleReview ["a" : str; "b" : str; "c" : str]
               {| allIssues := []; seenTexts := ∅ |})
  = [sampleIssue "very unique" "wordy"; sampleIssue "in order to" "wordy";
     sampleIssue "utilize" "plain word"].
Proof.
  rewrite (proj1 (proj2 (analyzeChunks_dedup sampleReview ["a" : str; "b" : str; "c" : str]))).
  vm_compute. reflexivity.
Defined.

(** ** The request handlers *)

Lemma result_bind_Ok {A B} (m : result A) (f : A -> result B) v :
  m ≫= f = Ok v -> exists a, m = Ok a /\ f a = Ok v.
Proof. destruct m as [a|]; [|done]. intros Hv. by exists a. Qed.

Lemma failureResponse_isResponse message : isResponse (failureResponse message).
Proof. eexists. split; [done|]. split; by eexists. Qed.

Lemma tryCatch_answers (body : result json) (wrap : str -> str) :
  (forall v, body = Ok v -> isResponse v) ->
  answers (tryCatch body (fun error => mret (failureResponse (wrap error)))).
Proof.
  intros Hbody. destruct body as [v|error]; simpl.
  - exists v. split; [done|]. by apply Hbody.
  - eexists. split; [done|]. apply failureResponse_isResponse.
Qed.

Section HandlerFacts.
Context `{Services}.

Lemma handleConversationalQuery_answers userMessage conversationHistory :
  answers (handleConversationalQuery userMessage conversationHistory).
Proof.
  apply (tryCatch_answers _ (fun e => "Error processing your question: " ++ e)).
  unfold handleConversationalQuery_body. cbv zeta.
  destruct (generateConversationalResponse _ _ _) as [response|]; [|done].
  intros v [= <-]. eexists. split; [done|]. split; by eexists.
Qed.

Lemma reviewDocument_answers docId conversationHistory :
  answers (reviewDocument docId conversationHistory).
Proof.
  apply (tryCatch_answers _ (fun e => "Error: " ++ e)).
  unfold reviewDocument_body.
  destruct (readGoogleDoc docId) as [title text id|error].
  - cbv zeta. destruct (analyzeDocumentWithRules _ _ _ _) as [analysis|]; [|done].
    intros v [= <-]. eexists. split; [done|]. split; by eexists.
  - intros v [= <-]. apply failureResponse_isResponse.
Qed.





End HandlerFacts.



(** A message that is not a string is answered with the error of the
    call of its [toLowerCase]. *)
Example processMessage_not_a_string :
  @processMessage embeddingDown (VNum (Fin 5)) VUndef
  = Ok (failureResponse "Error: TypeError: message.toLowerCase is not a function").
Proof. reflexivity. Qed.

(** ** calculatePeriodChanges *)

Section MetricFacts.
Context `{Builtins}.

(** [v || d] on a metric is a finite number, and not zero when [d] is
    not. *)
Lemma orDefault_number (r : row) (k : str) (d : Q) :
  numberOrMissing r k ->
  exists q, orDefault (r !! k) (number d) = Some (number q)
            /\ (Qeq_bool d 0 = false -> Qeq_bool q 0 = false).
Proof.
  intros [Hk | [q Hk]]; rewrite Hk; unfold orDefault; simpl.
  - by exists d.
  - unfold isZero. destruct (Qeq_bool q 0) eqn:Hq; simpl; [by exists d | by exists q].
Qed.

Lemma calculateChange_number (a b : Q) :
  calculateChange (Some (number a)) (Some (number b)) =
  if Qeq_bool b 0
  then (if Qle_bool a 0 then number 0 else number 100)
  else number ((a - b) / b * 100).
Proof.
  unfold calculateChange, strictEq, gt, mul, div, sub, number. simpl.
  unfold isZero. destruct (Qeq_bool b 0); [|done].
  by destruct (Qle_bool a 0).
Qed.

Lemma calculateChange_finite (a b : Q) :
  exists q, calculateChange (Some (number a)) (Some (number b)) = number q.
Proof.
  rewrite calculateChange_number.
  destruct (Qeq_bool b 0); [destruct (Qle_bool a 0)|]; by eexists.
Qed.

Lemma metricRow_lookup (r : row) (k : str) :
  metricRow r -> k ∈ metricNames -> numberOrMissing r k.
Proof. unfold metricRow. rewrite Forall_forall. auto. Qed.

Lemma changeOf_finite (currentRow previousRow : row) (k : str) :
  metricRow currentRow -> metricRow previousRow -> k ∈ metricNames ->
  exists q, changeOf currentRow previousRow k = number q.
Proof.
  intros Hc Hp Hk. unfold changeOf.
  destruct (orDefault_number currentRow k 0 (metricRow_lookup _ _ Hc Hk)) as (a & -> & _).
  destruct (orDefault_number previousRow k 0 (metricRow_lookup _ _ Hp Hk)) as (b & -> & _).
  apply calculateChange_finite.
Qed.

(** The divisor [r.sessions || 1] is never zero. *)
Lemma perSession_finite (r : row) :
  metricRow r -> exists q, perSession r = number q.
Proof.
  intros Hr. unfold perSession.
  destruct (orDefault_number r "userEngagementDuration" 0) as (a & -> & _).
  { apply metricRow_lookup; [done|]. unfold metricNames. set_solver. }
  destruct (orDefault_number r "sessions" 1) as (b & -> & Hb).
  { apply metricRow_lookup; [done|]. unfold metricNames. set_solver. }
  unfold div, number. simpl. unfold isZero. rewrite Hb by done. by eexists.
Qed.

Lemma metricRow_empty : metricRow ∅.
Proof. unfold metricRow. apply Forall_forall. intros k _. by left. Qed.

Lemma findPrevious_metricRow (previous : list row) (channelName : jsval) :
  Forall metricRow previous -> metricRow (findPrevious previous channelName).
Proof.
  intros Hprev. unfold findPrevious.
  destruct (List.find _ previous) as [p|] eqn:Hfind; simpl.
  - apply find_some in Hfind as [Hin _].
    rewrite Forall_forall in Hprev. by apply Hprev, list_elem_of_In.
  - apply metricRow_empty.
Qed.

Lemma changesOf_finite (currentRow previousRow : row) (k : str) (v : cell) :
  metricRow currentRow -> metricRow previousRow ->
  changesOf currentRow previousRow !! k = Some v ->
  exists q, v = number q.
Proof.
  intros Hc Hp Hk. unfold changesOf in Hk.
  apply elem_of_list_to_map_2 in Hk.
  destruct (perSession_finite currentRow Hc) as (a & Ha).
  destruct (perSession_finite previousRow Hp) as (b & Hb).
  rewrite Ha, Hb in Hk.
  repeat (apply elem_of_cons in Hk as [[= _ ->] | Hk]);
    try (apply changeOf_finite; [done|done|unfold metricNames; set_solver]).
  - apply calculateChange_finite.
  - by apply elem_of_nil in Hk.
Qed.

(** [previous.find(...) || {}] is the first row of the same channel, or
    the empty object. *)
Lemma findPrevious_spec (previous : list row) (currentRow : row) :
  previousRowOf previous currentRow (findPrevious previous (currentRow !! channelKey)).
Proof.
  unfold findPrevious, previousRowOf, sameChannel.
  induction previous as [|p previous IH]; simpl.
  - right. split; [done|]. intros q Hq. by apply elem_of_nil in Hq.
  - destruct (strictEq (p !! channelKey) (currentRow !! channelKey)) eqn:Hp; simpl.
    + left. exists 0. repeat split; [done|]. intros j q Hj. lia.
    + destruct IH as [(i & Hi & Hsame & Hfirst) | (Hnone & Hall)].
      * left. exists (S i). repeat split; [done|done|].
        intros [|j] q Hj Hq; simpl in Hq.
        -- injection Hq as <-. by rewrite Hp.
        -- apply (Hfirst j); [lia|done].
      * right. split; [done|]. intros q [-> | Hq]%elem_of_cons.
        -- by rewrite Hp.
        -- by apply Hall.
Qed.

Lemma changesOf_dom (currentRow previousRow : row) :
  dom (changesOf currentRow previousRow) = list_to_set changeNames.
Proof. unfold changesOf. by rewrite dom_list_to_map_L. Qed.

Lemma changesOf_lookup (currentRow previousRow : row) (k : str) (v : cell) :
  (k, v) ∈ [ ("sessions" : str, changeOf currentRow previousRow "sessions");
             ("newUsers" : str, changeOf currentRow previousRow "newUsers");
             ("totalUsers" : str, changeOf currentRow previousRow "totalUsers");
             ("averageSessionDuration" : str,
                changeOf currentRow previousRow "averageSessionDuration");
             ("avgEngagementPerSession" : str,
                calculateChange (Some (perSession currentRow)) (Some (perSession previousRow)));
             ("eventsPerSession" : str, changeOf currentRow previousRow "eventsPerSession");
             ("bounceRate" : str, changeOf currentRow previousRow "bounceRate") ] ->
  changesOf currentRow previousRow !! k = Some v.
Proof.
  intros Hk. apply elem_of_list_to_map_1; [|done].
  apply (bool_decide_unpack _). by vm_compute.
Qed.

Lemma changesOf_direct (currentRow previousRow : row) (k : str) :
  k ∈ directChanges ->
  changesOf currentRow previousRow !! k
  = Some (calculateChange (orDefault (currentRow !! k) (number 0))
                          (orDefault (previousRow !! k) (number 0))).
Proof.
  intros Hk. apply changesOf_lookup. fold (changeOf currentRow previousRow k).
  unfold directChanges in Hk.
  repeat (apply elem_of_cons in Hk as [-> | Hk]); [..|by apply elem_of_nil in Hk];
    set_solver.
Qed.

Lemma changesOf_perSession (currentRow previousRow : row) :
  changesOf currentRow previousRow !! ("avgEngagementPerSession" : str)
  = Some (calculateChange (Some (perSession currentRow)) (Some (perSession previousRow))).
Proof. apply changesOf_lookup. set_solver. Qed.

(** C1.  On two non-negative numbers, [calculateChange] gives 100 when
    the previous value is zero and the current one is not, and 0 when
    both are zero; on any two values it divides only when the previous
    one is not [0], and is then [(curr - prev) / prev * 100], which is
    exactly [100 * k] when the values are whole numbers [prev * (1 + k)]
    and [prev] below 2^53.  The [changes] of the row that
    [calculatePeriodChanges] builds for a row of the current period has
    the seven properties of the report and no other; each of the six
    direct ones is [calculateChange] of that metric of the row, or 0, and
    of the same metric of the first row of that channel in the previous
    period, or 0; [avgEngagementPerSession] is [calculateChange] of the
    two engagement durations per session; and for rows as
    [parseGA4Response] builds them every entry is a number that is not
    NaN.  No division is a division by zero: the engagement
    is divided by [sessions || 1], which is not zero either. *)
Theorem calculateChange_spec :
  (forall curr prev : Q,
     (0 <= curr)%Q -> (0 <= prev)%Q ->
     ((prev == 0)%Q -> (0 < curr)%Q ->
        calculateChange (Some (number curr)) (Some (number prev)) = number 100)
     /\ ((prev == 0)%Q -> (curr == 0)%Q ->
           calculateChange (Some (number curr)) (Some (number prev)) = number 0)
     /\ ((0 < prev)%Q ->
           calculateChange (Some (number curr)) (Some (number prev))
           = mul (Some (div (Some (sub (Some (number curr)) (Some (number prev))))
                            (Some (number prev))))
                 (Some (number 100))
           /\ isNumber (calculateChange (Some (number curr)) (Some (number prev)))))
  /\ (forall curr prev : jsval,
        (strictEq prev (Some (number 0)) = true ->
           calculateChange curr prev = number 100 \/ calculateChange curr prev = number 0)
        /\ (strictEq prev (Some (number 0)) = false ->
              calculateChange curr prev
              = mul (Some (div (Some (sub curr prev)) prev)) (Some (number 100))))
  /\ (forall prev k : Z,
        (0 < prev)%Z -> (-1 <= k)%Z ->
        (prev * (1 + k) < 2 ^ 53)%Z -> (100 * k < 2 ^ 53)%Z ->
        strictEq (Some (calculateChange (Some (number (inject_Z (prev * (1 + k)))))
                                        (Some (number (inject_Z prev)))))
                 (Some (number (inject_Z (100 * k)))) = true)
  /\ (forall current previous : list row,
        Forall2 (fun currentRow out =>
                   exists previousRow,
                     previousRowOf previous currentRow previousRow
                     /\ dom (changes out) = list_to_set changeNames
                     /\ (forall k, k ∈ directChanges ->
                           changes out !! k
                           = Some (calculateChange
                                     (orDefault (currentRow !! k) (number 0))
                                     (orDefault (previousRow !! k) (number 0))))
                     /\ changes out !! ("avgEngagementPerSession" : str)
                        = Some (calculateChange
                                  (Some (div (orDefault (currentRow !! ("userEngagementDuration" : str)) (number 0))
                                             (orDefault (currentRow !! ("sessions" : str)) (number 1))))
                                  (Some (div (orDefault (previousRow !! ("userEngagementDuration" : str)) (number 0))
                                             (orDefault (previousRow !! ("sessions" : str)) (number 1)))))
                     /\ (parsedRow currentRow -> Forall parsedRow previous ->
                         forall k v, changes out !! k = Some v -> isNumber v))
                current (calculatePeriodChanges current previous))
  /\ (forall r : row,
        parsedRow r ->
        (exists d, orDefault (r !! ("sessions" : str)) (number 1) = Some (number d)
                   /\ ~ (d == 0)%Q)
        /\ exists q, perSession r = number q).
Proof.
  split; [|split; [|split; [|split]]].
  - intros curr prev Hcurr Hprev. rewrite calculateChange_number. repeat split.
    + intros Hzero Hpos. apply Qeq_bool_iff in Hzero as ->.
      destruct (Qle_bool curr 0) eqn:Hle; [|done].
      apply Qle_bool_iff in Hle. by apply Qle_not_lt in Hle.
    + intros Hzero Hcz. apply Qeq_bool_iff in Hzero as ->.
      destruct (Qle_bool curr 0) eqn:Hle; [done|].
      exfalso. apply not_true_iff_false in Hle. apply Hle, Qle_bool_iff.
      rewrite Hcz. apply Qle_refl.
    + destruct (Qeq_bool prev 0) eqn:Hz.
      * apply Qeq_bool_iff in Hz. rewrite Hz in H0. by apply Qlt_irrefl in H0.
      * unfold mul, div, sub, number. simpl. unfold isZero. by rewrite Hz.
    + destruct (Qeq_bool prev 0); [destruct (Qle_bool curr 0)|]; by eexists.
  - intros curr prev. unfold calculateChange. split; intros ->; [|done].
    destruct (gt curr _); [by left | by right].
  - intros prev k Hprev Hk _ _. rewrite calculateChange_number.
    destruct (Qeq_bool (inject_Z prev) 0) eqn:Hz.
    { apply Qeq_bool_iff in Hz. unfold Qeq in Hz. simpl in Hz. lia. }
    unfold strictEq, number, num_eq. apply Qeq_bool_iff.
    rewrite !inject_Z_mult, inject_Z_plus.
    assert (~ (inject_Z prev == 0)%Q) as Hnz.
    { intros Hz'%Qeq_bool_iff. by rewrite Hz in Hz'. }
    change (inject_Z 100) with 100%Q. change (inject_Z 1) with 1%Q. by field.
  - intros current previous. unfold calculatePeriodChanges.
    change (map ?f current) with (f <$> current).
    apply Forall2_fmap_r, Forall_Forall2_diag, Forall_forall.
    intros currentRow Hin. cbv zeta. simpl.
    exists (findPrevious previous (currentRow !! channelKey)).
    split; [apply findPrevious_spec|].
    split; [apply changesOf_dom|].
    split; [apply changesOf_direct|].
    split; [apply changesOf_perSession|].
    intros [Hcur _] Hprev k v Hk.
    destruct (changesOf_finite currentRow (findPrevious previous (currentRow !! channelKey)) k v)
      as (q & ->); [done| |done|by eexists].
    apply findPrevious_metricRow. eapply Forall_impl; [done|]. by intros r [Hr _].
  - intros r [Hr _]. split; [|by apply perSession_finite].
    destruct (orDefault_number r "sessions" 1) as (d & Hd & Hnz).
    { apply metricRow_lookup; [done|]. unfold metricNames. set_solver. }
    exists d. split; [done|]. intros Hz%Qeq_bool_iff. by rewrite Hnz in Hz.
Qed.

End MetricFacts.
Lemma calculateChange_spec_witness :
  @calculateChange decimal (Some (number 5)) (Some (number 0)) = number 100
  /\ strictEq (Some (@calculateChange decimal
                       (Some (number (inject_Z (40 * (1 + 2)))))
                       (Some (number (inject_Z 40)))))
              (Some (number (inject_Z (100 * 2)))) = true.
Proof.
  split.
  - apply (proj1 (@calculateChange_spec decimal) 5%Q 0%Q);
      unfold Qle, Qlt, Qeq; simpl; lia.
  - apply (proj1 (proj2 (proj2 (@calculateChange_spec decimal))) 40%Z 2%Z); lia.
Defined.

(** ** enrichMetrics *)

Section EnrichFacts.
Context `{Builtins}.

Lemma orDefault_zero (r : row) (k : str) :
  numberOrMissing r k ->
  exists q, orDefault (r !! k) (number 0) = Some (number q) /\ (q == metric r k)%Q.
Proof.
  unfold metric. intros [Hk | [q Hk]]; rewrite Hk; unfold orDefault; simpl.
  - by exists 0%Q.
  - unfold isZero. destruct (Qeq_bool q 0) eqn:Hq; simpl.
    + exists 0%Q. split; [done|]. symmetry. by apply Qeq_bool_iff.
    + by exists q.
Qed.

Lemma enrichRow_frame (r : row) (k : str) :
  k <> returningUsersKey -> k <> avgEngagementKey -> enrichRow r !! k = r !! k.
Proof.
  intros Hret Havg. unfold enrichRow.
  rewrite lookup_insert_ne by done. by rewrite lookup_insert_ne.
Qed.





End EnrichFacts.


(** A property named [returningUsers] is not left as it was. *)
Lemma enrichMetrics_overwrites :
  let r : row := {[ returningUsersKey := number 5 ]} in
  exists r', @enrichMetrics decimal [r] !! 0 = Some r'
             /\ r' !! returningUsersKey = Some (number (0 - 0))
             /\ r' !! returningUsersKey <> r !! returningUsersKey.
Proof.
  cbv zeta. eexists. split; [reflexivity|]. split; [reflexivity|].
  vm_compute. discriminate.
Qed.

(** ** parseGA4Response *)

Lemma mapM_result_cons {A B} (f : A -> result B) (x : A) (l : list A) :
  mapM f (x :: l) = y ← f x; k ← mapM f l; mret (y :: k).
Proof. reflexivity. Qed.

(** When the callback returns on every element, [map] returns the list
    of what it returned. *)
Lemma mapM_result_Ok {A B} (f : A -> result B) (l : list A) :
  (forall x, x ∈ l -> exists y, f x = Ok y) ->
  exists k, mapM f l = Ok k /\ Forall2 (fun x y => f x = Ok y) l k.
Proof.
  induction l as [|x l IH]; intros Hf.
  - exists []. split; [done | constructor].
  - destruct (Hf x) as (y & Hy); [by left|].
    destruct IH as (k & Hk & Hall); [by intros z Hz; apply Hf; right|].
    exists (y :: k). split; [|by constructor].
    by rewrite mapM_result_cons, Hy, Hk.
Qed.

Section ParseFacts.
Context `{Builtins}.

Lemma num_or_not_NaN (x : num) : num_or x (Fin 0) <> NaN.
Proof. unfold num_or. destruct x as [q| |]; simpl; [by destruct (isZero q)|done..]. Qed.

Lemma forEachHeader_Ok (f : header -> str -> cell) (values : list dataValue)
    (index : nat) (headers : list header) (r0 : row) :
  index + length headers <= length values ->
  exists r, forEachHeader f values index headers r0 = Ok r.
Proof.
  revert index r0. induction headers as [|h headers IH]; intros index r0 Hlen.
  - by exists r0.
  - cbn [forEachHeader]. simpl in Hlen. unfold valueAt.
    destruct (values !! index) as [v|] eqn:Hv.
    + simpl. apply IH. lia.
    + apply lookup_ge_None in Hv. lia.
Qed.

(** The properties that are not named by a header are left as they are. *)
Lemma forEachHeader_frame (f : header -> str -> cell) (values : list dataValue)
    (index : nat) (headers : list header) (r0 r : row) (k : str) :
  forEachHeader f values index headers r0 = Ok r ->
  k ∉ name <$> headers ->
  r !! k = r0 !! k.
Proof.
  revert index r0. induction headers as [|h headers IH]; intros index r0 Hr Hk.
  - by injection Hr as <-.
  - cbn [forEachHeader] in Hr. unfold valueAt in Hr.
    destruct (values !! index) as [v|]; [|done]. simpl in Hr.
    rewrite fmap_cons in Hk. apply not_elem_of_cons in Hk as [Hne Hk].
    rewrite (IH _ _ Hr Hk). by rewrite lookup_insert_ne.
Qed.

(** A property named by a header holds what the callback gives for a
    header of that name and the value at its index. *)
Lemma forEachHeader_lookup (f : header -> str -> cell) (values : list dataValue)
    (index : nat) (headers : list header) (r0 r : row) (k : str) :
  forEachHeader f values index headers r0 = Ok r ->
  k ∈ name <$> headers ->
  exists i h v,
    headers !! i = Some h /\ name h = k /\ values !! (index + i) = Some v
    /\ r !! k = Some (f h (value v)).
Proof.
  revert index r0. induction headers as [|h headers IH]; intros index r0 Hr Hk.
  - by apply elem_of_nil in Hk.
  - cbn [forEachHeader] in Hr. unfold valueAt in Hr.
    destruct (values !! index) as [v|] eqn:Hv; [|done]. simpl in Hr.
    destruct (decide (k ∈ name <$> headers)) as [Hlater | Hlast].
    + destruct (IH _ _ Hr Hlater) as (i & h' & v' & Hi & Hname & Hv' & Hlookup).
      exists (S i), h', v'. repeat split; try done.
      by replace (index + S i) with (S index + i) by lia.
    + rewrite fmap_cons in Hk. apply elem_of_cons in Hk as [-> | Hk]; [|done].
      exists 0, h, v. repeat split; try done.
      * by rewrite Nat.add_0_r.
      * rewrite (forEachHeader_frame _ _ _ _ _ _ _ Hr Hlast). apply lookup_insert_eq.
Qed.

Lemma parseRow_Ok (resp : response) (r : reportRow) :
  (forall values headers,
     dimensionValues r = Some values -> dimensionHeaders resp = Some headers ->
     length headers <= length values) ->
  (forall values headers,
     metricValues r = Some values -> metricHeaders resp = Some headers ->
     length headers <= length values) ->
  exists o, parseRow resp r = Ok o.
Proof.
  intros Hdim Hmet. unfold parseRow.
  assert (exists d, match dimensionValues r, dimensionHeaders resp with
                    | Some values, Some headers =>
                        forEachHeader (fun _ v => Str v) values 0 headers ∅
                    | _, _ => Ok ∅
                    end = Ok d) as [d ->].
  { destruct (dimensionValues r) as [values|], (dimensionHeaders resp) as [headers|];
      try by eexists.
    apply forEachHeader_Ok. by apply Hdim. }
  simpl.
  destruct (metricValues r) as [values|], (metricHeaders resp) as [headers|];
    try by eexists.
  apply forEachHeader_Ok. by apply Hmet.
Qed.

(** Of several headers of one name the last one decides. *)
Lemma forEachHeader_last (f : header -> str -> cell) (values : list dataValue)
    (index : nat) (headers : list header) (r0 r : row) (k : str) :
  forEachHeader f values index headers r0 = Ok r ->
  k ∈ name <$> headers ->
  exists i h v,
    headers !! i = Some h /\ name h = k
    /\ (forall j h', i < j -> headers !! j = Some h' -> name h' <> k)
    /\ values !! (index + i) = Some v
    /\ r !! k = Some (f h (value v)).
Proof.
  revert index r0. induction headers as [|h headers IH]; intros index r0 Hr Hk.
  - by apply elem_of_nil in Hk.
  - cbn [forEachHeader] in Hr. unfold valueAt in Hr.
    destruct (values !! index) as [v|] eqn:Hv; [|done]. simpl in Hr.
    destruct (decide (k ∈ name <$> headers)) as [Hlater | Hlast].
    + destruct (IH _ _ Hr Hlater) as (i & h' & v' & Hi & Hname & Hnone & Hv' & Hlookup).
      exists (S i), h', v'. repeat split; try done.
      * intros [|j] h'' Hj Hh''; [lia|]. apply (Hnone j); [lia|done].
      * by replace (index + S i) with (S index + i) by lia.
    + rewrite fmap_cons in Hk. apply elem_of_cons in Hk as [-> | Hk]; [|done].
      exists 0, h, v. repeat split; try done.
      * intros j h' Hj Hh' Hname. destruct j as [|j]; [lia|]. apply Hlast.
        apply list_elem_of_fmap. exists h'. split; [done|].
        by apply (list_elem_of_lookup_2 _ j).
      * by rewrite Nat.add_0_r.
      * rewrite (forEachHeader_frame _ _ _ _ _ _ _ Hr Hlast). apply lookup_insert_eq.
Qed.

(** [x || 0] on what [parseFloat] or [parseInt] read. *)
Lemma num_or_zero (x : num) :
  (x = NaN -> num_or x (Fin 0) = Fin 0)
  /\ (forall q, x = Fin q -> (q == 0)%Q -> num_or x (Fin 0) = Fin 0)
  /\ (forall q, x = Fin q -> ~ (q == 0)%Q -> num_or x (Fin 0) = Fin q)
  /\ (forall negative, x = Inf negative -> num_or x (Fin 0) = Inf negative).
Proof.
  unfold num_or, num_truthy, isZero. repeat split.
  - by intros ->.
  - intros q -> Hq%Qeq_bool_iff. by rewrite Hq.
  - intros q -> Hq. destruct (Qeq_bool q 0) eqn:Hz; [|done].
    by apply Qeq_bool_iff in Hz.
  - by intros negative ->.
Qed.

(** C10.  [parseGA4Response] returns the empty list when the response has
    no rows.  On a response of the expected shape it returns, with one
    object for each row.  In the object of a row, the property of a
    metric is read from the value at the index of the last header of that
    name, with [parseFloat] when the name contains Rate, Duration or Per
    and with [parseInt] otherwise, and it is a number that is not NaN:
    0 when what was read is NaN or zero, and what was read otherwise. *)
Theorem parseGA4Response_total (resp : response) :
  (rows resp = None \/ rows resp = Some [] -> parseGA4Response resp = Ok [])
  /\ (wellShaped resp ->
      exists out,
        parseGA4Response resp = Ok out
        /\ length out = length (default [] (rows resp))
        /\ forall j r o values headers k,
             default [] (rows resp) !! j = Some r -> out !! j = Some o ->
             metricValues r = Some values -> metricHeaders resp = Some headers ->
             k ∈ name <$> headers ->
             exists i h v,
               headers !! i = Some h /\ name h = k
               /\ (forall j' h', i < j' -> headers !! j' = Some h' -> name h' <> k)
               /\ values !! i = Some v
               /\ (exists n, o !! k = Some (Num n) /\ n <> NaN)
               /\ let read :=
                    if includes "Rate" k || includes "Duration" k || includes "Per" k
                    then parseFloat (value v)
                    else parseInt (value v) in
                  (read = NaN -> o !! k = Some (number 0))
                  /\ (forall q, read = Fin q -> (q == 0)%Q -> o !! k = Some (number 0))
                  /\ (forall q, read = Fin q -> ~ (q == 0)%Q -> o !! k = Some (number q))
                  /\ (forall negative,
                        read = Inf negative -> o !! k = Some (Num (Inf negative)))).
Proof.
  unfold parseGA4Response. split.
  - by intros [-> | ->].
  - intros Hshape. unfold wellShaped in Hshape.
    destruct (rows resp) as [[|r0 rs]|]; simpl in *.
    + exists []. split; [done|]. split; [done|]. intros j r o values headers k Hr. by rewrite lookup_nil in Hr.
    + destruct (mapM_result_Ok (parseRow resp) (r0 :: rs)) as (out & Hout & Hall).
      { intros r Hr. destruct (Hshape r Hr). by apply parseRow_Ok. }
      pose proof (Forall2_length _ _ _ Hall) as Hlen. simpl in Hlen.
      exists out. split; [done|]. split; [lia|].
      intros j r o values headers k Hr Ho Hvalues Hheaders Hk.
      pose proof (Forall2_lookup_lr _ _ _ _ _ _ Hall Hr Ho) as Hparse.
      unfold parseRow in Hparse.
      apply result_bind_Ok in Hparse as (d & _ & Hparse).
      rewrite Hvalues, Hheaders in Hparse.
      destruct (forEachHeader_last _ _ _ _ _ _ _ Hparse Hk)
        as (i & h & v & Hi & Hname & Hlast & Hv & Hlookup).
      exists i, h, v. split; [done|]. split; [done|]. split; [done|]. split; [done|].
      rewrite Hlookup. unfold metricCell, isFloatMetric. rewrite Hname.
      cbv [list_ascii_of_string].
      split.
      * destruct (includes _ k || includes _ k || includes _ k);
          eexists; (split; [reflexivity | apply num_or_not_NaN]).
      * cbv zeta.
        destruct (includes _ k || includes _ k || includes _ k).
        -- destruct (num_or_zero (parseFloat (value v))) as (Hnan & Hzero & Hfin & Hinf).
           repeat split.
           ++ by intros ->%Hnan.
           ++ intros q Hq Hz. by rewrite (Hzero q Hq Hz).
           ++ intros q Hq Hz. by rewrite (Hfin q Hq Hz).
           ++ intros negative Hq. by rewrite (Hinf negative Hq).
        -- destruct (num_or_zero (parseInt (value v))) as (Hnan & Hzero & Hfin & Hinf).
           repeat split.
           ++ by intros ->%Hnan.
           ++ intros q Hq Hz. by rewrite (Hzero q Hq Hz).
           ++ intros q Hq Hz. by rewrite (Hfin q Hq Hz).
           ++ intros negative Hq. by rewrite (Hinf negative Hq).
    + exists []. split; [done|]. split; [done|]. intros j r o values headers k Hr. by rewrite lookup_nil in Hr.
Qed.

End ParseFacts.

Lemma parseGA4Response_total_witness :
  exists out o,
    @parseGA4Response decimal sampleResponse = Ok out
    /\ out = [o]
    /\ o !! ("sessions" : str) = Some (number (inject_Z 42))
    /\ o !! ("newUsers" : str) = Some (number 0).
Proof.
  destruct (proj2 (@parseGA4Response_total decimal sampleResponse))
    as (out & Hout & Hlen & Hmetrics).
  - intros r Hr. apply list_elem_of_singleton in Hr as ->.
    split; intros values headers [= <-] [= <-]; simpl; lia.
  - destruct out as [|o [|o' out]]; [discriminate| |discriminate].
    exists [o], o. split; [exact Hout|]. split; [reflexivity|]. split.
    + destruct (Hmetrics 0 _ o _ _ ("sessions" : str) eq_refl eq_refl eq_refl eq_refl)
        as (i & h & v & Hi & Hname & _ & Hv & _ & _ & _ & Hfin & _).
      { by left. }
      destruct i as [|[|[|i]]]; [|by injection Hi as <-..|done].
      injection Hv as <-. apply Hfin; [reflexivity|discriminate].
    + destruct (Hmetrics 0 _ o _ _ ("newUsers" : str) eq_refl eq_refl eq_refl eq_refl)
        as (i & h & v & Hi & Hname & _ & Hv & _ & Hnan & _).
      { by right; right; left. }
      destruct i as [|[|[|i]]]; [by injection Hi as <-..| |done].
      injection Hv as <-. apply Hnan. reflexivity.
Defined.

Example parseGA4Response_run :
  fmap (M := list)
       (fun r : row => (r !! ("sessionDefaultChannelGrouping" : str),
                        r !! ("sessions" : str),
                        r !! ("bounceRate" : str), r !! ("newUsers" : str)))
    <$> @parseGA4Response decimal sampleResponse
  = Ok [ (Some (Str "Direct"), Some (number (inject_Z 42)),
          Some (number (inject_Z 0 + inject_Z 25 / inject_Z 100)),
          Some (number 0)) ].
Proof. vm_compute. reflexivity. Qed.

(** ** More on the windows of analyzeInChunks *)

Lemma windowStep_long : windowStep < longDocumentLength.
Proof. unfold longDocumentLength, windowStep, chunkSize, chunkOverlap. lia. Qed.

#[local] Opaque windowStep chunkSize chunkOverlap longDocumentLength.

Lemma take_step_windowAt text i :
  take windowStep (windowAt text i) = take windowStep (drop i text).
Proof.
  pose proof windowStep_overlap. unfold windowAt. rewrite take_take.
  destruct (decide (windowStep <= length text - i)).
  - f_equal. lia.
  - rewrite !take_ge; [done| |]; rewrite length_drop; lia.
Qed.

(** The windows, each cut at the start of the next, are the text. *)
Lemma windowsFrom_concat fuel i text :
  length text <= i + fuel ->
  concat (take windowStep <$> windowsFrom fuel i text) = drop i text.
Proof.
  pose proof windowStep_pos.
  revert i. induction fuel as [|fuel IH]; intros i Hfuel.
  - simpl. rewrite drop_ge; [done | lia].
  - rewrite windowsFrom_S. destruct (i <? length text) eqn:Hi.
    + apply Nat.ltb_lt in Hi. rewrite fmap_cons. cbn [concat].
      rewrite substring_window by done. rewrite take_step_windowAt.
      rewrite IH by lia. rewrite <- drop_drop. apply take_drop.
    + apply Nat.ltb_ge in Hi. simpl. rewrite drop_ge; [done | lia].
Qed.

(** X1.  The number of windows, which is the number of calls of the
    language model [analyzeInChunks] makes, is the length of the text
    divided by 9500 and rounded up; a document long enough to be analysed
    in chunks has at least two. *)
Theorem splitIntoChunks_count (text : str) :
  let n := length (splitIntoChunks text) in
  length text <= n * windowStep
  /\ (text <> [] -> (n - 1) * windowStep < length text)
  /\ (longDocumentLength < length text -> 2 <= n).
Proof.
  intros n. pose proof windowStep_pos as Hpos. pose proof windowStep_overlap as Hover.
  assert (length text <= n * windowStep) as Hupper.
  { pose proof (splitIntoChunks_lookup text n) as Hn.
    rewrite lookup_ge_None_2 in Hn by done. case_decide; [done | lia]. }
  assert (n <> 0 -> (n - 1) * windowStep < length text) as Hlower.
  { intros Hn0. pose proof (splitIntoChunks_lookup text (n - 1)) as Hn.
    destruct (lookup_lt_is_Some_2 (splitIntoChunks text) (n - 1)) as [w Hw]; [lia|].
    rewrite Hw in Hn. by case_decide. }
  split; [done|]. split.
  - intros Hne. apply Hlower. intros Hn0. rewrite Hn0 in Hupper.
    destruct text; [done | simpl in Hupper; lia].
  - intros Hlong. pose proof windowStep_long. clearbody n.
    destruct n as [|[|n]]; lia.
Qed.

(** X2.  Nothing of the text is lost between the windows: cut at the
    position where the next one starts, they are the text again. *)
Theorem splitIntoChunks_concat (text : str) :
  concat (take windowStep <$> splitIntoChunks text) = text.
Proof. unfold splitIntoChunks. by rewrite windowsFrom_concat. Qed.

#[local] Transparent windowStep chunkSize chunkOverlap longDocumentLength.

Lemma splitIntoChunks_count_witness :
  let text : str := repeat "b"%char (200 * 100) in
  2 <= length (splitIntoChunks text).
Proof.
  cbv zeta. apply (proj2 (proj2 (splitIntoChunks_count _))).
  apply Nat.ltb_lt. vm_compute. reflexivity.
Defined.

(** ** The document id an intent carries *)

Lemma matchStar_sound {A} g f s c (k : str -> captures -> option A) x :
  matchStar g f s c k = Some x ->
  exists pre post,
    s = pre ++ post /\ Forall (fun ch => f ch = true) pre /\ k post c = Some x.
Proof.
  induction s as [|ch s IH]; simpl; intros Hx.
  - by exists [], [].
  - assert (k (ch :: s) c = Some x -> exists pre post,
      ch :: s = pre ++ post /\ Forall (fun ch => f ch = true) pre /\ k post c = Some x)
      as Hstop by (by exists [], (ch :: s)).
    destruct (f ch) eqn:Hch; [|by apply Hstop].
    assert (matchStar g f s c k = Some x -> exists pre post,
      ch :: s = pre ++ post /\ Forall (fun ch => f ch = true) pre /\ k post c = Some x)
      as Hmore.
    { intros (pre & post & -> & Hpre & Hk)%IH.
      exists (ch :: pre), post. by repeat constructor. }
    destruct g; unfold orElse in Hx.
    + destruct (matchStar true f s c k) eqn:Hrest; [apply Hmore | apply Hstop]; congruence.
    + destruct (k (ch :: s) c) eqn:Hhere; [apply Hstop | apply Hmore]; congruence.
Qed.

Lemma searchFrom_sound n r s m :
  searchFrom n r s = Some m ->
  exists i, i <= length s /\ matchRe n r (drop i s) [] (accept (drop i s)) = Some m.
Proof.
  induction s as [|a s IH]; rewrite searchFrom_eq.
  - destruct (matchRe n r [] [] (accept [])) eqn:Hhere; [|done].
    intros [= <-]. by exists 0.
  - destruct (matchRe n r (a :: s) [] (accept (a :: s))) eqn:Hhere.
    + intros [= <-]. exists 0. split; [simpl; lia | done].
    + intros (i & Hi & Hm)%IH. exists (S i). split; [simpl; lia | done].
Qed.

Lemma idAfter_sound n lit s m :
  matchRe n (idAfterPattern lit) s [] (accept s) = Some m ->
  exists ch run rest,
    s = lit ++ ch :: run ++ rest /\ idChar ch = true /\ allId run = true /\
    m = {| matched := lit ++ ch :: run; groups := [(1, ch :: run)] |}.
Proof.
  unfold idAfterPattern, RPlus. cbn [matchRe].
  destruct (startsWith lit s) eqn:Hlit; [|done].
  apply startsWith_inv in Hlit. destruct (drop (length lit) s) as [|ch t]; [done|].
  destruct (idChar ch) eqn:Hch; [|done].
  intros (run & rest & -> & Hrun & Hm)%matchStar_sound.
  exists ch, run, rest. split; [done|]. split; [done|]. split; [by apply Forall_allId|].
  unfold accept in Hm. injection Hm as <-. rewrite Hlit. f_equal.
  - replace (lit ++ ch :: run ++ rest) with ((lit ++ ch :: run) ++ rest)
      by (by rewrite <- app_assoc).
    apply take_consumed.
  - change (S (length (run ++ rest))) with (length ((ch :: run) ++ rest)).
    change (ch :: run ++ rest) with ((ch :: run) ++ rest). by rewrite take_consumed.
Qed.

Lemma docIdOf_sound message m :
  match_ docUrlPattern message = Some m ->
  docIdOf m <> [] /\ allId (docIdOf m) = true /\
  exists pre rest, message = pre ++ docUrlLit ++ docIdOf m ++ rest.
Proof.
  intros (i & Hi & Hm)%searchFrom_sound.
  change docUrlPattern with (idAfterPattern docUrlLit) in Hm.
  apply idAfter_sound in Hm as (ch & run & rest & Hs & Hch & Hrun & ->).
  change (docIdOf _) with (ch :: run).
  split; [done|]. split; [by cbn [allId forallb]; rewrite Hch|].
  exists (take i message), rest.
  rewrite <- (take_drop i message) at 1. by rewrite Hs.
Qed.

(** X3.  An intent that carries a document id carries a real one: it is
    not empty, holds only characters of document ids, and stands in the
    message right after the address of a document. *)
Theorem detectUserIntent_docId (message id : str) :
  detectUserIntent message = analyze_with_comments id
  \/ detectUserIntent message = review_document id ->
  id <> [] /\ allId id = true /\
  exists pre rest, message = pre ++ docUrlLit ++ id ++ rest.
Proof.
  unfold detectUserIntent.
  destruct (test extractPattern (toLowerCase message)); [by intros [|]|].
  destruct (test commentPattern (toLowerCase message)).
  - destruct (match_ docUrlPattern message) as [m|] eqn:Hm; [|by intros [|]].
    intros [[= <-]|]; [|done]. by apply docIdOf_sound.
  - destruct (test reviewPattern (toLowerCase message)).
    + destruct (match_ docUrlPattern message) as [m|] eqn:Hm.
      * intros [|[= <-]]; [done|]. by apply docIdOf_sound.
      * intros Hother. exfalso. revert Hother.
        destruct (test syncPattern _); [by intros [|]|].
        destruct (match_ docNamePattern _); [by intros [|]|].
        destruct (test tabsPattern _); [by intros [|]|].
        destruct (test queryPattern _); by intros [|].
    + intros Hother. exfalso. revert Hother.
      destruct (test syncPattern _); [by intros [|]|].
      destruct (match_ docNamePattern _); [by intros [|]|].
      destruct (test tabsPattern _); [by intros [|]|].
      destruct (test queryPattern _); by intros [|].
Qed.

Lemma detectUserIntent_docId_witness :
  let message : str := "Please review https://docs.google.com/document/d/1Ab-c_9/edit" in
  exists pre rest, message = pre ++ docUrlLit ++ "1Ab-c_9" ++ rest.
Proof.
  cbv zeta. apply (detectUserIntent_docId _ "1Ab-c_9"). right. vm_compute. reflexivity.
Defined.

(** ** Which messages [processMessage] takes for a review *)

Lemma includes_eq p s :
  includes p s
  = startsWith p s || match s with [] => false | _ :: s' => includes p s' end.
Proof. by destruct s. Qed.

Lemma includes_here p s : includes p (p ++ s) = true.
Proof. by rewrite includes_eq, startsWith_app. Qed.

Lemma includes_app_r p a s : includes p s = true -> includes p (a ++ s) = true.
Proof.
  intros Hs. induction a as [|c a IH]; [done|].
  rewrite includes_eq. cbn [app]. rewrite IH. apply orb_true_r.
Qed.

Lemma toLowerCase_app a b : toLowerCase (a ++ b) = toLowerCase a ++ toLowerCase b.
Proof. apply map_app. Qed.

Lemma extractDocumentId_of_link message pre ch run rest :
  message = pre ++ docPathLit ++ ch :: run ++ rest ->
  idChar ch = true -> allId run = true -> endsRun rest = true ->
  (forall i, i < length pre -> docPathAt message i = false) ->
  extractDocumentId message = Some (ch :: run).
Proof.
  intros Hmessage Hch Hrun Hrest Hfirst.
  unfold extractDocumentId. cbn [firstCapture].
  change docPathPattern with (idAfterPattern docPathLit).
  by rewrite (idAfter_match _ _ _ _ _ _ Hmessage Hch Hrun Hrest Hfirst).
Qed.

Lemma extractDocumentId_of_id message :
  message <> [] -> allId message = true -> extractDocumentId message = Some message.
Proof.
  intros Hne Hall. unfold extractDocumentId. cbn [firstCapture].
  change docPathPattern with (idAfterPattern docPathLit).
  rewrite idAfter_no_match by (intros i; by apply docPathAt_allId).
  by rewrite bareId_match.
Qed.

Section Routing.
Context `{Services}.

Lemma tryCatch_reviewDocument docId conversationHistory handler :
  tryCatch (reviewDocument docId conversationHistory) handler
  = reviewDocument docId conversationHistory.
Proof.
  by destruct (reviewDocument_answers docId conversationHistory) as (v & -> & _).
Qed.

Lemma tryCatch_handleConversationalQuery userMessage conversationHistory handler :
  tryCatch (handleConversationalQuery userMessage conversationHistory) handler
  = handleConversationalQuery userMessage conversationHistory.
Proof.
  by destruct (handleConversationalQuery_answers userMessage conversationHistory)
    as (v & -> & _).
Qed.

(** X4.  A message that holds the path of a document, [/document/d/] and
    an id, is always handed to the review of that document, whatever else
    it says: the path itself is one of the keywords of a review request.
    The id is the run of id characters after the leftmost such path. *)
Theorem processMessage_link (message pre rest run : str) (ch : ascii)
    (conversationHistory : json) :
  message = pre ++ docPathLit ++ ch :: run ++ rest ->
  idChar ch = true -> allId run = true -> endsRun rest = true ->
  (forall i, i < length pre -> docPathAt message i = false) ->
  processMessage (VStr message) conversationHistory
  = reviewDocument (ch :: run) (orEmptyArray conversationHistory).
Proof.
  intros Hmessage Hch Hrun Hrest Hfirst.
  unfold processMessage, processMessage_body. cbv zeta.
  unfold isDocumentReviewRequest. cbn [asString fmap result_fmap mbind result_bind mret result_ret].
  assert (existsb (fun keyword => includes keyword (toLowerCase message)) reviewKeywords
          = true) as ->.
  { apply existsb_exists. exists (list_ascii_of_string "document/d/").
    split; [unfold reviewKeywords; simpl; tauto|].
    rewrite Hmessage, !toLowerCase_app.
    apply includes_app_r.
    change (toLowerCase docPathLit)
      with (["/"%char] ++ list_ascii_of_string "document/d/").
    rewrite <- !app_assoc. apply includes_app_r, includes_here. }
  rewrite (extractDocumentId_of_link _ _ _ _ _ Hmessage Hch Hrun Hrest Hfirst).
  apply tryCatch_reviewDocument.
Qed.

(** X5.  A message that is nothing but characters of a document id is
    taken for the id of a document to review exactly when it contains a
    keyword of a review request, as the word [check] does; without one it
    is answered as a question, though it may well be an id. *)
Theorem processMessage_bare_id (message : str) (conversationHistory : json) :
  message <> [] -> allId message = true ->
  processMessage (VStr message) conversationHistory
  = if existsb (fun keyword => includes keyword (toLowerCase message)) reviewKeywords
    then reviewDocument message (orEmptyArray conversationHistory)
    else handleConversationalQuery (VStr message) (orEmptyArray conversationHistory).
Proof.
  intros Hne Hall.
  unfold processMessage, processMessage_body. cbv zeta.
  unfold isDocumentReviewRequest. cbn [asString fmap result_fmap mbind result_bind mret result_ret].
  destruct (existsb _ reviewKeywords).
  - cbn [asString fmap result_fmap mbind result_bind mret result_ret].
    rewrite (extractDocumentId_of_id _ Hne Hall).
    destruct message as [|c id]; [done|]. apply tryCatch_reviewDocument.
  - apply tryCatch_handleConversationalQuery.
Qed.

End Routing.

Lemma processMessage_link_witness :
  @processMessage embeddingDown (VStr "see /document/d/1Ab-c_9/edit") VUndef
  = @reviewDocument embeddingDown "1Ab-c_9" (VArr []).
Proof.
  apply (@processMessage_link embeddingDown _ "see " "/edit" "Ab-c_9" "1" VUndef);
    try reflexivity.
  intros i Hi. simpl in Hi.
  do 4 (destruct i as [|i]; [reflexivity|]). lia.
Defined.

Lemma processMessage_bare_id_witness :
  @processMessage embeddingDown (VStr "check") VUndef
  = @reviewDocument embeddingDown "check" (VArr []).
Proof.
  apply (@processMessage_bare_id embeddingDown "check" VUndef); [discriminate | reflexivity].
Defined.

(** ** More on the metrics of a report *)

Section MoreMetricFacts.
Context `{Builtins}.

Lemma enrichRow_idempotent (r : row) : enrichRow (enrichRow r) = enrichRow r.
Proof.
  unfold enrichRow at 1. rewrite !enrichRow_frame by done.
  unfold enrichRow. apply map_eq. intros k.
  destruct (decide (k = ("avgEngagementPerSession" : str))) as [->|Havg].
  { by rewrite !lookup_insert_eq. }
  rewrite lookup_insert_ne by done.
  destruct (decide (k = ("returningUsers" : str))) as [->|Hret].
  { rewrite lookup_insert_eq. rewrite lookup_insert_ne by done.
    by rewrite lookup_insert_eq. }
  by rewrite lookup_insert_ne.
Qed.

(** X6.  Enriching rows that are enriched already changes nothing: the
    two computed properties are computed from the others, which
    [enrichMetrics] leaves alone.  So [calculatePeriodChanges], which
    enriches each row it is given again, can be handed rows that went
    through [enrichMetrics] before. *)
Theorem enrichMetrics_idempotent (data : list row) :
  enrichMetrics (enrichMetrics data) = enrichMetrics data.
Proof.
  unfold enrichMetrics. rewrite map_map. apply map_ext. intros r.
  apply enrichRow_idempotent.
Qed.

(** The change between two non-negative values, in the arithmetic of
    rationals. *)
Lemma calculateChange_rational (curr prev : Q) :
  (0 <= curr)%Q -> (0 <= prev)%Q ->
  exists q, calculateChange (Some (number curr)) (Some (number prev)) = number q
            /\ (-100 <= q)%Q
            /\ ((0 < q)%Q <-> (prev < curr)%Q)
            /\ ((q == 0)%Q <-> (curr == prev)%Q).
Proof.
  intros Hcurr Hprev. rewrite calculateChange_number.
  destruct (Qeq_bool prev 0) eqn:Hz.
  - apply Qeq_bool_iff in Hz. destruct (Qle_bool curr 0) eqn:Hle.
    + apply Qle_bool_iff in Hle. assert (curr == 0)%Q as Hc by (by apply Qle_antisym).
      exists 0%Q. split; [done|]. split; [done|]. rewrite Hz, Hc. split; [|done].
      split; by intros ?%Qlt_irrefl.
    + assert (0 < curr)%Q as Hpos.
      { apply Qnot_le_lt. intros Hle'%Qle_bool_iff. congruence. }
      exists 100%Q. split; [done|]. split; [done|]. rewrite Hz. split; [done|].
      split; [done|]. intros Hc. rewrite Hc in Hpos. by apply Qlt_irrefl in Hpos.
  - assert (0 < prev)%Q as Hpos.
    { apply Qle_lt_or_eq in Hprev as [|Heq]; [done|].
      symmetry in Heq. apply Qeq_bool_iff in Heq. congruence. }
    assert (~ (prev == 0)%Q) as Hnz.
    { intros Heq. rewrite Heq in Hpos. by apply Qlt_irrefl in Hpos. }
    exists ((curr - prev) / prev * 100)%Q. split; [done|].
    assert ((curr - prev) / prev * 100 == (curr / prev - 1) * 100)%Q as -> by (by field).
    assert (curr == curr / prev * prev)%Q as Hcurr' by (by field).
    assert (0 <= curr / prev)%Q as Hratio.
    { apply Qle_shift_div_l; [done|]. by rewrite Qmult_0_l. }
    assert ((prev < curr)%Q <-> (1 < curr / prev)%Q) as Hrise.
    { rewrite <- (Qmult_lt_r 1 (curr / prev) prev Hpos).
      by rewrite Qmult_1_l, <- Hcurr'. }
    assert ((curr == prev)%Q <-> (curr / prev == 1)%Q) as Hsame.
    { split.
      - intros ->. by field.
      - intros Hone. rewrite Hcurr', Hone. apply Qmult_1_l. }
    rewrite Hrise, Hsame. clear Hrise Hsame Hcurr'.
    generalize dependent (curr / prev)%Q. intros t Ht.
    split; [lra|]. split; split; lra.
Qed.

(** X7.  Between two non-negative values the change is a number, not
    NaN, that has the sign of the difference, also from a previous value
    of zero, and it is never below -100: a drop is bounded, a rise is
    not. *)
Theorem calculateChange_sign (curr prev : Q) :
  (0 <= curr)%Q -> (0 <= prev)%Q ->
  exists n, calculateChange (Some (number curr)) (Some (number prev)) = Num n
            /\ n <> NaN
            /\ num_gt (Fin (-100)) n = false
            /\ (num_gt n (Fin 0) = true <-> (prev < curr)%Q)
            /\ (num_gt (Fin 0) n = true <-> (curr < prev)%Q)
            /\ (num_eq n (Fin 0) = true <-> (curr == prev)%Q).
Proof.
  intros Hcurr Hprev.
  destruct (calculateChange_rational curr prev Hcurr Hprev)
    as (q & Hq & Hlow & Hrise & Hsame).
  exists (Fin q). split; [done|]. split; [done|].
  unfold num_gt, num_eq.
  assert (forall a b, negb (Qle_bool a b) = true <-> (b < a)%Q) as Hgt.
  { intros a b. rewrite negb_true_iff. split.
    - intros Hle. apply Qnot_le_lt. intros Hle'%Qle_bool_iff. congruence.
    - intros Hlt. destruct (Qle_bool a b) eqn:Hle; [|done].
      apply Qle_bool_iff in Hle. by apply Qle_not_lt in Hle. }
  split; [|split; [|split]].
  - apply not_true_iff_false. rewrite Hgt. by apply Qle_not_lt.
  - by rewrite Hgt.
  - rewrite Hgt. split.
    + intros Hneg. destruct (Qlt_le_dec curr prev) as [|Hle]; [done|].
      apply Qle_lt_or_eq in Hle as [Hlt | Heq].
      * apply Hrise in Hlt. lra.
      * symmetry in Heq. apply Hsame in Heq. lra.
    + intros Hdrop. destruct (Qlt_le_dec q 0) as [|Hle]; [done|].
      apply Qle_lt_or_eq in Hle as [Hlt | Heq].
      * apply Hrise in Hlt. lra.
      * symmetry in Heq. apply Hsame in Heq. lra.
  - by rewrite Qeq_bool_iff.
Qed.

Lemma findPrevious_none (previous : list row) (channelName : jsval) :
  Forall (fun p => strictEq (p !! channelKey) channelName = false) previous ->
  findPrevious previous channelName = ∅.
Proof.
  unfold findPrevious. induction 1 as [|p previous Hp _ IH]; [done|].
  simpl. by rewrite Hp.
Qed.

Lemma calculateChange_from_zero (a b : Q) :
  (b == 0)%Q ->
  calculateChange (Some (number a)) (Some (number b))
  = if Qle_bool a 0 then number 0 else number 100.
Proof. intros Hb%Qeq_bool_iff. by rewrite calculateChange_number, Hb. Qed.

(** X8.  For a channel that the previous period does not have, every
    change reported is 100 or 0, whatever the size of the current value:
    100 for the sessions when there are sessions now, 0 otherwise, and
    likewise for each of the other metrics. *)
Theorem calculatePeriodChanges_new_channel (current previous : list row)
    (i : nat) (currentRow : row) :
  current !! i = Some currentRow ->
  metricRow currentRow ->
  Forall (fun p => strictEq (p !! channelKey) (currentRow !! channelKey) = false)
         previous ->
  exists out,
    calculatePeriodChanges current previous !! i = Some out
    /\ (forall k v, changes out !! k = Some v -> v = number 100 \/ v = number 0)
    /\ changes out !! ("sessions" : str)
       = Some (if Qle_bool (metric currentRow "sessions") 0
               then number 0 else number 100).
Proof.
  intros Hi Hrow Hnew. eexists. split.
  { unfold calculatePeriodChanges.
    change (map ?f current) with (f <$> current).
    by rewrite list_lookup_fmap, Hi. }
  cbv zeta. simpl. rewrite (findPrevious_none _ _ Hnew).
  assert (forall k, k ∈ metricNames ->
            changeOf currentRow ∅ k
            = if Qle_bool (metric currentRow k) 0 then number 0 else number 100)
    as Hchange.
  { intros k Hk. unfold changeOf. rewrite lookup_empty.
    change (orDefault None (number 0)) with (Some (number 0)).
    destruct (orDefault_zero currentRow k (metricRow_lookup _ _ Hrow Hk))
      as (a & -> & Ha).
    rewrite calculateChange_from_zero by done.
    destruct (Qle_bool a 0) eqn:Hle.
    - apply Qle_bool_iff in Hle. rewrite Ha in Hle.
      apply Qle_bool_iff in Hle. by rewrite Hle.
    - destruct (Qle_bool (metric currentRow k) 0) eqn:Hle'; [|done].
      apply Qle_bool_iff in Hle'. rewrite <- Ha in Hle'.
      apply Qle_bool_iff in Hle'. congruence. }
  split.
  - intros k v Hk. unfold changesOf in Hk. apply elem_of_list_to_map_2 in Hk.
    destruct (perSession_finite currentRow Hrow) as (a & Ha). rewrite Ha in Hk.
    assert (forall k, k ∈ metricNames ->
              changeOf currentRow ∅ k = number 100 \/ changeOf currentRow ∅ k = number 0)
      as Heither.
    { intros k' Hk'. rewrite Hchange by done. destruct (Qle_bool _ 0); [by right | by left]. }
    repeat (apply elem_of_cons in Hk as [[= _ ->] | Hk]);
      try (apply Heither; unfold metricNames; repeat constructor).
    + change (perSession ∅) with (number (0 / 1)).
      rewrite calculateChange_from_zero by done.
      destruct (Qle_bool a 0); [by right | by left].
    + by apply elem_of_nil in Hk.
  - unfold changesOf. rewrite <- Hchange by (unfold metricNames; repeat constructor).
    reflexivity.
Qed.

(** X9.  When the row found for the channel in the previous period holds
    the same metrics as the current one, every change reported is zero. *)
Theorem calculatePeriodChanges_unchanged (current previous : list row)
    (i : nat) (currentRow : row) :
  current !! i = Some currentRow ->
  metricRow currentRow ->
  (forall k, k ∈ metricNames ->
     findPrevious previous (currentRow !! channelKey) !! k = currentRow !! k) ->
  exists out,
    calculatePeriodChanges current previous !! i = Some out
    /\ forall k v, changes out !! k = Some v -> exists q, v = number q /\ (q == 0)%Q.
Proof.
  intros Hi Hrow Hsame. eexists. split.
  { unfold calculatePeriodChanges.
    change (map ?f current) with (f <$> current).
    by rewrite list_lookup_fmap, Hi. }
  cbv zeta. simpl.
  set (previousRow := findPrevious previous (currentRow !! channelKey)) in *.
  assert (forall a : Q, exists q,
            calculateChange (Some (number a)) (Some (number a)) = number q /\ (q == 0)%Q)
    as Hzero.
  { intros a. rewrite calculateChange_number. destruct (Qeq_bool a 0) eqn:Hz.
    - apply Qeq_bool_iff in Hz.
      assert (Qle_bool a 0 = true) as -> by (apply Qle_bool_iff; by rewrite Hz).
      by exists 0%Q.
    - eexists. split; [done|]. field. intros Ha%Qeq_bool_iff. congruence. }
  assert (forall k, k ∈ metricNames ->
            exists q, changeOf currentRow previousRow k = number q /\ (q == 0)%Q)
    as Hchange.
  { intros k Hk. unfold changeOf. rewrite Hsame by done.
    destruct (orDefault_number currentRow k 0 (metricRow_lookup _ _ Hrow Hk))
      as (a & -> & _).
    apply Hzero. }
  intros k v Hk. unfold changesOf in Hk. apply elem_of_list_to_map_2 in Hk.
  assert (perSession previousRow = perSession currentRow) as Hper.
  { unfold perSession. by rewrite !Hsame by (unfold metricNames; repeat constructor). }
  rewrite Hper in Hk.
  destruct (perSession_finite currentRow Hrow) as (a & Ha). rewrite Ha in Hk.
  repeat (apply elem_of_cons in Hk as [[= _ ->] | Hk]);
    try (apply Hchange; unfold metricNames; repeat constructor).
  - apply Hzero.
  - by apply elem_of_nil in Hk.
Qed.

End MoreMetricFacts.

Lemma calculateChange_sign_witness :
  exists n, @calculateChange decimal (Some (number 50)) (Some (number 200)) = Num n
            /\ n <> NaN
            /\ num_gt (Fin (-100)) n = false
            /\ num_gt (Fin 0) n = true.
Proof.
  destruct (@calculateChange_sign decimal 50 200) as (n & Hn & Hnan & Hlow & _ & Hdrop & _);
    [unfold Qle; simpl; lia | unfold Qle; simpl; lia |].
  exists n. split; [exact Hn|]. split; [exact Hnan|]. split; [exact Hlow|].
  apply Hdrop. unfold Qlt; simpl; lia.
Defined.

Lemma calculatePeriodChanges_new_channel_witness :
  let currentRow : row :=
    {[ channelKey := Str "Email"; ("sessions" : str) := number 7 ]} in
  let previousRow : row :=
    {[ channelKey := Str "Direct"; ("sessions" : str) := number 900 ]} in
  exists out,
    @calculatePeriodChanges decimal [currentRow] [previousRow] !! 0 = Some out
    /\ changes out !! ("sessions" : str)
       = Some (if Qle_bool (metric currentRow "sessions") 0
               then number 0 else number 100).
Proof.
  cbv zeta.
  destruct (@calculatePeriodChanges_new_channel decimal
              [ {[ channelKey := Str "Email"; ("sessions" : str) := number 7 ]} ]
              [ {[ channelKey := Str "Direct"; ("sessions" : str) := number 900 ]} ]
              0 _ eq_refl) as (out & Hout & _ & Hsessions).
  - apply Forall_forall. intros k Hk. unfold metricNames in Hk.
    repeat (apply elem_of_cons in Hk as [-> | Hk]);
      try (by right; eexists); try (by left).
    by apply elem_of_nil in Hk.
  - repeat constructor.
  - by exists out.
Defined.

Lemma calculatePeriodChanges_unchanged_witness :
  let r : row := {[ channelKey := Str "Email"; ("sessions" : str) := number 7 ]} in
  exists out,
    @calculatePeriodChanges decimal [r] [r] !! 0 = Some out
    /\ forall k v, changes out !! k = Some v -> exists q, v = number q /\ (q == 0)%Q.
Proof.
  cbv zeta.
  apply (@calculatePeriodChanges_unchanged decimal
           [ {[ channelKey := Str "Email"; ("sessions" : str) := number 7 ]} ]
           [ {[ channelKey := Str "Email"; ("sessions" : str) := number 7 ]} ]
           0 _ eq_refl).
  - apply Forall_forall. intros k Hk. unfold metricNames in Hk.
    repeat (apply elem_of_cons in Hk as [-> | Hk]);
      try (by right; eexists); try (by left).
    by apply elem_of_nil in Hk.
  - intros k _. reflexivity.
Defined.

(** ** More on parseGA4Response *)

Lemma mapM_result_inv {A B} (f : A -> result B) (l : list A) (k : list B) :
  mapM f l = Ok k -> Forall2 (fun x y => f x = Ok y) l k.
Proof.
  revert k. induction l as [|x l IH]; intros k.
  - intros [= <-]. constructor.
  - rewrite mapM_result_cons. intros Hk.
    apply result_bind_Ok in Hk as (y & Hy & Hk).
    apply result_bind_Ok in Hk as (k' & Hk' & Hk).
    injection Hk as <-. constructor; [done | by apply IH].
Qed.

(** The error of the first element on which the callback throws is the
    error of [map]. *)
Lemma mapM_result_Throw {A B} (f : A -> result B) (l : list A) (x : A) (e : str) :
  x ∈ l -> f x = Throw e ->
  (forall y e', f y = Throw e' -> e' = e) ->
  mapM f l = Throw e.
Proof.
  intros Hx Hfx Hsame. induction Hx as [x l | x y l Hx IH].
  - by rewrite mapM_result_cons, Hfx.
  - rewrite mapM_result_cons. destruct (f y) as [z|e'] eqn:Hy; simpl.
    + by rewrite IH.
    + by rewrite (Hsame _ _ Hy).
Qed.

Lemma forEachHeader_Throw (f : header -> str -> cell) (values : list dataValue)
    (index : nat) (headers : list header) (r0 : row) :
  index <= length values ->
  length values < index + length headers ->
  forEachHeader f values index headers r0 = Throw noValue.
Proof.
  revert index r0. induction headers as [|h headers IH]; intros index r0 Hindex Hlen.
  - simpl in Hlen. lia.
  - cbn [forEachHeader]. unfold valueAt.
    destruct (values !! index) as [v|] eqn:Hv; [|done]. simpl.
    apply lookup_lt_Some in Hv. apply IH; simpl in Hlen; lia.
Qed.

Lemma forEachHeader_error (f : header -> str -> cell) (values : list dataValue)
    (index : nat) (headers : list header) (r0 : row) (e : str) :
  forEachHeader f values index headers r0 = Throw e -> e = noValue.
Proof.
  revert index r0. induction headers as [|h headers IH]; intros index r0; [done|].
  cbn [forEachHeader]. unfold valueAt.
  destruct (values !! index) as [v|]; simpl; [apply IH | by intros [= <-]].
Qed.

Lemma forEachHeader_dom (f : header -> str -> cell) (values : list dataValue)
    (index : nat) (headers : list header) (r0 r : row) :
  forEachHeader f values index headers r0 = Ok r ->
  dom r = dom r0 ∪ list_to_set (name <$> headers).
Proof.
  revert index r0. induction headers as [|h headers IH]; intros index r0 Hr.
  - injection Hr as <-. rewrite fmap_nil, list_to_set_nil. by rewrite (right_id_L ∅ (∪)).
  - cbn [forEachHeader] in Hr. unfold valueAt in Hr.
    destruct (values !! index) as [v|]; [|done]. simpl in Hr.
    rewrite (IH _ _ Hr), dom_insert_L, fmap_cons, list_to_set_cons.
    apply set_eq. intros k. rewrite !elem_of_union. tauto.
Qed.

Section MoreParseFacts.
Context `{Builtins}.

Lemma parseRow_error (resp : response) (r : reportRow) (e : str) :
  parseRow resp r = Throw e -> e = noValue.
Proof.
  unfold parseRow.
  destruct (match dimensionValues r, dimensionHeaders resp with
            | Some values, Some headers =>
                forEachHeader (fun _ v => Str v) values 0 headers ∅
            | _, _ => Ok ∅
            end) as [d|e'] eqn:Hd; simpl.
  - destruct (metricValues r) as [values|], (metricHeaders resp) as [headers|]; try done.
    apply forEachHeader_error.
  - intros [= <-].
    destruct (dimensionValues r) as [values|], (dimensionHeaders resp) as [headers|];
      try done.
    by apply forEachHeader_error in Hd.
Qed.

Lemma parseRow_short (resp : response) (r : reportRow)
    (values : list dataValue) (headers : list header) :
  dimensionValues r = Some values /\ dimensionHeaders resp = Some headers
  \/ metricValues r = Some values /\ metricHeaders resp = Some headers ->
  length values < length headers ->
  parseRow resp r = Throw noValue.
Proof.
  intros Hwhich Hlen.
  destruct (parseRow resp r) as [o|e] eqn:Ho; [|by rewrite (parseRow_error _ _ _ Ho)].
  exfalso. unfold parseRow in Ho.
  apply result_bind_Ok in Ho as (d & Hd & Ho).
  destruct Hwhich as [[Hv Hh] | [Hv Hh]].
  - rewrite Hv, Hh in Hd. by rewrite forEachHeader_Throw in Hd by (simpl; lia).
  - rewrite Hv, Hh in Ho. by rewrite forEachHeader_Throw in Ho by (simpl; lia).
Qed.

(** X10.  A row that has fewer values than the response has headers, of
    dimensions or of metrics, makes [parseGA4Response] throw a
    [TypeError]: no row of the report is returned then, not even those
    before it. *)
Theorem parseGA4Response_short_row (resp : response) (rs : list reportRow)
    (r : reportRow) (values : list dataValue) (headers : list header) :
  rows resp = Some rs -> r ∈ rs ->
  dimensionValues r = Some values /\ dimensionHeaders resp = Some headers
  \/ metricValues r = Some values /\ metricHeaders resp = Some headers ->
  length values < length headers ->
  parseGA4Response resp
  = Throw (typeError "Cannot read properties of undefined (reading 'value')").
Proof.
  intros Hrows Hr Hwhich Hlen. unfold parseGA4Response. rewrite Hrows.
  destruct rs as [|r0 rs]; [by apply elem_of_nil in Hr|].
  apply (mapM_result_Throw _ _ r); [done | by eapply parseRow_short |].
  intros y e. apply parseRow_error.
Qed.

Lemma parseRow_dom (resp : response) (r : reportRow) (o : row) :
  parseRow resp r = Ok o ->
  dom o = namesOf (dimensionValues r) (dimensionHeaders resp)
          ∪ namesOf (metricValues r) (metricHeaders resp).
Proof.
  unfold parseRow. intros Ho. apply result_bind_Ok in Ho as (d & Hd & Ho).
  assert (dom d = namesOf (dimensionValues r) (dimensionHeaders resp)) as Hdom.
  { unfold namesOf.
    destruct (dimensionValues r) as [values|], (dimensionHeaders resp) as [headers|];
      try (injection Hd as <-; apply dom_empty_L).
    rewrite (forEachHeader_dom _ _ _ _ _ _ Hd), dom_empty_L.
    by rewrite (left_id_L ∅ (∪)). }
  unfold namesOf at 2.
  destruct (metricValues r) as [values|], (metricHeaders resp) as [headers|];
    try (injection Ho as <-; by rewrite Hdom, (right_id_L ∅ (∪))).
  by rewrite (forEachHeader_dom _ _ _ _ _ _ Ho), Hdom.
Qed.

Lemma parseRow_dimensions (resp : response) (r : reportRow) (o : row)
    (values : list dataValue) (headers : list header) (k : str) :
  parseRow resp r = Ok o ->
  dimensionValues r = Some values -> dimensionHeaders resp = Some headers ->
  k ∈ name <$> headers ->
  k ∉ namesOf (metricValues r) (metricHeaders resp) ->
  exists i h v,
    headers !! i = Some h /\ name h = k /\ values !! i = Some v
    /\ o !! k = Some (Str (value v)).
Proof.
  unfold parseRow. intros Ho Hvalues Hheaders Hk Hnot.
  apply result_bind_Ok in Ho as (d & Hd & Ho).
  rewrite Hvalues, Hheaders in Hd.
  destruct (forEachHeader_lookup _ _ _ _ _ _ _ Hd Hk)
    as (i & h & v & Hi & Hname & Hv & Hlookup).
  exists i, h, v. repeat split; try done.
  rewrite <- Hlookup. unfold namesOf in Hnot.
  destruct (metricValues r) as [mvalues|], (metricHeaders resp) as [mheaders|];
    try (by injection Ho as <-).
  apply (forEachHeader_frame _ _ _ _ _ _ _ Ho).
  by rewrite elem_of_list_to_set in Hnot.
Qed.

(** X11.  In the list [parseGA4Response] returns there is one object for
    each row of the response, in the order of the rows.  Its properties
    are exactly the names of the dimension headers and of the metric
    headers, and a dimension whose name no metric bears holds the text of
    the response unchanged, as a string. *)
Theorem parseGA4Response_rows (resp : response) (out : list row) :
  parseGA4Response resp = Ok out ->
  Forall2
    (fun r o =>
       dom o = namesOf (dimensionValues r) (dimensionHeaders resp)
                ∪ namesOf (metricValues r) (metricHeaders resp)
       /\ forall values headers k,
            dimensionValues r = Some values -> dimensionHeaders resp = Some headers ->
            k ∈ name <$> headers ->
            k ∉ namesOf (metricValues r) (metricHeaders resp) ->
            exists i h v,
              headers !! i = Some h /\ name h = k /\ values !! i = Some v
              /\ o !! k = Some (Str (value v)))
    (default [] (rows resp)) out.
Proof.
  unfold parseGA4Response. intros Hout.
  assert (Forall2 (fun r o => parseRow resp r = Ok o) (default [] (rows resp)) out)
    as Hrows.
  { destruct (rows resp) as [[|r rs]|]; simpl.
    - injection Hout as <-. constructor.
    - by apply mapM_result_inv.
    - injection Hout as <-. constructor. }
  eapply Forall2_impl; [exact Hrows|].
  intros r o Ho. split; [by apply parseRow_dom|].
  intros values headers k. by apply parseRow_dimensions.
Qed.

End MoreParseFacts.

Lemma parseGA4Response_short_row_witness :
  let resp := {| rows := Some [ {| dimensionValues := Some [];
                                   metricValues := None |} ];
                 dimensionHeaders := Some [ {| name := "country" |} ];
                 metricHeaders := None |} in
  @parseGA4Response decimal resp
  = Throw (typeError "Cannot read properties of undefined (reading 'value')").
Proof.
  cbv zeta.
  eapply (@parseGA4Response_short_row decimal _ _ _ [] [ {| name := "country" |} ]).
  - reflexivity.
  - by left.
  - left. split; reflexivity.
  - simpl. lia.
Defined.

Lemma parseGA4Response_rows_witness :
  let resp := {| rows := Some [ {| dimensionValues := Some [ {| value := "France" |} ];
                                   metricValues := None |} ];
                 dimensionHeaders := Some [ {| name := "country" |} ];
                 metricHeaders := None |} in
  let out : list row := [ <[ ("country" : str) := Str "France" ]> ∅ ] in
  length (default [] (rows resp)) = length out.
Proof.
  cbv zeta.
  refine (Forall2_length _ _ _ (@parseGA4Response_rows decimal _ _ _)).
  reflexivity.
Defined.

(** ** The object in the answer of the language model *)

(** A greedy repetition stops at the last place where what follows the
    repetition in the pattern matches. *)
Lemma matchStar_greedy_last {A} f pre post c (k : str -> captures -> option A) :
  Forall (fun ch => f ch = true) pre ->
  is_Some (k post c) ->
  (forall a b, post = a ++ b -> a <> [] -> k b c = None) ->
  matchStar true f (pre ++ post) c k = k post c.
Proof.
  intros Hpre [x Hx] Hlast.
  assert (matchStar true f post c k = k post c) as Hpost.
  { destruct post as [|ch post]; [done|]. simpl.
    destruct (f ch); [|done].
    rewrite matchStar_fail; [done|].
    intros a b -> _. by apply (Hlast (ch :: a) b). }
  induction Hpre as [|ch pre Hch _ IH]; [done|].
  simpl. rewrite Hch, IH, Hx. done.
Qed.

Lemma startsWith_not_head (a ch : ascii) (s : str) :
  a <> ch -> startsWith [a] (ch :: s) = false.
Proof.
  intros Hne. simpl. destruct (Ascii.eqb a ch) eqn:Heq; [|done].
  by apply Ascii.eqb_eq in Heq.
Qed.

Lemma jsonObject_here n (b c : str) :
  "}"%char ∉ c ->
  matchRe n jsonObjectPattern ("{" ++ b ++ "}" ++ c) [] (accept ("{" ++ b ++ "}" ++ c))
  = Some {| matched := "{" ++ b ++ "}"; groups := [] |}.
Proof.
  intros Hc. unfold jsonObjectPattern. cbn [matchRe].
  rewrite startsWith_app, drop_app_length.
  rewrite matchStar_greedy_last.
  - rewrite startsWith_app, drop_app_length.
    unfold accept. do 2 f_equal.
    replace ("{" ++ b ++ "}" ++ c) with (("{" ++ b ++ "}") ++ c)
      by (by rewrite <- !app_assoc).
    apply take_consumed.
  - by apply Forall_forall.
  - rewrite startsWith_app. by eexists.
  - intros a b' Hsplit Ha. destruct a as [|ch a]; [done|].
    injection Hsplit as _ ->.
    destruct b' as [|ch' b']; [done|].
    change (list_ascii_of_string "}") with ["}"%char].
    rewrite startsWith_not_head; [done|].
    intros <-. apply Hc. apply elem_of_app. right. by left.
Qed.

Lemma jsonObject_sound n (s : str) m :
  matchRe n jsonObjectPattern s [] (accept s) = Some m ->
  exists b c, s = "{" ++ b ++ "}" ++ c.
Proof.
  unfold jsonObjectPattern. cbn [matchRe].
  destruct (startsWith "{" s) eqn:Hopen; [|done].
  apply startsWith_inv in Hopen.
  intros (b & post & Hsplit & _ & Hk)%matchStar_sound.
  destruct (startsWith "}" post) eqn:Hclose; [|done].
  apply startsWith_inv in Hclose.
  exists b, (drop (length (list_ascii_of_string "}")) post).
  by rewrite <- Hclose, <- Hsplit.
Qed.

(** X12.  What is handed to [JSON.parse] is the part of the answer from
    its first opening brace to its last closing brace, whatever stands
    between them; when no closing brace follows an opening one, nothing is
    parsed. *)
Theorem jsonObjectIn_spec :
  (forall a b c : str,
     "{"%char ∉ a -> "}"%char ∉ c ->
     jsonObjectIn (a ++ "{" ++ b ++ "}" ++ c) = Some ("{" ++ b ++ "}"))
  /\ (forall clean : str,
        (forall a b c : str, clean <> a ++ "{" ++ b ++ "}" ++ c) ->
        jsonObjectIn clean = None).
Proof.
  split.
  - intros a b c Ha Hc. unfold jsonObjectIn, match_.
    rewrite searchFrom_skip.
    + rewrite searchFrom_eq. by rewrite jsonObject_here.
    + intros i Hi. rewrite drop_app_le by lia.
      destruct (drop i a) as [|ch t] eqn:Hdrop.
      { apply (f_equal length) in Hdrop. rewrite length_drop in Hdrop. simpl in Hdrop. lia. }
      unfold jsonObjectPattern. cbn [matchRe].
      change ((ch :: t) ++ ?r) with (ch :: t ++ r).
      change (list_ascii_of_string "{") with ["{"%char].
      rewrite startsWith_not_head; [done|].
      intros <-. apply Ha. rewrite <- (take_drop i a), Hdrop.
      apply elem_of_app. right. by left.
  - intros clean Hnone. unfold jsonObjectIn, match_.
    rewrite searchFrom_none; [done|].
    intros i _.
    destruct (matchRe _ jsonObjectPattern (drop i clean) [] _) as [m|] eqn:Hm; [|done].
    apply jsonObject_sound in Hm as (b & c & Hsplit).
    exfalso. apply (Hnone (take i clean) b c).
    by rewrite <- Hsplit, take_drop.
Qed.

Lemma jsonObjectIn_spec_witness :
  jsonObjectIn "Here you are: {issues: [{}]} - done"
  = Some (list_ascii_of_string "{issues: [{}]}").
Proof.
  apply (proj1 jsonObjectIn_spec "Here you are: " "issues: [{}]" " - done").
  - apply (bool_decide_unpack _). vm_compute. exact I.
  - apply (bool_decide_unpack _). vm_compute. exact I.
Defined.

(** ** isRelevantContent *)

Lemma isSpace_lowerChar (c : ascii) : isSpace (lowerChar c) = isSpace c.
Proof. by destruct c as [[] [] [] [] [] [] [] []]. Qed.

Lemma lowerChar_idempotent (c : ascii) : lowerChar (lowerChar c) = lowerChar c.
Proof. by destruct c as [[] [] [] [] [] [] [] []]. Qed.

Lemma toLowerCase_idempotent (s : str) : toLowerCase (toLowerCase s) = toLowerCase s.
Proof.
  unfold toLowerCase. rewrite map_map. apply map_ext. apply lowerChar_idempotent.
Qed.

(** A text without white space is a single piece. *)
Lemma splitSpaces_from_word (acc word : str) :
  Forall (fun c => isSpace c = false) word ->
  splitSpaces_from false acc word = [rev acc ++ word].
Proof.
  intros Hword. revert acc. induction Hword as [|c word Hc _ IH]; intros acc; simpl.
  - by rewrite app_nil_r.
  - rewrite Hc, IH. simpl. by rewrite <- app_assoc.
Qed.

(** White space at the end leaves an empty last piece. *)
Lemma splitSpaces_from_last (inRun : bool) (acc s : str) (c : ascii) :
  (inRun = true -> acc = []) ->
  isSpace c = true ->
  exists l, splitSpaces_from inRun acc (s ++ [c]) = l ++ [[]].
Proof.
  intros Hacc Hc. revert inRun acc Hacc.
  induction s as [|d s IH]; intros inRun acc Hacc; simpl.
  - rewrite Hc. destruct inRun.
    + rewrite Hacc by done. by exists [].
    + by exists [rev acc].
  - destruct (isSpace d).
    + destruct inRun.
      * by apply IH.
      * destruct (IH true []) as [l ->]; [done|]. by exists (rev acc :: l).
    + by apply IH.
Qed.

Lemma filter_length_all {A} (f : A -> bool) (l : list A) :
  Forall (fun x => f x = true) l -> List.filter f l = l.
Proof.
  induction 1 as [|x l Hx _ IH]; [done|]. simpl. by rewrite Hx, IH.
Qed.

Lemma includes_nil (s : str) : includes [] s = true.
Proof. by rewrite includes_eq. Qed.

(** X13.  A query is relevant to every content that holds each of its
    terms, the empty query to every content at all; a query of a single
    word is relevant to the contents that hold the word, whatever the case
    of the letters on either side. *)
Theorem isRelevantContent_terms (content : str) :
  (forall query,
     Forall (fun term => includes term (toLowerCase content) = true)
            (splitSpaces (toLowerCase query)) ->
     isRelevantContent content query = true)
  /\ isRelevantContent content [] = true
  /\ (forall word,
        Forall (fun c => isSpace c = false) word ->
        isRelevantContent content word
        = includes (toLowerCase word) (toLowerCase content)).
Proof.
  split; [|split].
  - intros query Hall. unfold isRelevantContent. cbv zeta.
    rewrite (filter_length_all _ _ Hall). apply Nat.leb_le. lia.
  - unfold isRelevantContent. cbv zeta. cbn [toLowerCase map splitSpaces splitSpaces_from rev List.filter].
    by rewrite includes_nil.
  - intros word Hword. unfold isRelevantContent, splitSpaces. cbv zeta.
    rewrite splitSpaces_from_word.
    + simpl. by destruct (includes (toLowerCase word) (toLowerCase content)).
    + unfold toLowerCase. apply Forall_map.
      eapply Forall_impl; [exact Hword|]. intros c Hc. simpl.
      by rewrite isSpace_lowerChar.
Qed.

(** X14.  A query that starts and ends with white space is relevant to
    every content: the empty pieces that [split] leaves at its two ends
    are terms, they occur in any text, and two terms are enough. *)
Theorem isRelevantContent_padded (content query : str) (first last : ascii) :
  isSpace first = true -> isSpace last = true ->
  isRelevantContent content (first :: query ++ [last]) = true.
Proof.
  intros Hfirst Hlast. unfold isRelevantContent, splitSpaces. cbv zeta.
  unfold toLowerCase. rewrite map_cons, map_app. cbn [map splitSpaces_from].
  rewrite isSpace_lowerChar, Hfirst.
  destruct (splitSpaces_from_last true [] (map lowerChar query) (lowerChar last))
    as [l ->]; [done | by rewrite isSpace_lowerChar |].
  cbn [rev List.filter]. rewrite includes_nil.
  rewrite List.filter_app. cbn [List.filter]. rewrite includes_nil.
  cbn [length]. rewrite !length_app. cbn [length]. apply Nat.leb_le. lia.
Qed.

(** X15.  The case of the letters counts neither in the content nor in
    the query. *)
Theorem isRelevantContent_case (content query : str) :
  isRelevantContent (toLowerCase content) (toLowerCase query)
  = isRelevantContent content query.
Proof. unfold isRelevantContent. by rewrite !toLowerCase_idempotent. Qed.

Lemma isRelevantContent_terms_witness :
  isRelevantContent "Use the Oxford comma." "OXFORD" = true.
Proof.
  rewrite (proj2 (proj2 (isRelevantContent_terms "Use the Oxford comma.")) "OXFORD").
  - reflexivity.
  - repeat constructor.
Defined.

Lemma isRelevantContent_padded_witness :
  isRelevantContent "Use the Oxford comma." (" "%char :: "semicolon dash" ++ [nl]) = true.
Proof. by apply isRelevantContent_padded. Defined.

(** ** The address of the vector database *)

Lemma startsWith_split (a b s : str) :
  startsWith (a ++ b) s = startsWith a s && startsWith b (drop (length a) s).
Proof.
  revert s. induction a as [|c a IH]; intros s; [done|].
  destruct s as [|d s]; [done|]. simpl. by rewrite IH, andb_assoc.
Qed.

Lemma replaceFrom_eq n r replacement s :
  replaceFrom n r replacement s =
  match matchRe n r s [] (accept s) with
  | Some m => replacement ++ drop (length (matched m)) s
  | None =>
      match s with
      | [] => []
      | ch :: s' => ch :: replaceFrom n r replacement s'
      end
  end.
Proof. by destruct s. Qed.

(** A string in which the pattern matches nowhere is left as it is. *)
Lemma replaceFrom_none n r replacement s :
  (forall i, i <= length s -> matchRe n r (drop i s) [] (accept (drop i s)) = None) ->
  replaceFrom n r replacement s = s.
Proof.
  induction s as [|ch s IH]; intros Hnone; rewrite replaceFrom_eq.
  - pose proof (Hnone 0 ltac:(done)) as H0.
    change (drop 0 (@nil ascii)) with (@nil ascii) in H0. by rewrite H0.
  - pose proof (Hnone 0 ltac:(simpl; lia)) as H0.
    change (drop 0 (ch :: s)) with (ch :: s) in H0. rewrite H0.
    f_equal. apply IH. intros i Hi. apply (Hnone (S i)). simpl. lia.
Qed.

Lemma replace_https (host : str) : replace protocolPattern "" ("https://" ++ host) = host.
Proof.
  unfold replace. rewrite replaceFrom_eq.
  unfold protocolPattern, ROpt. cbn [matchRe]. rewrite Nat.eqb_refl.
  change (startsWith "http" ("https://" ++ host)) with true.
  change (drop (length "http") ("https://" ++ host)) with ("s://" ++ host).
  change (startsWith "s" ("s://" ++ host)) with true.
  change (drop (length "s") ("s://" ++ host)) with ("://" ++ host).
  change (startsWith "://" ("://" ++ host)) with true.
  change (drop (length "://") ("://" ++ host)) with host.
  unfold orElse, accept. cbn [matched].
  by rewrite take_consumed, drop_app_length.
Qed.

Lemma replace_http (host : str) : replace protocolPattern "" ("http://" ++ host) = host.
Proof.
  unfold replace. rewrite replaceFrom_eq.
  unfold protocolPattern, ROpt. cbn [matchRe]. rewrite Nat.eqb_refl.
  change (startsWith "http" ("http://" ++ host)) with true.
  change (drop (length "http") ("http://" ++ host)) with ("://" ++ host).
  change (startsWith "s" ("://" ++ host)) with false.
  change (startsWith "://" ("://" ++ host)) with true.
  change (drop (length "://") ("://" ++ host)) with host.
  unfold orElse, accept. cbn [matched].
  by rewrite take_consumed, drop_app_length.
Qed.

Lemma replace_no_protocol (host : str) :
  startsWith "https://" host = false -> startsWith "http://" host = false ->
  replace protocolPattern "" host = host.
Proof.
  intros Hhttps Hhttp. unfold replace. apply replaceFrom_none. intros i Hi.
  unfold protocolPattern, ROpt. cbn [matchRe].
  destruct (length (drop i host) =? length host) eqn:Hlen; [|done].
  apply Nat.eqb_eq in Hlen. rewrite length_drop in Hlen.
  assert (drop i host = host) as ->.
  { destruct host; [by rewrite drop_nil|]. simpl in Hlen.
    by replace i with 0 by lia. }
  change (list_ascii_of_string "https://") with ("http" ++ "s" ++ "://") in Hhttps.
  change (list_ascii_of_string "http://") with ("http" ++ "://") in Hhttp.
  rewrite !startsWith_split in Hhttps. rewrite startsWith_split in Hhttp.
  destruct (startsWith "http" host); [|done].
  rewrite andb_true_l in Hhttps, Hhttp.
  unfold orElse. rewrite Hhttp.
  destruct (startsWith "s" (drop (length "http") host)); [|done].
  rewrite andb_true_l in Hhttps. by rewrite Hhttps.
Qed.

(** X16.  The address which the queries and the uploads are sent to does
    not depend on whether the configured host is written with its
    protocol: one leading [https://] or [http://] is dropped, and only
    one, before [https://] is put in front. *)
Theorem pineconeUrl_protocol (host path : str) :
  pineconeUrl ("https://" ++ host) path = "https://" ++ host ++ path
  /\ pineconeUrl ("http://" ++ host) path = "https://" ++ host ++ path
  /\ (startsWith "https://" host = false -> startsWith "http://" host = false ->
      pineconeUrl host path = "https://" ++ host ++ path).
Proof.
  unfold pineconeUrl. cbv zeta. split; [|split].
  - by rewrite replace_https.
  - by rewrite replace_http.
  - intros Hhttps Hhttp. by rewrite replace_no_protocol.
Qed.

Lemma pineconeUrl_protocol_witness :
  pineconeUrl "rules-1a2b.svc.pinecone.io" "/query"
  = list_ascii_of_string "https://rules-1a2b.svc.pinecone.io/query".
Proof.
  apply (proj2 (proj2 (pineconeUrl_protocol "rules-1a2b.svc.pinecone.io" "/query")));
    reflexivity.
Defined.

(** ** Uploading a document to the vector database *)

Lemma isDigit_digits (d : Decimal.uint) :
  Forall (fun c => isDigit c = true) (list_ascii_of_string (NilEmpty.string_of_uint d)).
Proof. induction d; simpl; by constructor. Qed.

Lemma showNat_digits (n : nat) : Forall (fun c => isDigit c = true) (showNat n).
Proof. apply isDigit_digits. Qed.

Lemma showNat_inj (n m : nat) : showNat n = showNat m -> n = m.
Proof.
  unfold showNat. intros Heq.
  apply (f_equal string_of_list_ascii) in Heq.
  rewrite !string_of_list_ascii_of_string in Heq.
  apply (f_equal NilEmpty.uint_of_string) in Heq.
  rewrite !NilEmpty.usu in Heq. injection Heq as Heq.
  by apply DecimalNat.Unsigned.to_uint_inj.
Qed.

(** Two texts that end with an underscore and digits are the same when
    what stands before the underscore and the digits are the same. *)
Lemma digits_after_underscore (a b da db : str) :
  Forall (fun c => isDigit c = true) da -> Forall (fun c => isDigit c = true) db ->
  a ++ "_"%char :: da = b ++ "_"%char :: db -> a = b /\ da = db.
Proof.
  intros Hda Hdb Heq.
  assert (rev da ++ "_"%char :: rev a = rev db ++ "_"%char :: rev b) as Hrev.
  { apply (f_equal (@rev ascii)) in Heq.
    rewrite !rev_app_distr in Heq. cbn [rev] in Heq.
    by rewrite <- !app_assoc in Heq. }
  apply Forall_rev in Hda, Hdb.
  assert (rev da = rev db /\ rev a = rev b) as [Hd Ha].
  { revert Hda Hdb Hrev. generalize (rev a) (rev b) (rev db) (rev da).
    intros ra rb rdb rda. revert rdb.
    induction rda as [|c rda IH]; intros [|c' rdb] Hda Hdb Hrev.
    - by injection Hrev as ->.
    - injection Hrev as <- _. by inversion Hdb.
    - injection Hrev as -> _. by inversion Hda.
    - injection Hrev as -> Hrev. inversion Hda; inversion Hdb; subst.
      destruct (IH rdb) as [-> ->]; done. }
  split.
  - by rewrite <- (rev_involutive a), Ha, rev_involutive.
  - by rewrite <- (rev_involutive da), Hd, rev_involutive.
Qed.

(** X17.  The id of a vector tells the document and the chunk: two
    chunks get the same id only when they are the same chunk of the same
    document, so an upload never overwrites a vector of another document,
    nor another chunk of its own. *)
Theorem vectorId_inj (docId docId' : str) (index index' : nat) :
  Upload.vectorId docId index = Upload.vectorId docId' index' ->
  docId = docId' /\ index = index'.
Proof.
  unfold Upload.vectorId. intros Heq.
  change (list_ascii_of_string "_chunk_") with ("_chunk" ++ ["_"%char]) in Heq.
  rewrite <- !app_assoc in Heq. cbn [app] in Heq.
  rewrite !(app_assoc _ "_chunk") in Heq.
  apply digits_after_underscore in Heq as [Hdoc Hindex]; try apply showNat_digits.
  split; [by apply app_inv_tail in Hdoc | by apply showNat_inj].
Qed.

Section UploadFacts.
Context `{Services} `{Upload.Database}.

(** The vector [uploadDocumentToPinecone] sends for a chunk. *)
Lemma uploadChunk_calls docId title namespace chunk index request :
  request ∈ (Upload.uploadChunk docId title namespace chunk index).1 ->
  (Upload.uploadChunk docId title namespace chunk index).1 = [request]
  /\ exists host embedding,
       Upload.PINECONE_HOST = Some host /\ getEmbedding chunk = Ok embedding
       /\ request = {| Upload.url := pineconeUrl host "/vectors/upsert";
                       Upload.apiKey := Upload.PINECONE_API_KEY;
                       Upload.vectors :=
                         [ {| Upload.id := Upload.vectorId docId index;
                              Upload.values := embedding;
                              Upload.metadata :=
                                {| Upload.text := chunk; Upload.source := title;
                                   Upload.documentId := docId;
                                   Upload.chunkIndex := index |} |} ];
                       Upload.namespace := namespace |}.
Proof.
  unfold Upload.uploadChunk, Upload.upsertToPinecone, Upload.quiet, Upload.traced_bind,
    Upload.traced_ret.
  destruct (getEmbedding chunk) as [embedding|]; simpl; [|by intros ?%elem_of_nil].
  destruct Upload.PINECONE_HOST as [host|]; simpl; [|by intros ?%elem_of_nil].
  destruct (Upload.fetch _) as [[code content]|]; simpl.
  - destruct (code =? 200); [destruct (JSON_parse _)|]; simpl;
      intros ->%list_elem_of_singleton; (split; [done|]); by exists host, embedding.
  - intros ->%list_elem_of_singleton. split; [done|]. by exists host, embedding.
Qed.

Lemma uploadChunk_Ok docId title namespace chunk index :
  (Upload.uploadChunk docId title namespace chunk index).2 = Ok tt ->
  length (Upload.uploadChunk docId title namespace chunk index).1 = 1.
Proof.
  unfold Upload.uploadChunk, Upload.upsertToPinecone, Upload.quiet, Upload.traced_bind,
    Upload.traced_ret.
  destruct (getEmbedding chunk) as [embedding|]; simpl; [|done].
  destruct Upload.PINECONE_HOST as [host|]; simpl; [|done].
  destruct (Upload.fetch _) as [[code content]|]; simpl; [|done].
  by destruct (code =? 200); [destruct (JSON_parse _)|].
Qed.

Lemma uploadChunk_Throw docId title namespace chunk index e :
  (Upload.uploadChunk docId title namespace chunk index).2 = Throw e ->
  length (Upload.uploadChunk docId title namespace chunk index).1 <= 1.
Proof.
  intros _.
  unfold Upload.uploadChunk, Upload.upsertToPinecone, Upload.quiet, Upload.traced_bind,
    Upload.traced_ret.
  destruct (getEmbedding chunk) as [embedding|]; simpl; [|lia].
  destruct Upload.PINECONE_HOST as [host|]; simpl; [|lia].
  destruct (Upload.fetch _) as [[code content]|]; simpl; [|lia].
  destruct (code =? 200); [destruct (JSON_parse _)|]; simpl; lia.
Qed.

(** The chunk that fails makes no request when its embedding cannot be
    had, or when no host is set. *)
Lemma uploadChunk_quiet docId title namespace chunk index e :
  (Upload.uploadChunk docId title namespace chunk index).2 = Throw e ->
  (Upload.uploadChunk docId title namespace chunk index).1 = []
  <-> (exists error, getEmbedding chunk = Throw error) \/ Upload.PINECONE_HOST = None.
Proof.
  unfold Upload.uploadChunk, Upload.upsertToPinecone, Upload.quiet, Upload.traced_bind,
    Upload.traced_ret.
  destruct (getEmbedding chunk) as [embedding|error]; simpl.
  2: { intros _. split; [|done]. intros _. left. by exists error. }
  destruct Upload.PINECONE_HOST as [host|]; simpl.
  2: { intros _. split; [|done]. intros _. by right. }
  intros _. split.
  - by destruct (Upload.fetch _) as [[code content]|];
      [destruct (code =? 200); [destruct (JSON_parse _)|]|].
  - by intros [[error ?] | ?].
Qed.

Lemma forEachFrom_calls docId title namespace chunks index :
  let run := Upload.forEachFrom (Upload.uploadChunk docId title namespace) index chunks in
  length run.1 <= length chunks
  /\ (run.2 = Ok tt -> length run.1 = length chunks)
  /\ (forall i request,
        run.1 !! i = Some request ->
        exists chunk,
          chunks !! i = Some chunk
          /\ request ∈ (Upload.uploadChunk docId title namespace chunk (index + i)).1)
  /\ (forall e,
        run.2 = Throw e ->
        exists k chunk,
          chunks !! k = Some chunk
          /\ k <= length run.1
          /\ Upload.uploadChunk docId title namespace chunk (index + k)
             = (drop k run.1, Throw e)
          /\ forall i c, i < k -> chunks !! i = Some c ->
               (Upload.uploadChunk docId title namespace c (index + i)).2 = Ok tt).
Proof.
  revert index. induction chunks as [|chunk chunks IH]; intros index; cbv zeta.
  - simpl. split; [done|]. split; [done|].
    split; [by intros i request Hi; rewrite lookup_nil in Hi|]. done.
  - cbn [Upload.forEachFrom]. unfold Upload.traced_bind.
    destruct (Upload.uploadChunk docId title namespace chunk index)
      as [calls [[]|e]] eqn:Hchunk.
    + pose proof (uploadChunk_Ok docId title namespace chunk index) as Hone.
      rewrite Hchunk in Hone. specialize (Hone eq_refl). simpl in Hone.
      destruct calls as [|call [|? ?]]; try done.
      destruct (IH (S index)) as (Hlen & Hok & Hcalls & Hthrow).
      destruct (Upload.forEachFrom _ (S index) chunks) as [calls' r]. simpl in *.
      split; [lia|]. split; [by intros ->%Hok|]. split.
      * intros [|i] request Hi; simpl in Hi.
        -- injection Hi as <-. exists chunk. split; [done|].
           rewrite Nat.add_0_r, Hchunk. by left.
        -- destruct (Hcalls i request Hi) as (chunk' & Hchunk' & Hin).
           exists chunk'. split; [done|].
           by replace (index + S i) with (S index + i) by lia.
      * intros e He. destruct (Hthrow e He) as (k & chunk' & Hk & Hle & Hfail & Hbefore).
        exists (S k), chunk'. split; [done|]. split; [lia|].
        replace (index + S k) with (S (index + k)) by lia. split; [done|].
        intros [|i] c Hi Hc; simpl in Hc.
        -- injection Hc as <-. by rewrite Nat.add_0_r, Hchunk.
        -- replace (index + S i) with (S (index + i)) by lia.
           apply Hbefore; [lia|done].
    + pose proof (uploadChunk_Throw docId title namespace chunk index e) as Hone.
      rewrite Hchunk in Hone. specialize (Hone eq_refl). simpl in *.
      split; [lia|]. split; [done|]. split.
      * intros i request Hi. destruct calls as [|call [|? ?]]; simpl in Hone; try lia.
        -- by rewrite lookup_nil in Hi.
        -- destruct i as [|i]; [|by rewrite lookup_cons, lookup_nil in Hi].
           injection Hi as <-. exists chunk. split; [done|].
           rewrite Nat.add_0_r, Hchunk. by left.
      * intros e' [= <-]. exists 0, chunk. split; [done|]. split; [lia|].
        rewrite Nat.add_0_r. split; [done|]. intros i c Hi. lia.
Qed.

(** X18.  [uploadDocumentToPinecone] sends the chunks of the document in
    their order, one call for each, the chunk of index [i] under the id
    made of the id of the document and [i]; it sends nothing for a
    document it cannot read.  When it returns, every chunk was sent.
    When it throws, it throws what the upload of some chunk [k] threw:
    the chunks before [k] were uploaded, their [k] calls were made and
    are not taken back, and after them comes the call for chunk [k], if
    its upload got as far as that: none when its embedding could not be
    had or no host is set, one otherwise. *)
Theorem uploadDocumentToPinecone_calls (docId namespace : str) :
  let run := Upload.uploadDocumentToPinecone docId namespace in
  match readGoogleDoc docId with
  | DocFailed error =>
      run = ([], Throw ("Error: Failed to read document: " ++ error))
  | DocRead title text _ =>
      let chunks := chunkText text 500 in
      length run.1 <= length chunks
      /\ (run.2 = Ok tt -> length run.1 = length chunks)
      /\ (forall i request,
            run.1 !! i = Some request ->
            exists chunk host embedding,
              chunks !! i = Some chunk
              /\ Upload.PINECONE_HOST = Some host /\ getEmbedding chunk = Ok embedding
              /\ request = {| Upload.url := pineconeUrl host "/vectors/upsert";
                              Upload.apiKey := Upload.PINECONE_API_KEY;
                              Upload.vectors :=
                                [ {| Upload.id := Upload.vectorId docId i;
                                     Upload.values := embedding;
                                     Upload.metadata :=
                                       {| Upload.text := chunk; Upload.source := title;
                                          Upload.documentId := docId;
                                          Upload.chunkIndex := i |} |} ];
                              Upload.namespace := namespace |})
      /\ (forall e,
            run.2 = Throw e ->
            exists k chunk,
              chunks !! k = Some chunk
              /\ Upload.uploadChunk docId title namespace chunk k = (drop k run.1, Throw e)
              /\ (forall i c, i < k -> chunks !! i = Some c ->
                    (Upload.uploadChunk docId title namespace c i).2 = Ok tt
                    /\ is_Some (run.1 !! i))
              /\ k <= length run.1 <= S k
              /\ (length run.1 = k
                  <-> (exists error, getEmbedding chunk = Throw error)
                      \/ Upload.PINECONE_HOST = None))
  end.
Proof.
  cbv zeta. unfold Upload.uploadDocumentToPinecone.
  destruct (readGoogleDoc docId) as [title text id|error]; [|done].
  cbv zeta.
  destruct (forEachFrom_calls docId title namespace (chunkText text 500) 0)
    as (Hlen & Hok & Hcalls & Hthrow).
  split; [done|]. split; [done|]. split.
  - intros i request Hi. destruct (Hcalls i request Hi) as (chunk & Hchunk & Hin).
    apply uploadChunk_calls in Hin as (_ & host & embedding & Hhost & Hembedding & ->).
    by exists chunk, host, embedding.
  - intros e He. destruct (Hthrow e He) as (k & chunk & Hk & Hle & Hfail & Hbefore).
    simpl in Hfail. exists k, chunk. split; [done|]. split; [done|].
    pose proof (uploadChunk_Throw docId title namespace chunk k e) as Hone.
    pose proof (uploadChunk_quiet docId title namespace chunk k e) as Hquiet.
    rewrite Hfail in Hone, Hquiet. simpl in Hone, Hquiet.
    specialize (Hone eq_refl). specialize (Hquiet eq_refl).
    rewrite length_drop in Hone.
    split; [|split; [lia|]].
    + intros i c Hi Hc. split; [by apply (Hbefore i c)|].
      apply lookup_lt_is_Some. lia.
    + rewrite <- Hquiet. split.
      * intros Hk'. apply nil_length_inv. rewrite length_drop. lia.
      * intros Hnil%(f_equal length). rewrite length_drop in Hnil. simpl in Hnil. lia.
Qed.

End UploadFacts.

Lemma vectorId_inj_witness :
  ("doc" : str) = ("doc" : str) /\ 12 = 12.
Proof. by apply vectorId_inj. Defined.

Lemma uploadDocumentToPinecone_calls_witness :
  length (@Upload.uploadDocumentToPinecone Upload.allUp Upload.accepting
            "doc" "writing-rules").1 = 1
  /\ let run := @Upload.uploadDocumentToPinecone Upload.twoChunks Upload.refusingSecond
                  "doc" "writing-rules" in
     run.2 = Throw "Error: Pinecone upsert failed with code 503"
     /\ exists k, 2 <= S k /\ k <= length run.1 <= S k.
Proof.
  split.
  - exact (proj1 (proj2 (@uploadDocumentToPinecone_calls Upload.allUp Upload.accepting
                           "doc" "writing-rules")) eq_refl).
  - cbv zeta. split; [vm_compute; reflexivity|].
    destruct (proj2 (proj2 (proj2 (@uploadDocumentToPinecone_calls
                                     Upload.twoChunks Upload.refusingSecond
                                     "doc" "writing-rules")))
                "Error: Pinecone upsert failed with code 503")
      as (k & chunk & Hk & Hfail & Hbefore & Hlen & Hquiet).
    + vm_compute. reflexivity.
    + exists k. split; [|exact Hlen].
      destruct k as [|k]; [|lia]. exfalso.
      vm_compute in Hfail. discriminate Hfail.
Defined.

Example uploadDocumentToPinecone_run :
  (@Upload.uploadDocumentToPinecone Upload.allUp Upload.accepting "doc" "writing-rules").2
  = Ok tt
  /\ Upload.id <$> ((@Upload.uploadDocumentToPinecone Upload.allUp Upload.accepting
                       "doc" "writing-rules").1 ≫= Upload.vectors)
     = [ "doc_chunk_0" : str ].
Proof. split; vm_compute; reflexivity. Qed.

(** ** Scheduling the report *)

Lemma showNat_nonEmpty (n : nat) : exists c s, showNat n = c :: s.
Proof.
  unfold showNat. destruct (Nat.to_uint n) eqn:Hn; simpl; eauto.
  exfalso. pose proof (DecimalNat.Unsigned.of_to n) as Hof. rewrite Hn in Hof.
  simpl in Hof. subst n. done.
Qed.

Lemma filter_negb_filter {A} (f : A -> bool) (l : list A) :
  List.filter f (List.filter (fun x => negb (f x)) l) = [].
Proof.
  induction l as [|x l IH]; [done|]. simpl.
  destruct (f x) eqn:Hx; simpl; [done|]. by rewrite Hx.
Qed.

Lemma filter_idempotent {A} (f : A -> bool) (l : list A) :
  List.filter f (List.filter f l) = List.filter f l.
Proof.
  induction l as [|x l IH]; [done|]. simpl.
  destruct (f x) eqn:Hx; simpl; [|done]. by rewrite Hx, IH.
Qed.

(** X19.  After [setupAutomation] the project has exactly one trigger
    for the scheduled handler, the one just asked for, however many it had
    before; the triggers of other handlers are left as they were. *)
Theorem setupAutomation_triggers (frequencyDays reportDays : option nat)
    (p : Report.project) :
  let p' := Report.setupAutomation frequencyDays reportDays p in
  List.filter
    (fun t => bool_decide (Report.handlerFunction t = Report.scheduledHandler))
    (Report.projectTriggers p')
  = [ {| Report.handlerFunction := Report.scheduledHandler;
         Report.when := Report.EveryDays (default 7 frequencyDays) 9 |} ]
  /\ List.filter
       (fun t => negb (bool_decide (Report.handlerFunction t = Report.scheduledHandler)))
       (Report.projectTriggers p')
     = List.filter
         (fun t => negb (bool_decide (Report.handlerFunction t = Report.scheduledHandler)))
         (Report.projectTriggers p).
Proof.
  cbv zeta. unfold Report.setupAutomation. cbv zeta. cbn [Report.projectTriggers].
  rewrite !List.filter_app. cbn [List.filter Report.handlerFunction].
  rewrite bool_decide_eq_true_2 by done. cbn [negb]. split.
  - by rewrite (filter_negb_filter
                  (fun t => bool_decide (Report.handlerFunction t = Report.scheduledHandler))).
  - by rewrite filter_idempotent, app_nil_r.
Qed.

(** X20.  Setting the automation up again replaces the earlier setting:
    the project is the one a single call with the last arguments gives. *)
Theorem setupAutomation_again (frequencyDays frequencyDays' reportDays reportDays'
    : option nat) (p : Report.project) :
  Report.setupAutomation frequencyDays' reportDays'
    (Report.setupAutomation frequencyDays reportDays p)
  = Report.setupAutomation frequencyDays' reportDays' p.
Proof.
  unfold Report.setupAutomation. cbv zeta.
  cbn [Report.projectTriggers Report.scriptProperties]. f_equal.
  - f_equal. rewrite List.filter_app. cbn [List.filter Report.handlerFunction].
    rewrite bool_decide_eq_true_2 by done. cbn [negb].
    by rewrite filter_idempotent, app_nil_r.
  - apply map_eq. intros k.
    destruct (decide (k = ("SCHEDULED_FREQUENCY" : str))) as [->|Hf].
    { by rewrite !lookup_insert_eq. }
    rewrite !(lookup_insert_ne _ ("SCHEDULED_FREQUENCY" : str)) by done.
    destruct (decide (k = ("SCHEDULED_REPORT_DAYS" : str))) as [->|Hr].
    { by rewrite !lookup_insert_eq. }
    by rewrite !lookup_insert_ne by done.
Qed.

(** X21.  The scheduled run reads back the number of days given to
    [setupAutomation], the default of 30 when none was given, and never
    falls back on the default otherwise: not for 0 days either, whose text
    is not empty. *)
Theorem scheduledReportDays_setup `{Builtins} (frequencyDays reportDays : option nat)
    (p : Report.project) :
  Report.scheduledReportDays (Report.setupAutomation frequencyDays reportDays p)
  = parseInt (showNat (default Report.REPORT_DAYS reportDays)).
Proof.
  unfold Report.scheduledReportDays, Report.storedReportDays, Report.setupAutomation.
  cbv zeta. cbn [Report.scriptProperties].
  rewrite lookup_insert_ne by done. rewrite lookup_insert_eq.
  by destruct (showNat_nonEmpty (default Report.REPORT_DAYS reportDays)) as (c & s & ->).
Qed.

(** ** Durations in the report *)

Lemma Qfloor_div_60 (q : Q) : Qfloor (q / 60) = (Qfloor q / 60)%Z.
Proof.
  destruct q as [n d]. unfold Qfloor, Qdiv, Qmult, Qinv. simpl.
  rewrite Z.mul_1_r, Pos2Z.inj_mul. by rewrite Z.div_div by lia.
Qed.

Lemma Qfloor_minus_60 (q : Q) (m : Z) :
  Qfloor (q - 60 * inject_Z m) = (Qfloor q - 60 * m)%Z.
Proof.
  destruct q as [n d]. unfold Qfloor, Qminus, Qplus, Qopp, Qmult, inject_Z. simpl.
  rewrite Z.mul_1_r, Pos.mul_1_r.
  replace (n + - (60 * m) * Z.pos d)%Z with (n + (- (60 * m)) * Z.pos d)%Z by lia.
  rewrite Z.div_add by lia. lia.
Qed.

(** X22.  For a duration that is not negative, [formatDuration] shows
    the whole seconds of it as minutes and seconds: the seconds are below
    60, and 60 times the minutes plus the seconds are the duration without
    its fraction. *)
Theorem formatDuration_parts `{Builtins} `{Report.Formatting} (q : Q) :
  (0 <= q)%Q ->
  let minutes := (Qfloor q / 60)%Z in
  let remainingSeconds := (Qfloor q mod 60)%Z in
  Report.formatDuration (Some (number q))
  = Report.numberToString (Fin (inject_Z minutes)) ++ "m "
    ++ Report.numberToString (Fin (inject_Z remainingSeconds)) ++ "s"
  /\ (0 <= minutes)%Z /\ (0 <= remainingSeconds < 60)%Z
  /\ (60 * minutes + remainingSeconds = Qfloor q)%Z.
Proof.
  intros Hq. cbv zeta.
  assert (0 <= Qfloor q)%Z as Hfloor.
  { change 0%Z with (Qfloor 0). by apply Qfloor_resp_le. }
  split; [|split; [|split]].
  - unfold Report.formatDuration, Report.floor, Report.rem, div, toNumber, number.
    cbv zeta. unfold num_div, Report.num_rem, Report.num_floor.
    change (isZero 60) with false. cbv iota.
    assert (isNegative (q / 60) = false) as Hsign.
    { unfold isNegative. apply negb_false_iff, Qle_bool_iff.
      apply Qle_shift_div_l; [done|]. by rewrite Qmult_0_l. }
    unfold Report.Qtruncate. rewrite Hsign.
    rewrite Qfloor_minus_60, Qfloor_div_60.
    by rewrite <- Z.mod_eq by lia.
  - apply Z.div_pos; lia.
  - apply Z.mod_pos_bound. lia.
  - rewrite (Z.div_mod (Qfloor q) 60) at 3 by lia. done.
Qed.

Lemma formatDuration_parts_witness :
  @Report.formatDuration decimal Report.wholeNumbers (Some (number 125))
  = list_ascii_of_string "2m 5s".
Proof.
  apply (@formatDuration_parts decimal Report.wholeNumbers 125). unfold Qle. simpl. lia.
Defined.

(** A negative duration is not shown by its size. *)
Example formatDuration_negative :
  @Report.formatDuration decimal Report.wholeNumbers (Some (number (-30)))
  = list_ascii_of_string "-1m -30s".
Proof. vm_compute. reflexivity. Qed.

(** ** Calling the language model *)

Lemma outcome_bind_Returned {A B} (m : Gemini.outcome A) (f : A -> Gemini.outcome B) b :
  m ≫= f = Gemini.Returned b -> exists a, m = Gemini.Returned a /\ f a = Gemini.Returned b.
Proof. destruct m as [a|e]; [by exists a | done]. Qed.

Section GeminiFacts.
Context `{Gemini.Api}.

(** X23.  [callGemini] returns only what is truthy, so never an empty
    text, and only from an answer with the response code 200 that
    [JSON.parse] read and whose [promptFeedback] is falsy or has a falsy
    [blockReason]; it then returns the text of the first part of the
    first candidate.  An answer with another code is thrown with its
    code and text, an answer that bears a block reason is thrown with the
    reason, also when it holds a candidate.  Whatever fails, the request,
    the code, the parsing or the shape of the answer, is thrown as an
    [Error] whose message starts in the same way. *)
Theorem callGemini_guard (messages : json) :
  (forall text,
     Gemini.callGemini messages = Gemini.Returned text ->
     Gemini.jsTruthy text = true
     /\ exists responseText result promptFeedback,
          Gemini.generateContent messages = Gemini.Returned (200, responseText)
          /\ Gemini.JSON_parse responseText = Gemini.Returned result
          /\ Gemini.prop result "promptFeedback" = Gemini.Returned promptFeedback
          /\ (Gemini.jsTruthy promptFeedback = false
              \/ exists blockReason,
                   Gemini.prop promptFeedback "blockReason" = Gemini.Returned blockReason
                   /\ Gemini.jsTruthy blockReason = false)
          /\ Gemini.candidateText result = Gemini.Returned text)
  /\ (forall responseText answer candidate others content part parts text,
        Gemini.generateContent messages = Gemini.Returned (200, responseText) ->
        Gemini.JSON_parse responseText = Gemini.Returned (VObj answer) ->
        answer !! ("promptFeedback" : str) = None ->
        answer !! ("candidates" : str) = Some (VArr (VObj candidate :: others)) ->
        candidate !! ("content" : str) = Some (VObj content) ->
        content !! ("parts" : str) = Some (VArr (VObj part :: parts)) ->
        part !! ("text" : str) = Some text ->
        Gemini.jsTruthy text = true ->
        Gemini.callGemini messages = Gemini.Returned text)
  /\ (forall responseText answer feedback blockReason,
        Gemini.generateContent messages = Gemini.Returned (200, responseText) ->
        Gemini.JSON_parse responseText = Gemini.Returned (VObj answer) ->
        answer !! ("promptFeedback" : str) = Some (VObj feedback) ->
        feedback !! ("blockReason" : str) = Some blockReason ->
        Gemini.jsTruthy blockReason = true ->
        Gemini.callGemini messages
        = Gemini.Thrown
            (Gemini.Error ("Failed to get response from Gemini: Content blocked: "
                           ++ Gemini.valueToString blockReason)))
  /\ (forall responseCode responseText,
        Gemini.generateContent messages = Gemini.Returned (responseCode, responseText) ->
        responseCode <> 200 ->
        Gemini.callGemini messages
        = Gemini.Thrown
            (Gemini.Error ("Failed to get response from Gemini: Gemini API error ("
                           ++ showNat responseCode ++ "): " ++ responseText)))
  /\ (forall error,
        Gemini.callGemini messages = Gemini.Thrown error ->
        exists message,
          error = Gemini.Error ("Failed to get response from Gemini: " ++ message)).
Proof.
  unfold Gemini.callGemini. split; [|split; [|split; [|split]]].
  - intros text Hcall.
    destruct (Gemini.callGemini_body messages) as [text'|] eqn:Hbody; [|done].
    injection Hcall as ->. unfold Gemini.callGemini_body in Hbody.
    apply outcome_bind_Returned in Hbody as ([code responseText] & Hfetch & Hbody).
    destruct (code =? 200) eqn:Hcode; [|done]. apply Nat.eqb_eq in Hcode as ->.
    cbn [negb] in Hbody.
    apply outcome_bind_Returned in Hbody as (result & Hparse & Hbody).
    apply outcome_bind_Returned in Hbody as (promptFeedback & Hfeedback & Hbody).
    apply outcome_bind_Returned in Hbody as (blocked & Hblocked & Hbody).
    destruct (Gemini.jsTruthy blocked) eqn:Hreason; [done|].
    apply outcome_bind_Returned in Hbody as (text' & Htext & Hbody).
    destruct (Gemini.jsTruthy text') eqn:Htruthy; [|done].
    injection Hbody as <-. split; [done|].
    exists responseText, result, promptFeedback. repeat split; try done.
    unfold Gemini.andThen in Hblocked.
    destruct (Gemini.jsTruthy promptFeedback) eqn:Hpf.
    + right. by exists blocked.
    + by left.
  - intros responseText answer candidate others content part parts text
      Hfetch Hparse Hfeedback Hcandidates Hcontent Hparts Htext Htruthy.
    cbv [list_ascii_of_string] in Hfeedback, Hcandidates, Hcontent, Hparts, Htext.
    unfold Gemini.callGemini_body. rewrite Hfetch. simpl. rewrite Hparse. simpl.
    rewrite Hfeedback. simpl.
    unfold Gemini.candidateText, Gemini.andThen, Gemini.first, Gemini.prop. simpl.
    rewrite Hcandidates. simpl. rewrite Hcontent. simpl. rewrite Hparts. simpl.
    rewrite Htext. simpl. by rewrite Htruthy.
  - intros responseText answer feedback blockReason Hfetch Hparse Hfeedback Hreason Htruthy.
    cbv [list_ascii_of_string] in Hfeedback, Hreason.
    unfold Gemini.callGemini_body. rewrite Hfetch. simpl. rewrite Hparse. simpl.
    rewrite Hfeedback. unfold Gemini.andThen, Gemini.prop. simpl.
    rewrite Hreason. simpl. by rewrite Htruthy.
  - intros responseCode responseText Hfetch Hcode.
    unfold Gemini.callGemini_body. rewrite Hfetch. simpl.
    apply Nat.eqb_neq in Hcode. by rewrite Hcode.
  - intros error Hcall.
    destruct (Gemini.callGemini_body messages) as [|error']; [done|].
    injection Hcall as <-. by eexists.
Qed.

End GeminiFacts.

Lemma callGemini_guard_witness :
  (exists responseText result promptFeedback,
     @Gemini.generateContent Gemini.answering VNull = Gemini.Returned (200, responseText)
     /\ @Gemini.JSON_parse Gemini.answering responseText = Gemini.Returned result
     /\ Gemini.prop result "promptFeedback" = Gemini.Returned promptFeedback
     /\ (Gemini.jsTruthy promptFeedback = false
         \/ exists blockReason,
              Gemini.prop promptFeedback "blockReason" = Gemini.Returned blockReason
              /\ Gemini.jsTruthy blockReason = false)
     /\ Gemini.candidateText result = Gemini.Returned (VStr "Hello!"))
  /\ @Gemini.callGemini Gemini.blocking VNull
     = Gemini.Thrown
         (Gemini.Error "Failed to get response from Gemini: Content blocked: SAFETY").
Proof.
  split.
  - apply (proj1 (@callGemini_guard Gemini.answering VNull) (VStr "Hello!")).
    vm_compute. reflexivity.
  - apply (proj1 (proj2 (proj2 (@callGemini_guard Gemini.blocking VNull)))
             ("{}" : str)
             (list_to_map
                [ ("promptFeedback" : str, obj [ ("blockReason" : str, VStr "SAFETY") ]);
                  ("candidates" : str,
                   VArr [ obj [ ("content" : str,
                                obj [ ("parts" : str,
                                       VArr [ obj [ ("text" : str, VStr "Hello!") ] ]) ]) ] ]) ])
             (list_to_map [ ("blockReason" : str, VStr "SAFETY") ])
             (VStr "SAFETY")); reflexivity.
Defined.

(** An answer without a candidate is an error, not an empty text. *)
Example callGemini_no_candidate :
  @Gemini.callGemini Gemini.noCandidate VNull
  = Gemini.Thrown
      (Gemini.Error
         "Failed to get response from Gemini: Unexpected response structure from Gemini").
Proof. vm_compute. reflexivity. Qed.

(** ** Charts *)

Lemma Qsum_nonneg (qs : list Q) : Forall (fun q => 0 <= q)%Q qs -> (0 <= Qsum qs)%Q.
Proof. induction 1 as [|q qs Hq _ IH]; simpl; [done | lra]. Qed.

Lemma Qsum_elem (qs : list Q) (q : Q) :
  Forall (fun q => 0 <= q)%Q qs -> q ∈ qs -> (q <= Qsum qs)%Q.
Proof.
  intros Hqs Hq. induction Hq as [q qs | q q' qs Hq IH]; simpl.
  - apply Forall_cons in Hqs as [_ Hqs%Qsum_nonneg]. lra.
  - apply Forall_cons in Hqs as [Hq' Hqs]. specialize (IH Hqs). lra.
Qed.

Lemma Qsum_share (qs : list Q) (whole : Q) :
  (Qsum ((fun q => q / whole * 100) <$> qs) == Qsum qs / whole * 100)%Q.
Proof.
  induction qs as [|q qs IH]; simpl; [unfold Qdiv; ring | rewrite IH; unfold Qdiv; ring].
Qed.

Lemma sessionsOf_nonneg data qs : sessionsOf data qs -> Forall (fun q => 0 <= q)%Q qs.
Proof. induction 1 as [|item q data qs [_ Hq] _ IH]; by constructor. Qed.

Lemma sessionsOf_elem data qs item :
  sessionsOf data qs -> item ∈ data ->
  exists q, q ∈ qs /\ item !! ("sessions" : str) = Some (number q).
Proof.
  induction 1 as [|item' q data qs [Hitem' _] _ IH]; intros Hitem.
  - by apply elem_of_nil in Hitem.
  - apply elem_of_cons in Hitem as [-> | Hitem].
    + exists q. split; [by left | done].
    + destruct (IH Hitem) as (q' & Hq' & Hlookup). exists q'. split; [by right | done].
Qed.

Lemma isZero_false (q : Q) : ~ (q == 0)%Q -> isZero q = false.
Proof.
  intros Hq. unfold isZero. destruct (Qeq_bool q 0) eqn:Heq; [|done].
  by apply Qeq_bool_iff in Heq.
Qed.

Lemma isZero_true (q : Q) : (q == 0)%Q -> isZero q = true.
Proof. intros Hq. by apply Qeq_bool_iff. Qed.

Section ChartFacts.
Context `{Builtins} `{Report.Formatting} `{Report.Drawing}.

(** The share of a row in a positive whole. *)
Lemma share_of (item : row) (q whole : Q) :
  item !! ("sessions" : str) = Some (number q) -> ~ (whole == 0)%Q ->
  num_mul (num_div (toNumber (item !! ("sessions" : str))) (Fin whole)) (Fin 100)
  = Fin (q / whole * 100).
Proof.
  intros -> Hwhole. unfold toNumber, number, num_div. by rewrite isZero_false.
Qed.

Lemma share_undefined (item : row) (q whole : Q) :
  item !! ("sessions" : str) = Some (number q) -> (q == 0)%Q -> (whole == 0)%Q ->
  num_mul (num_div (toNumber (item !! ("sessions" : str))) (Fin whole)) (Fin 100) = NaN.
Proof.
  intros -> Hq Hwhole. unfold toNumber, number, num_div. by rewrite !isZero_true.
Qed.

Lemma share_bounds (q whole : Q) :
  (0 <= q)%Q -> (q <= whole)%Q -> (0 < whole)%Q ->
  (0 <= q / whole * 100)%Q /\ (q / whole * 100 <= 100)%Q.
Proof.
  intros Hq Hle Hwhole.
  assert (0 <= q / whole)%Q by (apply Qle_shift_div_l; [done | lra]).
  assert (q / whole <= 1)%Q by (apply Qle_shift_div_r; [done | lra]).
  split; lra.
Qed.

(** *** The bar chart *)

Lemma maxValue_sessions data qs :
  sessionsOf data qs -> data <> [] ->
  exists m, Report.maxValue data = Fin m /\ m ∈ qs /\ Forall (fun q => q <= m)%Q qs.
Proof.
  induction 1 as [|item q data qs [Hitem Hq] Hrest IH]; intros Hne; [done|].
  unfold Report.maxValue. rewrite fmap_cons. cbn [foldr].
  rewrite Hitem. cbn [toNumber number].
  destruct data as [|item' data].
  - apply Forall2_nil_inv_l in Hrest as ->. exists q.
    split; [done|]. split; [by left|]. constructor; [lra | constructor].
  - destruct IH as (m & Hm & Hin & Hall); [done|].
    unfold Report.maxValue in Hm. rewrite Hm. cbn [Report.num_max].
    destruct (Qle_bool q m) eqn:Hle.
    + apply Qle_bool_iff in Hle. exists m. split; [done|]. split; [by right|].
      by constructor.
    + assert (m < q)%Q as Hlt.
      { apply Qnot_le_lt. intros Hle'%Qle_bool_iff. congruence. }
      exists q. split; [done|]. split; [by left|]. constructor; [lra|].
      eapply Forall_impl; [exact Hall|]. intros q' Hq'. simpl in Hq'. lra.
Qed.

(** X24.  In the bar chart of rows that have sessions, no bar is wider
    than the chart and the longest fills it: the widths are between 0 and
    100, and 100 for a row.  When no row has a session the widths are not
    numbers at all, the division by the largest value being unguarded. *)
Theorem generateBarChart_widths (data : list row) (qs : list Q) :
  sessionsOf data qs ->
  ((0 < Qsum qs)%Q ->
     (forall item, item ∈ data ->
        exists p, Report.percentage (Report.maxValue data) item = Fin p
                  /\ (0 <= p)%Q /\ (p <= 100)%Q)
     /\ exists item p,
          item ∈ data /\ Report.percentage (Report.maxValue data) item = Fin p
          /\ (p == 100)%Q)
  /\ ((Qsum qs == 0)%Q ->
      forall item, item ∈ data ->
        Report.percentage (Report.maxValue data) item = NaN).
Proof.
  intros Hdata. pose proof (sessionsOf_nonneg _ _ Hdata) as Hqs. split.
  - intros Hsome.
    assert (data <> []) as Hne.
    { intros ->. apply Forall2_nil_inv_l in Hdata as ->. simpl in Hsome. lra. }
    destruct (maxValue_sessions data qs Hdata Hne) as (m & -> & Hm & Hmax).
    assert (0 < m)%Q as Hpos.
    { apply Qnot_le_lt. intros Hle.
      assert (Qsum qs <= 0)%Q; [|lra].
      clear -Hmax Hle. induction Hmax as [|q qs Hq _ IH]; simpl; lra. }
    assert (~ (m == 0)%Q) as Hnz by lra.
    split.
    + intros item Hitem.
      destruct (sessionsOf_elem _ _ _ Hdata Hitem) as (q & Hq & Hlookup).
      exists (q / m * 100)%Q. unfold Report.percentage.
      rewrite (share_of _ _ _ Hlookup Hnz). split; [done|].
      apply share_bounds; [|by rewrite Forall_forall in Hmax; apply Hmax | done].
      rewrite Forall_forall in Hqs. by apply Hqs.
    + apply list_elem_of_lookup_1 in Hm as [i Hi].
      destruct (Forall2_lookup_r _ _ _ _ _ Hdata Hi) as (item & Hitem & Hlookup & _).
      exists item, (m / m * 100)%Q. split; [by eapply list_elem_of_lookup_2|].
      unfold Report.percentage. rewrite (share_of _ _ _ Hlookup Hnz).
      split; [done | by field].
  - intros Hnone item Hitem.
    assert (forall q, q ∈ qs -> (q == 0)%Q) as Hzero.
    { intros q Hq. pose proof (Qsum_elem _ _ Hqs Hq).
      rewrite Forall_forall in Hqs. specialize (Hqs q Hq). simpl in Hqs. lra. }
    assert (data <> []) as Hne by (by intros ->; apply elem_of_nil in Hitem).
    destruct (maxValue_sessions data qs Hdata Hne) as (m & -> & Hm & _).
    destruct (sessionsOf_elem _ _ _ Hdata Hitem) as (q & Hq & Hlookup).
    unfold Report.percentage. apply (share_undefined _ q); auto.
Qed.

(** *** The pie chart *)

Lemma total_sessions data qs (a : Q) :
  sessionsOf data qs ->
  exists t,
    fold_left (fun sum item => Report.add (Some sum) (item !! ("sessions" : str)))
              data (number a) = number t
    /\ (t == a + Qsum qs)%Q.
Proof.
  intros Hdata. revert a. induction Hdata as [|item q data qs [Hitem _] _ IH]; intros a.
  - exists a. split; [done|]. simpl. ring.
  - cbn [fold_left]. rewrite Hitem.
    change (Report.add (Some (number a)) (Some (number q))) with (number (a + q)).
    destruct (IH (a + q)%Q) as (t & -> & Ht). exists t. split; [done|].
    rewrite Ht. simpl. ring.
Qed.

Lemma large_counted (ps : list Q) :
  Forall (fun p => 0 <= p)%Q ps ->
  (1 <= length (List.filter isLarge ps) -> (50 < Qsum ps)%Q)
  /\ (2 <= length (List.filter isLarge ps) -> (100 < Qsum ps)%Q).
Proof.
  induction 1 as [|p ps Hp Hps [IH1 IH2]]; simpl; [lia|].
  pose proof (Qsum_nonneg _ Hps) as Hsum.
  destruct (isLarge p) eqn:Hlarge_p.
  - assert (50 < p)%Q as Hlt.
    { unfold isLarge in Hlarge_p. cbn [num_gt] in Hlarge_p.
      apply Qnot_le_lt. intros Hle%Qle_bool_iff. by rewrite Hle in Hlarge_p. }
    cbn [length]. split; intros Hlarge; [lra|].
    assert (50 < Qsum ps)%Q by (apply IH1; lia). lra.
  - split; intros Hlarge.
    + specialize (IH1 Hlarge). lra.
    + specialize (IH2 Hlarge). lra.
Qed.

(** X25.  In the pie chart of rows that have sessions, drawn without a
    total given, the shares are numbers between 0 and 100, larger for a
    row with more sessions: 0 for a row without sessions, 100 for a row
    that has all the sessions.  At most one segment is a large arc. *)
Theorem generatePieChart_shares (data : list row) (qs : list Q) :
  sessionsOf data qs -> (0 < Qsum qs)%Q ->
  exists ps,
    Report.percentOf (Report.total data None) <$> data = Fin <$> ps
    /\ Forall (fun p => 0 <= p /\ p <= 100)%Q ps
    /\ Forall2 (fun q p => ((q == 0)%Q -> (p == 0)%Q)
                           /\ ((q == Qsum qs)%Q -> (p == 100)%Q)) qs ps
    /\ (forall i j q q' p p',
          qs !! i = Some q -> qs !! j = Some q' ->
          ps !! i = Some p -> ps !! j = Some p' ->
          (q <= q')%Q -> (p <= p')%Q)
    /\ length (List.filter
                 (fun item =>
                    num_eq (Report.largeArcFlag
                              (Report.percentOf (Report.total data None) item))
                           (Fin 1))
                 data) <= 1.
Proof.
  intros Hdata Hsome. pose proof (sessionsOf_nonneg _ _ Hdata) as Hqs.
  unfold Report.total. cbn [truthy].
  destruct (total_sessions data qs 0 Hdata) as (t & -> & Ht).
  assert (t == Qsum qs)%Q as Ht' by (rewrite Ht; ring).
  assert (0 < t)%Q as Hpos by lra. assert (~ (t == 0)%Q) as Hnz by lra.
  set (share := (fun q => q / t * 100)%Q).
  assert (Forall2 (fun item q => Report.percentOf (Some (number t)) item = Fin (share q))
                  data qs) as Hshares.
  { eapply Forall2_impl; [exact Hdata|]. intros item q [Hitem _].
    unfold Report.percentOf. by apply share_of. }
  exists (share <$> qs). split; [|split; [|split; [|split]]].
  - clear -Hshares. induction Hshares as [|item q data qs Hitem _ IH]; [done|].
    by rewrite !fmap_cons, Hitem, IH.
  - apply Forall_fmap. rewrite Forall_forall in Hqs |- *. intros q Hq.
    apply share_bounds; [by apply Hqs | | done].
    rewrite Ht'. apply Qsum_elem; [by apply Forall_forall | done].
  - apply Forall2_fmap_r, Forall_Forall2_diag, Forall_forall. intros q _.
    unfold share. split.
    + intros ->. by field.
    + intros ->. rewrite <- Ht'. by field.
  - intros i j q q' p p' Hq Hq' Hp Hp' Hle.
    rewrite list_lookup_fmap, Hq in Hp. rewrite list_lookup_fmap, Hq' in Hp'.
    injection Hp as <-. injection Hp' as <-. unfold share.
    apply Qmult_le_compat_r; [|done].
    apply Qmult_le_compat_r; [done|]. apply Qlt_le_weak, Qinv_lt_0_compat. done.
  - assert (length (List.filter
                      (fun item =>
                         num_eq (Report.largeArcFlag
                                   (Report.percentOf (Some (number t)) item))
                                (Fin 1))
                      data)
            = length (List.filter isLarge (share <$> qs))) as ->.
    { clear -Hshares. induction Hshares as [|item q data qs Hitem _ IH]; [done|].
      rewrite fmap_cons. cbn [List.filter]. rewrite Hitem.
      unfold Report.largeArcFlag at 1. fold (isLarge (share q)).
      destruct (isLarge (share q)).
      + change (num_eq (Fin 1) (Fin 1)) with true. cbn [length]. by rewrite IH.
      + by change (num_eq (Fin 0) (Fin 1)) with false. }
    assert (Forall (fun p => 0 <= p)%Q (share <$> qs)) as Hnonneg.
    { apply Forall_fmap. rewrite Forall_forall in Hqs |- *. intros q Hq.
      apply share_bounds; [by apply Hqs | | done].
      rewrite Ht'. apply Qsum_elem; [by apply Forall_forall | done]. }
    destruct (large_counted _ Hnonneg) as [_ Htwo].
    assert (Qsum (share <$> qs) == 100)%Q as Hall.
    { unfold share. rewrite Qsum_share, <- Ht'. by field. }
    destruct (decide (2 <= length (List.filter isLarge (share <$> qs)))) as [Hmany|]; [|lia].
    specialize (Htwo Hmany). lra.
Qed.

End ChartFacts.

Lemma generateBarChart_widths_witness :
  let item : row := {[ ("age" : str) := Str "25-34"; ("sessions" : str) := number 8 ]} in
  exists p, @Report.percentage decimal (@Report.maxValue decimal [item]) item = Fin p
            /\ (p == 100)%Q.
Proof.
  cbv zeta.
  destruct (@generateBarChart_widths decimal
              [ {[ ("age" : str) := Str "25-34"; ("sessions" : str) := number 8 ]} ] [8%Q])
    as [Hsome _].
  { constructor; [|constructor]. split; [reflexivity | unfold Qle; simpl; lia]. }
  destruct Hsome as [_ (item & p & Hitem & Hp & Hfull)]; [unfold Qlt; simpl; lia|].
  apply list_elem_of_singleton in Hitem as ->. by exists p.
Defined.

Lemma generatePieChart_shares_witness :
  let data : list row :=
    [ {[ ("sessions" : str) := number 6 ]}; {[ ("sessions" : str) := number 2 ]} ] in
  exists ps,
    @Report.percentOf decimal (@Report.total decimal Report.wholeNumbers data None) <$> data
    = Fin <$> ps
    /\ Forall (fun p => 0 <= p /\ p <= 100)%Q ps
    /\ length (List.filter
                 (fun item =>
                    num_eq (Report.largeArcFlag
                              (@Report.percentOf decimal
                                 (@Report.total decimal Report.wholeNumbers data None) item))
                           (Fin 1))
                 data) <= 1.
Proof.
  cbv zeta.
  destruct (@generatePieChart_shares decimal Report.wholeNumbers
              [ {[ ("sessions" : str) := number 6 ]}; {[ ("sessions" : str) := number 2 ]} ]
              [6%Q; 2%Q])
    as (ps & Hps & Hbounds & _ & _ & Hlarge).
  - repeat (constructor; [split; [reflexivity | unfold Qle; simpl; lia]|]). constructor.
  - unfold Qlt; simpl; lia.
  - exists ps. split; [exact Hps|]. split; [exact Hbounds | exact Hlarge].
Defined.

(** ** processMessageWithComments *)

Section WithCommentsFacts.
Context `{Services} `{Highlighting}.

(** X26.  [processMessageWithComments] is [processMessage] when comments
    are not asked for, and also when they are asked for with a message
    that has no keyword of a review request or holds no document id: the
    comments are written only by a review. *)
Theorem processMessageWithComments_plain (userMessage conversationHistory : json) :
  processMessageWithComments userMessage conversationHistory false
  = processMessage userMessage conversationHistory
  /\ (forall message : str,
        userMessage = VStr message ->
        existsb (fun keyword => includes keyword (toLowerCase message)) reviewKeywords
        = false
        \/ extractDocumentId message = None ->
        processMessageWithComments userMessage conversationHistory true
        = processMessage userMessage conversationHistory).
Proof.
  split; [done|]. intros message -> Hplain.
  unfold processMessageWithComments, processMessage, processMessageWithComments_body,
    processMessage_body. cbv zeta.
  unfold isDocumentReviewRequest.
  cbn [asString fmap result_fmap mbind result_bind mret result_ret].
  destruct (existsb _ reviewKeywords); [|done].
  destruct Hplain as [|Hnone]; [done|].
  cbn [asString fmap result_fmap mbind result_bind mret result_ret].
  by rewrite Hnone.
Qed.

End WithCommentsFacts.

Lemma processMessageWithComments_plain_witness :
  @processMessageWithComments embeddingDown noHighlighting (VStr "hello") VUndef true
  = @processMessage embeddingDown (VStr "hello") VUndef.
Proof.
  apply (proj2 (@processMessageWithComments_plain embeddingDown noHighlighting
                  (VStr "hello") VUndef) "hello"); [reflexivity|].
  left. reflexivity.
Defined.

(** ** The id of a document, again *)

Lemma firstCapture_sound (url id : str) :
  extractDocumentId url = Some id -> id <> [] /\ allId id = true.
Proof.
  unfold extractDocumentId. cbn [firstCapture].
  destruct (match_ docPathPattern url) as [m|] eqn:Hpath.
  - apply searchFrom_sound in Hpath as (i & _ & Hm).
    change docPathPattern with (idAfterPattern docPathLit) in Hm.
    apply idAfter_sound in Hm as (ch & run & rest & _ & Hch & Hrun & ->).
    cbn. intros [= <-]. split; [done|]. by cbn [allId forallb]; rewrite Hch.
  - destruct (decide (url <> [] /\ allId url = true)) as [[Hne Hall]|Hnot].
    + rewrite (bareId_match _ Hne Hall). cbn. by intros [= <-].
    + by rewrite (bareId_no_match _ Hnot).
Qed.

(** X27.  What [extractDocumentId] returns is an id it accepts: it is
    not empty, holds only id characters, and given it back the function
    returns it again. *)
Theorem extractDocumentId_idempotent (url id : str) :
  extractDocumentId url = Some id ->
  id <> [] /\ allId id = true /\ extractDocumentId id = Some id.
Proof.
  intros [Hne Hall]%firstCapture_sound. split; [done|]. split; [done|].
  by apply extractDocumentId_of_id.
Qed.

Lemma extractDocumentId_idempotent_witness :
  extractDocumentId "1Ab-c_9" = Some (list_ascii_of_string "1Ab-c_9").
Proof.
  apply (extractDocumentId_idempotent "https://docs.google.com/document/d/1Ab-c_9/edit").
  vm_compute. reflexivity.
Defined.

(** ** Looking the rules up *)

Lemma substring_take (n : nat) (s : str) : substring 0 n s = take n s.
Proof.
  unfold substring. cbv zeta. rewrite Nat.min_0_l, Nat.max_0_l, Nat.sub_0_r.
  cbn [drop]. destruct (decide (n <= length s)).
  - by rewrite Nat.min_l.
  - rewrite Nat.min_r by lia. rewrite take_ge by done. by rewrite take_ge by lia.
Qed.

(** X28.  The rules retrieved for a text depend on its first 1000
    characters only: what follows them is never sent to the embedding
    endpoint. *)
Theorem retrieveFromPinecone_prefix `{Services} (text : str) (topK : nat) :
  retrieveFromPinecone (VStr text) topK
  = retrieveFromPinecone (VStr (take 1000 text)) topK.
Proof.
  unfold retrieveFromPinecone.
  cbn [asString fmap result_fmap mbind result_bind].
  by rewrite !substring_take, take_take, Nat.min_id.
Qed.

(** ** The messages of a conversation *)

Lemma mapM_outcome_inv {A B} (f : A -> Gemini.outcome B) (l : list A) (k : list B) :
  mapM f l = Gemini.Returned k -> Forall2 (fun x y => f x = Gemini.Returned y) l k.
Proof.
  revert k. induction l as [|x l IH]; intros k.
  - intros [= <-]. constructor.
  - change (mapM f (x :: l)) with (y ← f x; k' ← mapM f l; mret (y :: k')).
    intros Hk.
    apply outcome_bind_Returned in Hk as (y & Hy & Hk).
    apply outcome_bind_Returned in Hk as (k' & Hk' & Hk).
    injection Hk as <-. constructor; [done | by apply IH].
Qed.

Lemma length_lastTen (l : list json) : length (Gemini.lastTen l) = length l `min` 10.
Proof. unfold Gemini.lastTen. rewrite length_drop. lia. Qed.

Lemma lastTen_idempotent (l : list json) :
  Gemini.lastTen (Gemini.lastTen l) = Gemini.lastTen l.
Proof.
  unfold Gemini.lastTen at 1. rewrite length_lastTen.
  by replace (length l `min` 10 - 10) with 0 by lia.
Qed.

Section ConversationFacts.
Context `{Gemini.Api}.

Lemma historyOf_lastTen (history : list json) :
  Gemini.historyOf (VArr (Gemini.lastTen history)) = Gemini.historyOf (VArr history).
Proof.
  unfold Gemini.historyOf. cbn [Gemini.jsTruthy Gemini.lengthPositive andb].
  rewrite lastTen_idempotent.
  destruct history as [|msg history]; [done|].
  destruct (Gemini.lastTen (msg :: history)) as [|msg' sent] eqn:Hlast; [|done].
  apply (f_equal length) in Hlast. rewrite length_lastTen in Hlast. simpl in Hlast. lia.
Qed.

Lemma historyOf_array (history sent : list json) :
  Gemini.historyOf (VArr history) = Gemini.Returned sent ->
  Forall2 (fun msg message => Gemini.historyMessage msg = Gemini.Returned message)
          (Gemini.lastTen history) sent.
Proof.
  unfold Gemini.historyOf. destruct history as [|msg history].
  - intros [= <-]. constructor.
  - cbn [Gemini.jsTruthy Gemini.lengthPositive andb]. apply mapM_outcome_inv.
Qed.

(** X29.  Of an array given as conversation history, the last ten
    entries are sent to the model and no other: the messages are the
    system prompt, one message for each of these entries in their order,
    and the prompt made of the user's message and the context, so there
    are never more than twelve.  The entries before the last ten make no
    difference, to the messages or to a failure. *)
Theorem conversationMessages_window (userMessage context : json) (history : list json) :
  Gemini.conversationMessages userMessage context (VArr history)
  = Gemini.conversationMessages userMessage context (VArr (Gemini.lastTen history))
  /\ forall messages,
       Gemini.conversationMessages userMessage context (VArr history)
       = Gemini.Returned messages ->
       length messages = 2 + length history `min` 10
       /\ messages !! 0 = Some (Gemini.message "user" (VStr Gemini.systemPrompt))
       /\ (exists contextText,
             Gemini.contextTextOf context = Gemini.Returned contextText
             /\ messages !! (1 + length history `min` 10)
                = Some (Gemini.message "user"
                          (VStr (Gemini.valueToString userMessage ++ contextText))))
       /\ (forall i msg,
             Gemini.lastTen history !! i = Some msg ->
             exists message,
               Gemini.historyMessage msg = Gemini.Returned message
               /\ messages !! (1 + i) = Some message).
Proof.
  unfold Gemini.conversationMessages. split.
  { by rewrite historyOf_lastTen. }
  intros messages Hmessages.
  apply outcome_bind_Returned in Hmessages as (contextText & Hcontext & Hmessages).
  cbv zeta in Hmessages.
  apply outcome_bind_Returned in Hmessages as (sent & Hsent%historyOf_array & Hmessages).
  injection Hmessages as <-.
  pose proof (Forall2_length _ _ _ Hsent) as Hlen. rewrite length_lastTen in Hlen.
  split; [|split; [|split]].
  - cbn [app length]. rewrite length_app. cbn [length]. lia.
  - done.
  - exists contextText. split; [done|].
    cbn [app]. rewrite lookup_cons. cbn [Nat.add].
    rewrite lookup_app_r by lia. by rewrite Hlen, Nat.sub_diag.
  - intros i msg Hi.
    destruct (Forall2_lookup_l _ _ _ _ _ Hsent Hi) as (message & Hmessage & Hsend).
    exists message. split; [done|].
    cbn [app]. rewrite lookup_cons. cbn [Nat.add].
    by rewrite lookup_app_l by (by eapply lookup_lt_Some).
Qed.

End ConversationFacts.

Lemma conversationMessages_window_witness :
  exists messages,
    @Gemini.conversationMessages Gemini.answering (VStr "hi") (obj [])
      (VArr (replicate 12 (obj [ ("role" : str, VStr "user") ])))
    = Gemini.Returned messages
    /\ length messages = 12.
Proof.
  assert (exists messages,
            @Gemini.conversationMessages Gemini.answering (VStr "hi") (obj [])
              (VArr (replicate 12 (obj [ ("role" : str, VStr "user") ])))
            = Gemini.Returned messages) as [messages Hmessages]
    by (eexists; reflexivity).
  exists messages. split; [done|].
  by destruct (proj2 (@conversationMessages_window Gemini.answering _ _ _) _ Hmessages)
    as [-> _].
Defined.

(** ** The number of chunks *)

Lemma chunkStep_count (maxLength : nat) (st : chunkState) (para : str) :
  length (chunkFinish (chunkStep maxLength st para)) <= S (length (chunkFinish st)).
Proof.
  assert (forall (l : list str) (c c' : str),
            length (if nonEmpty c then l ++ [trim c] else l)
            <= S (length (if nonEmpty c' then l ++ [trim c'] else l))) as Hsame.
  { intros l c c'. destruct (nonEmpty c), (nonEmpty c'); rewrite ?length_app; simpl; lia. }
  unfold chunkStep, chunkFinish.
  destruct ((maxLength <? length (currentChunk st ++ para))
            && nonEmpty (currentChunk st)) eqn:Hfull; cbn [chunks currentChunk].
  - apply andb_prop in Hfull as [_ ->].
    destruct (nonEmpty para); rewrite ?length_app; simpl; lia.
  - apply Hsame.
Qed.

Lemma chunkFold_count (maxLength : nat) (paragraphs : list str) (st : chunkState) :
  length (chunkFinish (fold_left (chunkStep maxLength) paragraphs st))
  <= length paragraphs + length (chunkFinish st).
Proof.
  revert st. induction paragraphs as [|para paragraphs IH]; intros st; [simpl; lia|].
  cbn [fold_left length]. specialize (IH (chunkStep maxLength st para)).
  pose proof (chunkStep_count maxLength st para). lia.
Qed.

(** X30.  [chunkText] makes at most one chunk for each paragraph of the
    text, whatever [maxLength] is: a paragraph is never cut, however long
    it is. *)
Theorem chunkText_count (text : str) (maxLength : nat) :
  length (chunkText text maxLength) <= length (splitParagraphs text).
Proof.
  unfold chunkText. cbv zeta.
  pose proof (chunkFold_count maxLength (splitParagraphs text)
                {| chunks := []; currentChunk := [] |}) as Hcount.
  simpl in Hcount. lia.
Qed.
